(** * TiCDC replication coordination core: owner changefeed controller,
      processor global-resolved worker, DDL handler and message envelope.

    Shallow embedding of
      - cdc/changefeed.go      (changeFeed: balancing, handleDDL, calcResolvedTs;
                                the message writer / reader that shares the file),
      - cdc/owner_operator.go  (ddlHandler; txnChannel and processorImpl),
    with Go maps as stdpp [gmap]s, uint64 timestamps as [N], int64 table ids
    as [Z], and the interfaces of the source (Sink, Scheduler, schema
    snapshot, OwnerDDLHandler) as type classes. *)

From Stdlib Require Import ZArith NArith Lia List Bool Sorted.
From Stdlib.Strings Require Import Byte String.
From stdpp Require Import gmap strings list fin_maps.

Set Default Proof Using "Type*".

(** ** Basic types *)

(** [model.Ts] is a Go [uint64]. *)
Abbreviation Ts := N.
Abbreviation TableID := Z.
Abbreviation SchemaID := Z.
Abbreviation CaptureID := string.

Definition MaxUint64 : N := 18446744073709551615%N.

Inductive error : Type :=
| ErrOperationUnapplied   (* "waiting to processor handle the operation finished time out" *)
| ErrExecDDLFailed        (* model.ErrExecDDLFailed *)
| ErrNotFound (id : Z)    (* errors.NotFoundf("table(%d)") *)
| ErrInvalidMessage       (* "invalid message format" *)
| ErrUnsupportedType (t : N)   (* "unsupport type - %d" *)
| ErrUnsupportedTxnOp     (* "unsupport txn operator" *)
| ErrGetTableID           (* "get table id failed" *)
| ErrGetTableByID         (* "get table by id failed" *)
| ErrInvalidSize          (* encoding.ErrInvalidSize *)
| ErrExternal (msg : string).

(** ** Package model *)

Module model.

(** Modelled from the spec: the declaration of [TableOperation] is not part
    of the sources at hand.  Section 3 gives an operation a kind (Add or
    Delete, the [Delete] flag of the code), a [boundaryTs] and
    [applied ∈ {Pending, Processed, Finished}]. *)
Inductive Applied := Pending | Processed | Finished.

Record TableOperation := {
  Delete : bool;
  BoundaryTs : Ts;
  applied : Applied;
}.

(** The two maps of [TaskStatus] that changefeed.go reads and writes. *)
Record TaskStatus := {
  Tables : gmap TableID Ts;
  Operation : gmap TableID TableOperation;
}.

(** [TaskPosition]: changefeed.go reads [CheckPointTs] and [ResolvedTs];
    section 3 adds the count. *)
Record TaskPosition := {
  CheckPointTs : Ts;
  ResolvedTs : Ts;
  Count : N;
}.

Definition isPending (o : TableOperation) : bool :=
  match applied o with Pending => true | _ => false end.

(** Modelled from the spec: [TaskStatus.SomeOperationsUnapplied] is not in
    the sources at hand.  Section 4.1: the balancing precondition is that
    no operation has [applied = Pending]. *)
Definition SomeOperationsUnapplied (ts : TaskStatus) : bool :=
  existsb (fun kv : TableID * TableOperation => isPending kv.2)
          (map_to_list (Operation ts)).

(** Modelled from the spec: [TaskStatus.AppliedTs] is not in the sources at
    hand.  Section 4.1 ("if taskStatus[c] has a pending operation with
    boundaryTs B: clamp to B"); the caller compares the result with
    [math.MaxUint64] to detect "nothing unapplied". *)
Definition AppliedTs (ts : TaskStatus) : Ts :=
  foldl (fun acc (kv : TableID * TableOperation) =>
           if isPending kv.2 then N.min acc (BoundaryTs kv.2) else acc)
        MaxUint64 (map_to_list (Operation ts)).

(** Modelled from the spec: [new(model.TaskStatus)], both maps nil.  Reading a nil map behaves as
    reading an empty one, and every writer in changefeed.go allocates the
    map first, so nil and empty are identified. *)
Definition newTaskStatus : TaskStatus := {| Tables := ∅; Operation := ∅ |}.

(** Modelled from the spec: [TaskStatus.Clone] is not in the sources at
    hand; a deep copy, the identity on immutable values. *)
Definition Clone (ts : TaskStatus) : TaskStatus := ts.

(** Modelled from the spec: [TaskStatus.RemoveTable] is not in the sources
    at hand.  Section 4.1: "remove id from tables in that capture's new
    status". *)
Definition RemoveTable (id : TableID) (ts : TaskStatus) : TaskStatus :=
  {| Tables := delete id (Tables ts); Operation := Operation ts |}.

(** The two timestamps of [ChangeFeedStatus] (Go field [ResolvedTs] is
    [cfResolvedTs] here, next to [TaskPosition.ResolvedTs]). *)
Record ChangeFeedStatus := {
  cfResolvedTs : Ts;
  CheckpointTs : Ts;
}.

(** The DDL states, as the constants of cdc/model/changefeed.go list them. *)
Inductive ChangeFeedDDLState :=
| ChangeFeedUnknown
| ChangeFeedSyncDML
| ChangeFeedWaitToExecDDL
| ChangeFeedExecDDL
| ChangeFeedDDLExecuteFailed.

Definition ddlState_eqb (a b : ChangeFeedDDLState) : bool :=
  match a, b with
  | ChangeFeedUnknown, ChangeFeedUnknown
  | ChangeFeedSyncDML, ChangeFeedSyncDML
  | ChangeFeedWaitToExecDDL, ChangeFeedWaitToExecDDL
  | ChangeFeedExecDDL, ChangeFeedExecDDL
  | ChangeFeedDDLExecuteFailed, ChangeFeedDDLExecuteFailed => true
  | _, _ => false
  end.

End model.

(** ** appendTaskOperation (changefeed.go) *)

Definition appendTaskOperation
  (targetOperations : gmap TableID model.TableOperation)
  (tableID : TableID) (operation : model.TableOperation)
  : gmap TableID model.TableOperation :=
  match targetOperations !! tableID with
  | Some originalOperation =>
      if negb (Bool.eqb (model.Delete originalOperation) (model.Delete operation))
      then delete tableID targetOperations
      else targetOperations
  | None => <[tableID := operation]> targetOperations
  end.

(** The loop ranges over a Go map; keys are distinct, so the order of the
    iteration does not matter for the result. *)
Definition appendTaskOperations
  (targetOperations toAppendOperations : gmap TableID model.TableOperation)
  : gmap TableID model.TableOperation :=
  foldl (fun acc kv => appendTaskOperation acc kv.1 kv.2)
        targetOperations (map_to_list toAppendOperations).

(** ** Collaborators of the owner *)

(** The parts of [timodel.Job] (github.com/pingcap/parser/model) the owner
    reads. *)
Module timodel.

Inductive ActionType :=
| ActionCreateSchema
| ActionDropSchema
| ActionCreateTable
| ActionRecoverTable
| ActionDropTable
| ActionRenameTable
| ActionTruncateTable
| ActionOther (code : N).

(** [GetPartitionInfo] yields nil or the partition definitions; only their
    ids are read. *)
Record TableInfo := {
  tiID : TableID;
  tiName : string;
  PartitionDefinitions : option (list Z);
}.

Record HistoryInfo := {
  FinishedTS : Ts;
  binlogTableInfo : option TableInfo;
}.

(** [BinlogInfo] is a pointer in Go; changefeed.go dereferences it without
    a nil test for every job of the history, so it is a plain field. *)
Record Job := {
  ID : Z;
  jobType : ActionType;   (* Go field [Type] *)
  SchemaID : SchemaID;
  jobTableID : TableID;
  SchemaName : string;
  Query : string;
  BinlogInfo : HistoryInfo;
}.

Definition setSchemaName (name : string) (j : Job) : Job :=
  {| ID := ID j; jobType := jobType j; SchemaID := SchemaID j;
     jobTableID := jobTableID j; SchemaName := name; Query := Query j;
     BinlogInfo := BinlogInfo j |}.

End timodel.

Module entry.
Record TableName := { Schema : string; Table : string }.
End entry.

(** Modelled from the spec: [model.DDLEvent] and its [FromJob] are not in
    the sources at hand.  Section 3: a DDL event carries
    [{schema, table, query, type, finishedTs}]. *)
Record DDLEvent := {
  ddlTs : Ts;
  ddlSchema : string;
  ddlTable : string;
  ddlQuery : string;
  ddlType : timodel.ActionType;
}.

(** Modelled from the spec: [DDLEvent.FromJob] copies the fields of the
    job that section 3 lists for a DDL event. *)
Definition FromJob (job : timodel.Job) : DDLEvent :=
  {| ddlTs := timodel.FinishedTS (timodel.BinlogInfo job);
     ddlSchema := timodel.SchemaName job;
     ddlTable := match timodel.binlogTableInfo (timodel.BinlogInfo job) with
                 | Some ti => timodel.tiName ti
                 | None => EmptyString
                 end;
     ddlQuery := timodel.Query job;
     ddlType := timodel.jobType job |}.

(** Result of a Go function that returns an [error], aborts the process
    through [log.Fatal], or panics on a nil dereference. *)
Inductive outcome :=
| Nil                 (* returned nil *)
| Failed (e : error)  (* returned a non-nil error *)
| Fatal.              (* log.Fatal / panic: the process is gone *)

(** [sink.Sink], as far as the owner calls it. *)
Class Sink (K : Type) := {
  EmitDDLEvent : K → DDLEvent → K * option error;
  EmitCheckpointTs : K → Ts → K * option error;
}.

(** [entry.SingleSchemaSnapshot], as far as the owner calls it.
    [FillSchemaName] writes the [SchemaName] field of the job it is given. *)
Class SchemaSnapshot (S : Type) := {
  HandleDDL : S → timodel.Job → S * option error;
  FillSchemaName : S → timodel.Job → error + string;
  GetTableNameByID : S → TableID → option entry.TableName;
  GetTableIDByName : S → string → string → option TableID;
  IsIneligibleTableID : S → TableID → bool;
}.

Abbreviation Operations := (gmap CaptureID (gmap TableID model.TableOperation)).
Abbreviation Workload := (gmap TableID N).

(** [scheduler.Scheduler]. *)
Class Scheduler (S : Type) := {
  AlignCapture : S → gset CaptureID → S;
  DistributeTables : S → gmap TableID Ts → S * Operations;
  ResetWorkloads : S → CaptureID → Workload → S;
  CalRebalanceOperates : S → N → Ts → S * (Operations * Operations);
}.

(** [OwnerDDLHandler] (changefeed.go). *)
Class OwnerDDLHandler (H : Type) := {
  PullDDL : H → H * (error + (Ts * list timodel.Job));
}.

(** [filter.Filter], as far as the owner calls it. *)
Record Filter := {
  ShouldIgnoreTable : string → string → bool;
  ShouldDiscardDDL : timodel.ActionType → bool;
}.

(** Package [cyclic]. *)
Record CyclicPkg := {
  IsMarkTable : string → string → bool;
  MarkTableName : string → string → string * string;
}.

Record CaptureInfo := { ciID : string; AdvertiseAddr : string }.

(** Modelled from the spec: the metadata-store client [kv.CDCEtcdClient] is
    not in the sources at hand.  Section 6: the store keeps one [TaskStatus]
    per capture under [/task/status/<cfId>/<captureId>], written by
    revision-tagged compare-and-set, one key per write.  Reading the
    workload of a capture may fail. *)
Record CDCEtcdClient := {
  taskStatusKV : gmap CaptureID model.TaskStatus;
  GetTaskWorkload : CaptureID → error + Workload;
}.

Definition setTaskStatusKV (kv : gmap CaptureID model.TaskStatus) (e : CDCEtcdClient)
  : CDCEtcdClient :=
  {| taskStatusKV := kv; GetTaskWorkload := GetTaskWorkload e |}.

(** Modelled from the spec: [AtomicPutTaskStatus] reads the status stored
    for the capture (a fresh one when the key is absent), runs the update
    function on it and, when that succeeds, commits the result under the
    same key; when it fails nothing is written. *)
Definition AtomicPutTaskStatus (e : CDCEtcdClient) (captureID : CaptureID)
  (update : model.TaskStatus → error + model.TaskStatus)
  : CDCEtcdClient * (error + model.TaskStatus) :=
  let cur := default model.newTaskStatus (taskStatusKV e !! captureID) in
  match update cur with
  | inl err => (e, inl err)
  | inr new => (setTaskStatusKV (<[captureID := new]> (taskStatusKV e)) e, inr new)
  end.

(** Calls to collaborators, recorded in program order. *)
Inductive Call :=
| CallSchemaHandleDDL (job : timodel.Job)
| CallSinkEmitDDLEvent (ev : DDLEvent)
| CallSinkEmitCheckpointTs (ts : Ts)
| CallAtomicPutTaskStatus (captureID : CaptureID) (status : model.TaskStatus)
| CallDistributeTables (orphans : gmap TableID Ts)
| CallCalRebalanceOperates (checkpointTs : Ts)
| CallPullDDL.

(** ** The changefeed controller (changefeed.go) *)

Section Owner.

Context {Sch Snk Sched Hdl : Type}.
Context `{!SchemaSnapshot Sch, !Sink Snk, !Scheduler Sched, !OwnerDDLHandler Hdl}.

(** Go [changeFeed].  The struct holds references to its collaborators; the
    record holds their current states.  [calls] is ghost state: it records
    the collaborator calls in program order so that "does not call the
    sink" can be stated. *)
Record changeFeed := {
  cfID : string; (* Go field [id] *)
  cyclicSyncDDL : bool; (* [info.Config.Cyclic.SyncDDL] *)
  status : model.ChangeFeedStatus;
  schema : Sch;
  ddlState : model.ChangeFeedDDLState;
  targetTs : Ts;
  taskStatus : gmap CaptureID model.TaskStatus;
  taskPositions : gmap CaptureID model.TaskPosition;
  cfFilter : Filter; (* Go field [filter] *)
  sink : Snk;
  scheduler : Sched;
  cyclicEnabled : bool;
  ddlHandler : Hdl;
  ddlResolvedTs : Ts;
  ddlJobHistory : list timodel.Job;
  ddlExecutedTs : Ts;
  schemas : gmap SchemaID (gset TableID);
  tables : gmap TableID entry.TableName;
  partitions : gmap TableID (list Z);
  orphanTables : gmap TableID Ts;
  toCleanTables : gmap TableID Ts;
  todoAddOperations : Operations;
  lastRebanlanceTime : Z; (* nanoseconds *)
  etcdCli : CDCEtcdClient;
  calls : list Call; (* ghost: collaborator calls made so far *)
}.

(** Field updates. *)
Definition set_status (v : model.ChangeFeedStatus) (c : changeFeed) : changeFeed :=
  {| cfID := cfID c; cyclicSyncDDL := cyclicSyncDDL c; status := v;
     schema := schema c; ddlState := ddlState c; targetTs := targetTs c;
     taskStatus := taskStatus c; taskPositions := taskPositions c;
     cfFilter := cfFilter c; sink := sink c; scheduler := scheduler c;
     cyclicEnabled := cyclicEnabled c; ddlHandler := ddlHandler c;
     ddlResolvedTs := ddlResolvedTs c; ddlJobHistory := ddlJobHistory c;
     ddlExecutedTs := ddlExecutedTs c; schemas := schemas c;
     tables := tables c; partitions := partitions c;
     orphanTables := orphanTables c; toCleanTables := toCleanTables c;
     todoAddOperations := todoAddOperations c;
     lastRebanlanceTime := lastRebanlanceTime c; etcdCli := etcdCli c;
     calls := calls c |}.
Definition set_schema (v : Sch) (c : changeFeed) : changeFeed :=
  {| cfID := cfID c; cyclicSyncDDL := cyclicSyncDDL c; status := status c;
     schema := v; ddlState := ddlState c; targetTs := targetTs c;
     taskStatus := taskStatus c; taskPositions := taskPositions c;
     cfFilter := cfFilter c; sink := sink c; scheduler := scheduler c;
     cyclicEnabled := cyclicEnabled c; ddlHandler := ddlHandler c;
     ddlResolvedTs := ddlResolvedTs c; ddlJobHistory := ddlJobHistory c;
     ddlExecutedTs := ddlExecutedTs c; schemas := schemas c;
     tables := tables c; partitions := partitions c;
     orphanTables := orphanTables c; toCleanTables := toCleanTables c;
     todoAddOperations := todoAddOperations c;
     lastRebanlanceTime := lastRebanlanceTime c; etcdCli := etcdCli c;
     calls := calls c |}.
Definition set_ddlState (v : model.ChangeFeedDDLState) (c : changeFeed) : changeFeed :=
  {| cfID := cfID c; cyclicSyncDDL := cyclicSyncDDL c; status := status c;
     schema := schema c; ddlState := v; targetTs := targetTs c;
     taskStatus := taskStatus c; taskPositions := taskPositions c;
     cfFilter := cfFilter c; sink := sink c; scheduler := scheduler c;
     cyclicEnabled := cyclicEnabled c; ddlHandler := ddlHandler c;
     ddlResolvedTs := ddlResolvedTs c; ddlJobHistory := ddlJobHistory c;
     ddlExecutedTs := ddlExecutedTs c; schemas := schemas c;
     tables := tables c; partitions := partitions c;
     orphanTables := orphanTables c; toCleanTables := toCleanTables c;
     todoAddOperations := todoAddOperations c;
     lastRebanlanceTime := lastRebanlanceTime c; etcdCli := etcdCli c;
     calls := calls c |}.
Definition set_taskStatus (v : gmap CaptureID model.TaskStatus) (c : changeFeed) : changeFeed :=
  {| cfID := cfID c; cyclicSyncDDL := cyclicSyncDDL c; status := status c;
     schema := schema c; ddlState := ddlState c; targetTs := targetTs c;
     taskStatus := v; taskPositions := taskPositions c;
     cfFilter := cfFilter c; sink := sink c; scheduler := scheduler c;
     cyclicEnabled := cyclicEnabled c; ddlHandler := ddlHandler c;
     ddlResolvedTs := ddlResolvedTs c; ddlJobHistory := ddlJobHistory c;
     ddlExecutedTs := ddlExecutedTs c; schemas := schemas c;
     tables := tables c; partitions := partitions c;
     orphanTables := orphanTables c; toCleanTables := toCleanTables c;
     todoAddOperations := todoAddOperations c;
     lastRebanlanceTime := lastRebanlanceTime c; etcdCli := etcdCli c;
     calls := calls c |}.
Definition set_taskPositions (v : gmap CaptureID model.TaskPosition) (c : changeFeed) : changeFeed :=
  {| cfID := cfID c; cyclicSyncDDL := cyclicSyncDDL c; status := status c;
     schema := schema c; ddlState := ddlState c; targetTs := targetTs c;
     taskStatus := taskStatus c; taskPositions := v; cfFilter := cfFilter c;
     sink := sink c; scheduler := scheduler c;
     cyclicEnabled := cyclicEnabled c; ddlHandler := ddlHandler c;
     ddlResolvedTs := ddlResolvedTs c; ddlJobHistory := ddlJobHistory c;
     ddlExecutedTs := ddlExecutedTs c; schemas := schemas c;
     tables := tables c; partitions := partitions c;
     orphanTables := orphanTables c; toCleanTables := toCleanTables c;
     todoAddOperations := todoAddOperations c;
     lastRebanlanceTime := lastRebanlanceTime c; etcdCli := etcdCli c;
     calls := calls c |}.
Definition set_sink (v : Snk) (c : changeFeed) : changeFeed :=
  {| cfID := cfID c; cyclicSyncDDL := cyclicSyncDDL c; status := status c;
     schema := schema c; ddlState := ddlState c; targetTs := targetTs c;
     taskStatus := taskStatus c; taskPositions := taskPositions c;
     cfFilter := cfFilter c; sink := v; scheduler := scheduler c;
     cyclicEnabled := cyclicEnabled c; ddlHandler := ddlHandler c;
     ddlResolvedTs := ddlResolvedTs c; ddlJobHistory := ddlJobHistory c;
     ddlExecutedTs := ddlExecutedTs c; schemas := schemas c;
     tables := tables c; partitions := partitions c;
     orphanTables := orphanTables c; toCleanTables := toCleanTables c;
     todoAddOperations := todoAddOperations c;
     lastRebanlanceTime := lastRebanlanceTime c; etcdCli := etcdCli c;
     calls := calls c |}.
Definition set_scheduler (v : Sched) (c : changeFeed) : changeFeed :=
  {| cfID := cfID c; cyclicSyncDDL := cyclicSyncDDL c; status := status c;
     schema := schema c; ddlState := ddlState c; targetTs := targetTs c;
     taskStatus := taskStatus c; taskPositions := taskPositions c;
     cfFilter := cfFilter c; sink := sink c; scheduler := v;
     cyclicEnabled := cyclicEnabled c; ddlHandler := ddlHandler c;
     ddlResolvedTs := ddlResolvedTs c; ddlJobHistory := ddlJobHistory c;
     ddlExecutedTs := ddlExecutedTs c; schemas := schemas c;
     tables := tables c; partitions := partitions c;
     orphanTables := orphanTables c; toCleanTables := toCleanTables c;
     todoAddOperations := todoAddOperations c;
     lastRebanlanceTime := lastRebanlanceTime c; etcdCli := etcdCli c;
     calls := calls c |}.
Definition set_ddlHandler (v : Hdl) (c : changeFeed) : changeFeed :=
  {| cfID := cfID c; cyclicSyncDDL := cyclicSyncDDL c; status := status c;
     schema := schema c; ddlState := ddlState c; targetTs := targetTs c;
     taskStatus := taskStatus c; taskPositions := taskPositions c;
     cfFilter := cfFilter c; sink := sink c; scheduler := scheduler c;
     cyclicEnabled := cyclicEnabled c; ddlHandler := v;
     ddlResolvedTs := ddlResolvedTs c; ddlJobHistory := ddlJobHistory c;
     ddlExecutedTs := ddlExecutedTs c; schemas := schemas c;
     tables := tables c; partitions := partitions c;
     orphanTables := orphanTables c; toCleanTables := toCleanTables c;
     todoAddOperations := todoAddOperations c;
     lastRebanlanceTime := lastRebanlanceTime c; etcdCli := etcdCli c;
     calls := calls c |}.
Definition set_ddlResolvedTs (v : Ts) (c : changeFeed) : changeFeed :=
  {| cfID := cfID c; cyclicSyncDDL := cyclicSyncDDL c; status := status c;
     schema := schema c; ddlState := ddlState c; targetTs := targetTs c;
     taskStatus := taskStatus c; taskPositions := taskPositions c;
     cfFilter := cfFilter c; sink := sink c; scheduler := scheduler c;
     cyclicEnabled := cyclicEnabled c; ddlHandler := ddlHandler c;
     ddlResolvedTs := v; ddlJobHistory := ddlJobHistory c;
     ddlExecutedTs := ddlExecutedTs c; schemas := schemas c;
     tables := tables c; partitions := partitions c;
     orphanTables := orphanTables c; toCleanTables := toCleanTables c;
     todoAddOperations := todoAddOperations c;
     lastRebanlanceTime := lastRebanlanceTime c; etcdCli := etcdCli c;
     calls := calls c |}.
Definition set_ddlJobHistory (v : list timodel.Job) (c : changeFeed) : changeFeed :=
  {| cfID := cfID c; cyclicSyncDDL := cyclicSyncDDL c; status := status c;
     schema := schema c; ddlState := ddlState c; targetTs := targetTs c;
     taskStatus := taskStatus c; taskPositions := taskPositions c;
     cfFilter := cfFilter c; sink := sink c; scheduler := scheduler c;
     cyclicEnabled := cyclicEnabled c; ddlHandler := ddlHandler c;
     ddlResolvedTs := ddlResolvedTs c; ddlJobHistory := v;
     ddlExecutedTs := ddlExecutedTs c; schemas := schemas c;
     tables := tables c; partitions := partitions c;
     orphanTables := orphanTables c; toCleanTables := toCleanTables c;
     todoAddOperations := todoAddOperations c;
     lastRebanlanceTime := lastRebanlanceTime c; etcdCli := etcdCli c;
     calls := calls c |}.
Definition set_ddlExecutedTs (v : Ts) (c : changeFeed) : changeFeed :=
  {| cfID := cfID c; cyclicSyncDDL := cyclicSyncDDL c; status := status c;
     schema := schema c; ddlState := ddlState c; targetTs := targetTs c;
     taskStatus := taskStatus c; taskPositions := taskPositions c;
     cfFilter := cfFilter c; sink := sink c; scheduler := scheduler c;
     cyclicEnabled := cyclicEnabled c; ddlHandler := ddlHandler c;
     ddlResolvedTs := ddlResolvedTs c; ddlJobHistory := ddlJobHistory c;
     ddlExecutedTs := v; schemas := schemas c; tables := tables c;
     partitions := partitions c; orphanTables := orphanTables c;
     toCleanTables := toCleanTables c;
     todoAddOperations := todoAddOperations c;
     lastRebanlanceTime := lastRebanlanceTime c; etcdCli := etcdCli c;
     calls := calls c |}.
Definition set_schemas (v : gmap SchemaID (gset TableID)) (c : changeFeed) : changeFeed :=
  {| cfID := cfID c; cyclicSyncDDL := cyclicSyncDDL c; status := status c;
     schema := schema c; ddlState := ddlState c; targetTs := targetTs c;
     taskStatus := taskStatus c; taskPositions := taskPositions c;
     cfFilter := cfFilter c; sink := sink c; scheduler := scheduler c;
     cyclicEnabled := cyclicEnabled c; ddlHandler := ddlHandler c;
     ddlResolvedTs := ddlResolvedTs c; ddlJobHistory := ddlJobHistory c;
     ddlExecutedTs := ddlExecutedTs c; schemas := v; tables := tables c;
     partitions := partitions c; orphanTables := orphanTables c;
     toCleanTables := toCleanTables c;
     todoAddOperations := todoAddOperations c;
     lastRebanlanceTime := lastRebanlanceTime c; etcdCli := etcdCli c;
     calls := calls c |}.
Definition set_tables (v : gmap TableID entry.TableName) (c : changeFeed) : changeFeed :=
  {| cfID := cfID c; cyclicSyncDDL := cyclicSyncDDL c; status := status c;
     schema := schema c; ddlState := ddlState c; targetTs := targetTs c;
     taskStatus := taskStatus c; taskPositions := taskPositions c;
     cfFilter := cfFilter c; sink := sink c; scheduler := scheduler c;
     cyclicEnabled := cyclicEnabled c; ddlHandler := ddlHandler c;
     ddlResolvedTs := ddlResolvedTs c; ddlJobHistory := ddlJobHistory c;
     ddlExecutedTs := ddlExecutedTs c; schemas := schemas c; tables := v;
     partitions := partitions c; orphanTables := orphanTables c;
     toCleanTables := toCleanTables c;
     todoAddOperations := todoAddOperations c;
     lastRebanlanceTime := lastRebanlanceTime c; etcdCli := etcdCli c;
     calls := calls c |}.
Definition set_partitions (v : gmap TableID (list Z)) (c : changeFeed) : changeFeed :=
  {| cfID := cfID c; cyclicSyncDDL := cyclicSyncDDL c; status := status c;
     schema := schema c; ddlState := ddlState c; targetTs := targetTs c;
     taskStatus := taskStatus c; taskPositions := taskPositions c;
     cfFilter := cfFilter c; sink := sink c; scheduler := scheduler c;
     cyclicEnabled := cyclicEnabled c; ddlHandler := ddlHandler c;
     ddlResolvedTs := ddlResolvedTs c; ddlJobHistory := ddlJobHistory c;
     ddlExecutedTs := ddlExecutedTs c; schemas := schemas c;
     tables := tables c; partitions := v; orphanTables := orphanTables c;
     toCleanTables := toCleanTables c;
     todoAddOperations := todoAddOperations c;
     lastRebanlanceTime := lastRebanlanceTime c; etcdCli := etcdCli c;
     calls := calls c |}.
Definition set_orphanTables (v : gmap TableID Ts) (c : changeFeed) : changeFeed :=
  {| cfID := cfID c; cyclicSyncDDL := cyclicSyncDDL c; status := status c;
     schema := schema c; ddlState := ddlState c; targetTs := targetTs c;
     taskStatus := taskStatus c; taskPositions := taskPositions c;
     cfFilter := cfFilter c; sink := sink c; scheduler := scheduler c;
     cyclicEnabled := cyclicEnabled c; ddlHandler := ddlHandler c;
     ddlResolvedTs := ddlResolvedTs c; ddlJobHistory := ddlJobHistory c;
     ddlExecutedTs := ddlExecutedTs c; schemas := schemas c;
     tables := tables c; partitions := partitions c; orphanTables := v;
     toCleanTables := toCleanTables c;
     todoAddOperations := todoAddOperations c;
     lastRebanlanceTime := lastRebanlanceTime c; etcdCli := etcdCli c;
     calls := calls c |}.
Definition set_toCleanTables (v : gmap TableID Ts) (c : changeFeed) : changeFeed :=
  {| cfID := cfID c; cyclicSyncDDL := cyclicSyncDDL c; status := status c;
     schema := schema c; ddlState := ddlState c; targetTs := targetTs c;
     taskStatus := taskStatus c; taskPositions := taskPositions c;
     cfFilter := cfFilter c; sink := sink c; scheduler := scheduler c;
     cyclicEnabled := cyclicEnabled c; ddlHandler := ddlHandler c;
     ddlResolvedTs := ddlResolvedTs c; ddlJobHistory := ddlJobHistory c;
     ddlExecutedTs := ddlExecutedTs c; schemas := schemas c;
     tables := tables c; partitions := partitions c;
     orphanTables := orphanTables c; toCleanTables := v;
     todoAddOperations := todoAddOperations c;
     lastRebanlanceTime := lastRebanlanceTime c; etcdCli := etcdCli c;
     calls := calls c |}.
Definition set_todoAddOperations (v : Operations) (c : changeFeed) : changeFeed :=
  {| cfID := cfID c; cyclicSyncDDL := cyclicSyncDDL c; status := status c;
     schema := schema c; ddlState := ddlState c; targetTs := targetTs c;
     taskStatus := taskStatus c; taskPositions := taskPositions c;
     cfFilter := cfFilter c; sink := sink c; scheduler := scheduler c;
     cyclicEnabled := cyclicEnabled c; ddlHandler := ddlHandler c;
     ddlResolvedTs := ddlResolvedTs c; ddlJobHistory := ddlJobHistory c;
     ddlExecutedTs := ddlExecutedTs c; schemas := schemas c;
     tables := tables c; partitions := partitions c;
     orphanTables := orphanTables c; toCleanTables := toCleanTables c;
     todoAddOperations := v; lastRebanlanceTime := lastRebanlanceTime c;
     etcdCli := etcdCli c; calls := calls c |}.
Definition set_lastRebanlanceTime (v : Z) (c : changeFeed) : changeFeed :=
  {| cfID := cfID c; cyclicSyncDDL := cyclicSyncDDL c; status := status c;
     schema := schema c; ddlState := ddlState c; targetTs := targetTs c;
     taskStatus := taskStatus c; taskPositions := taskPositions c;
     cfFilter := cfFilter c; sink := sink c; scheduler := scheduler c;
     cyclicEnabled := cyclicEnabled c; ddlHandler := ddlHandler c;
     ddlResolvedTs := ddlResolvedTs c; ddlJobHistory := ddlJobHistory c;
     ddlExecutedTs := ddlExecutedTs c; schemas := schemas c;
     tables := tables c; partitions := partitions c;
     orphanTables := orphanTables c; toCleanTables := toCleanTables c;
     todoAddOperations := todoAddOperations c; lastRebanlanceTime := v;
     etcdCli := etcdCli c; calls := calls c |}.
Definition set_etcdCli (v : CDCEtcdClient) (c : changeFeed) : changeFeed :=
  {| cfID := cfID c; cyclicSyncDDL := cyclicSyncDDL c; status := status c;
     schema := schema c; ddlState := ddlState c; targetTs := targetTs c;
     taskStatus := taskStatus c; taskPositions := taskPositions c;
     cfFilter := cfFilter c; sink := sink c; scheduler := scheduler c;
     cyclicEnabled := cyclicEnabled c; ddlHandler := ddlHandler c;
     ddlResolvedTs := ddlResolvedTs c; ddlJobHistory := ddlJobHistory c;
     ddlExecutedTs := ddlExecutedTs c; schemas := schemas c;
     tables := tables c; partitions := partitions c;
     orphanTables := orphanTables c; toCleanTables := toCleanTables c;
     todoAddOperations := todoAddOperations c;
     lastRebanlanceTime := lastRebanlanceTime c; etcdCli := v;
     calls := calls c |}.
Definition set_calls (v : list Call) (c : changeFeed) : changeFeed :=
  {| cfID := cfID c; cyclicSyncDDL := cyclicSyncDDL c; status := status c;
     schema := schema c; ddlState := ddlState c; targetTs := targetTs c;
     taskStatus := taskStatus c; taskPositions := taskPositions c;
     cfFilter := cfFilter c; sink := sink c; scheduler := scheduler c;
     cyclicEnabled := cyclicEnabled c; ddlHandler := ddlHandler c;
     ddlResolvedTs := ddlResolvedTs c; ddlJobHistory := ddlJobHistory c;
     ddlExecutedTs := ddlExecutedTs c; schemas := schemas c;
     tables := tables c; partitions := partitions c;
     orphanTables := orphanTables c; toCleanTables := toCleanTables c;
     todoAddOperations := todoAddOperations c;
     lastRebanlanceTime := lastRebanlanceTime c; etcdCli := etcdCli c;
     calls := v |}.

Definition logCall (k : Call) (c : changeFeed) : changeFeed :=
  set_calls (calls c ++ [k]) c.

Definition updateProcessorInfos
  (processInfos : gmap CaptureID model.TaskStatus)
  (positions : gmap CaptureID model.TaskPosition) (c : changeFeed) : changeFeed :=
  set_taskPositions positions (set_taskStatus processInfos c).

Definition addSchema (schemaID : SchemaID) (c : changeFeed) : changeFeed :=
  match schemas c !! schemaID with
  | Some _ => c
  | None => set_schemas (<[schemaID := ∅]> (schemas c)) c
  end.

(** The closure [removeFunc] of [removeTable]. *)
Definition removeFunc (targetTs : Ts) (c : changeFeed) (id : Z) : changeFeed :=
  match orphanTables c !! id with
  | Some _ => set_orphanTables (delete id (orphanTables c)) c
  | None => set_toCleanTables (<[id := targetTs]> (toCleanTables c)) c
  end.

Definition removeTable (sid : SchemaID) (tid : TableID) (targetTs : Ts)
  (c : changeFeed) : changeFeed :=
  let c := match schemas c !! sid with
           | Some s => set_schemas (<[sid := s ∖ {[tid]}]> (schemas c)) c
           | None => c
           end in
  let c := set_tables (delete tid (tables c)) c in
  match partitions c !! tid with
  | Some pids =>
      set_partitions (delete tid (partitions c)) (foldl (removeFunc targetTs) c pids)
  | None => removeFunc targetTs c tid
  end.

Definition dropSchema (schemaID : SchemaID) (targetTs : Ts) (c : changeFeed)
  : changeFeed :=
  let c := match schemas c !! schemaID with
           | Some schema =>
               foldl (fun c tid => removeTable schemaID tid targetTs c) c (elements schema)
           | None => c
           end in
  set_schemas (delete schemaID (schemas c)) c.

Definition addTable (sid : SchemaID) (tid : TableID) (startTs : Ts)
  (table : entry.TableName) (tblInfo : timodel.TableInfo) (c : changeFeed)
  : changeFeed :=
  if ShouldIgnoreTable (cfFilter c) (entry.Schema table) (entry.Table table) then c
  else match tables c !! tid with
  | Some _ => c
  | None =>
      let c := set_schemas (<[sid := default ∅ (schemas c !! sid) ∪ {[tid]}]> (schemas c)) c in
      let c := set_tables (<[tid := table]> (tables c)) c in
      match timodel.PartitionDefinitions tblInfo with
      | Some defs =>
          let c := set_partitions (delete tid (partitions c)) c in
          foldl (fun c pid =>
                   set_orphanTables (<[pid := startTs]> (orphanTables c))
                     (set_partitions
                        (<[tid := default [] (partitions c !! tid) ++ [pid]]> (partitions c)) c))
                c defs
      | None => set_orphanTables (<[tid := startTs]> (orphanTables c)) c
      end
  end.

(** *** Table balancing *)

Definition MaxInt64 : Z := 9223372036854775807%Z.

(** [minimumTablesCapture].  The Go loop ranges over the map [captures];
    [map_to_list] fixes one of the orders the runtime may take. *)
Definition minimumTablesCapture (captures : gmap CaptureID CaptureInfo)
  (newTaskStatus : gmap CaptureID model.TaskStatus) (c : changeFeed) : CaptureID :=
  if decide (size captures = 0) then EmptyString
  else
    fst (foldl (fun (acc : CaptureID * Z) (kv : CaptureID * CaptureInfo) =>
                  let '(minID, minCount) := acc in
                  let id := kv.1 in
                  let tableCount := match taskStatus c !! id with
                                    | Some status => Z.of_nat (size (model.Tables status))
                                    | None => 0%Z
                                    end in
                  let tableCount := match newTaskStatus !! id with
                                    | Some newStatus => Z.of_nat (size (model.Tables newStatus))
                                    | None => tableCount
                                    end in
                  if (tableCount <? minCount)%Z then (id, tableCount) else (minID, minCount))
               (EmptyString, MaxInt64) (map_to_list captures)).

Definition selectCapture (captures : gmap CaptureID CaptureInfo)
  (newTaskStatus : gmap CaptureID model.TaskStatus) (c : changeFeed) : CaptureID :=
  minimumTablesCapture captures newTaskStatus c.

Definition findTaskStatusWithTable (infos : gmap CaptureID model.TaskStatus)
  (tableID : TableID) : option (CaptureID * model.TaskStatus) :=
  List.find (fun kv : CaptureID * model.TaskStatus =>
               bool_decide (is_Some (model.Tables kv.2 !! tableID)))
            (map_to_list infos).

(** [for _, status := range c.taskStatus { if status.SomeOperationsUnapplied() ... }] *)
Definition someCaptureUnapplied (infos : gmap CaptureID model.TaskStatus) : bool :=
  existsb (fun kv : CaptureID * model.TaskStatus => model.SomeOperationsUnapplied kv.2)
          (map_to_list infos).

(** The update function passed to [AtomicPutTaskStatus]. *)
Definition putTablesAndOperation (status taskStatus : model.TaskStatus)
  : error + model.TaskStatus :=
  if model.SomeOperationsUnapplied taskStatus then inl ErrOperationUnapplied
  else inr {| model.Tables := model.Tables status;
              model.Operation := model.Operation status |}.

(** The body of [updateTaskStatus], over the pairs in the order the range
    loop visits them. *)
Fixpoint updateTaskStatusLoop (l : list (CaptureID * model.TaskStatus))
  (c : changeFeed) : changeFeed * outcome :=
  match l with
  | [] => (c, Nil)
  | (captureID, status) :: l' =>
      let '(cli, r) := AtomicPutTaskStatus (etcdCli c) captureID
                         (putTablesAndOperation status) in
      let c := logCall (CallAtomicPutTaskStatus captureID status) (set_etcdCli cli c) in
      match r with
      | inl err => (c, Failed err)
      | inr newStatus =>
          updateTaskStatusLoop l'
            (set_taskStatus (<[captureID := model.Clone newStatus]> (taskStatus c)) c)
      end
  end.

Definition updateTaskStatus (taskStatus : gmap CaptureID model.TaskStatus)
  (c : changeFeed) : changeFeed * outcome :=
  updateTaskStatusLoop (map_to_list taskStatus) c.

Definition setOperation (ops : gmap TableID model.TableOperation)
  (s : model.TaskStatus) : model.TaskStatus :=
  {| model.Tables := model.Tables s; model.Operation := ops |}.

Definition setTable (id : TableID) (ts : Ts) (s : model.TaskStatus) : model.TaskStatus :=
  {| model.Tables := <[id := ts]> (model.Tables s); model.Operation := model.Operation s |}.

(** [&model.TableOperation{Delete: d, BoundaryTs: ts}]: the remaining field
    has its zero value. *)
Definition mkOperation (d : bool) (ts : Ts) : model.TableOperation :=
  {| model.Delete := d; model.BoundaryTs := ts; model.applied := model.Pending |}.

(** One round of the loop over [c.toCleanTables]. *)
Definition cleanStep
  (acc : changeFeed * gmap CaptureID model.TaskStatus * gset TableID)
  (kv : TableID * Ts)
  : changeFeed * gmap CaptureID model.TaskStatus * gset TableID :=
  let '(c, newTaskStatus, cleanedTables) := acc in
  let '(id, targetTs) := kv in
  match findTaskStatusWithTable (taskStatus c) id with
  | None => (set_toCleanTables (delete id (toCleanTables c)) c, newTaskStatus, cleanedTables)
  | Some (captureID, taskStatus) =>
      let status := match newTaskStatus !! captureID with
                    | Some s => s
                    | None => model.Clone taskStatus
                    end in
      let status := model.RemoveTable id status in
      let status := setOperation
                      (appendTaskOperation (model.Operation status) id (mkOperation true targetTs))
                      status in
      (c, <[captureID := status]> newTaskStatus, cleanedTables ∪ {[id]})
  end.

(** One round of the loop over [c.orphanTables] when cyclic replication is
    enabled.  [None] is the [return nil] in the middle of the loop. *)
Definition cyclicStep (cyclic : CyclicPkg) (captures : gmap CaptureID CaptureInfo)
  (c : changeFeed)
  (acc : option (gmap CaptureID model.TaskStatus * gset TableID))
  (kv : TableID * Ts)
  : option (gmap CaptureID model.TaskStatus * gset TableID) :=
  match acc with
  | None => None
  | Some (newTaskStatus, addedTables) =>
      let '(tableID, startTs) := kv in
      match GetTableNameByID (schema c) tableID with
      | None => acc
      | Some tableName =>
          if IsMarkTable cyclic (entry.Schema tableName) (entry.Table tableName) then acc
          else
            let '(markSchema, markTable) :=
              MarkTableName cyclic (entry.Schema tableName) (entry.Table tableName) in
            match GetTableIDByName (schema c) markSchema markTable with
            | None => acc
            | Some orphanMarkTableID =>
                let captureID := selectCapture captures newTaskStatus c in
                if decide (String.length captureID = 0) then None
                else
                  let taskStatus := default model.newTaskStatus (taskStatus c !! captureID) in
                  let status := match newTaskStatus !! captureID with
                                | Some s => s
                                | None => model.Clone taskStatus
                                end in
                  let status := setTable tableID startTs status in
                  let status := setOperation
                                  (appendTaskOperation (model.Operation status) tableID
                                     (mkOperation false startTs)) status in
                  let status := setTable orphanMarkTableID startTs status in
                  let addedTables := addedTables ∪ {[orphanMarkTableID]} in
                  let status := setOperation
                                  (appendTaskOperation (model.Operation status) orphanMarkTableID
                                     (mkOperation false startTs)) status in
                  Some (<[captureID := status]> newTaskStatus, addedTables ∪ {[tableID]})
            end
      end
  end.

(** [newTaskStatus[captureID]], or a clone of [c.taskStatus[captureID]], or
    a fresh status. *)
Definition statusToUpdate (c : changeFeed)
  (newTaskStatus : gmap CaptureID model.TaskStatus) (captureID : CaptureID)
  : model.TaskStatus :=
  match newTaskStatus !! captureID with
  | Some s => s
  | None => match taskStatus c !! captureID with
            | None => model.newTaskStatus
            | Some taskStatus => model.Clone taskStatus
            end
  end.

(** One round of the loop over the scheduler's [operations]. *)
Definition distributeStep (c : changeFeed)
  (acc : gmap CaptureID model.TaskStatus * gset TableID)
  (kv : CaptureID * gmap TableID model.TableOperation)
  : gmap CaptureID model.TaskStatus * gset TableID :=
  let '(newTaskStatus, addedTables) := acc in
  let '(captureID, operation) := kv in
  let status := statusToUpdate c newTaskStatus captureID in
  let '(status, addedTables) :=
    foldl (fun (a : model.TaskStatus * gset TableID) (e : TableID * model.TableOperation) =>
             (setTable e.1 (model.BoundaryTs e.2) a.1, a.2 ∪ {[e.1]}))
          (status, addedTables) (map_to_list operation) in
  let status := setOperation (appendTaskOperations (model.Operation status) operation) status in
  (<[captureID := status]> newTaskStatus, addedTables).

Definition deleteAll (ids : gset TableID) (m : gmap TableID Ts) : gmap TableID Ts :=
  set_fold (fun id acc => delete id acc) m ids.

(** The end of [balanceOrphanTables]: write the new statuses and, when
    every write went through, forget the tables that were handled. *)
Definition commitBalance (newTaskStatus : gmap CaptureID model.TaskStatus)
  (cleanedTables addedTables : gset TableID) (c : changeFeed) : changeFeed * outcome :=
  let '(c, err) := updateTaskStatus newTaskStatus c in
  match err with
  | Nil =>
      (set_orphanTables (deleteAll addedTables (orphanTables c))
         (set_toCleanTables (deleteAll cleanedTables (toCleanTables c)) c), Nil)
  | _ => (c, err)
  end.

Definition balanceOrphanTables (cyclic : CyclicPkg)
  (captures : gmap CaptureID CaptureInfo) (c : changeFeed) : changeFeed * outcome :=
  if decide (size captures = 0) then (c, Nil)
  else if someCaptureUnapplied (taskStatus c) then (c, Nil)
  else
    let c := set_scheduler (AlignCapture (scheduler c) (dom captures)) c in
    let '(c, newTaskStatus, cleanedTables) :=
      foldl cleanStep (c, ∅, ∅) (map_to_list (toCleanTables c)) in
    let '(c, plan) :=
      if cyclicEnabled c then
        (c, foldl (cyclicStep cyclic captures c) (Some (newTaskStatus, ∅))
              (map_to_list (orphanTables c)))
      else
        let '(sched, operations) := DistributeTables (scheduler c) (orphanTables c) in
        let c := logCall (CallDistributeTables (orphanTables c)) (set_scheduler sched c) in
        (c, Some (foldl (distributeStep c) (newTaskStatus, ∅) (map_to_list operations))) in
    match plan with
    | None => (c, Nil)
    | Some (newTaskStatus, addedTables) =>
        commitBalance newTaskStatus cleanedTables addedTables c
    end.

(** The closure [applyOperation] of [rebanlanceTables]. *)
Definition applyOperation (c : changeFeed)
  (newTaskStatus : gmap CaptureID model.TaskStatus) (toApplyOperations : Operations)
  : gmap CaptureID model.TaskStatus :=
  foldl (fun (newTaskStatus : gmap CaptureID model.TaskStatus)
             (kv : CaptureID * gmap TableID model.TableOperation) =>
           let '(captureID, operation) := kv in
           let status := statusToUpdate c newTaskStatus captureID in
           let status :=
             foldl (fun (s : model.TaskStatus) (e : TableID * model.TableOperation) =>
                      if model.Delete e.2
                      then {| model.Tables := delete e.1 (model.Tables s);
                              model.Operation := model.Operation s |}
                      else setTable e.1 (model.BoundaryTs e.2) s)
                   status (map_to_list operation) in
           let status := setOperation
                           (appendTaskOperations (model.Operation status) operation) status in
           <[captureID := status]> newTaskStatus)
        newTaskStatus (map_to_list toApplyOperations).

(** The loop of [rebanlanceTables] that reads the workload of every
    capture; it returns from the function on the first read error. *)
Fixpoint resetWorkloadsLoop (l : list (CaptureID * CaptureInfo)) (c : changeFeed)
  : changeFeed * outcome :=
  match l with
  | [] => (c, Nil)
  | (cid, _) :: l' =>
      match GetTaskWorkload (etcdCli c) cid with
      | inl err => (c, Failed err)
      | inr workloads =>
          resetWorkloadsLoop l' (set_scheduler (ResetWorkloads (scheduler c) cid workloads) c)
      end
  end.

Definition tenMinutes : Z := (10 * 60 * 1000000000)%Z.

(** [now] is the reading of the clock ([time.Since], [time.Now]). *)
Definition rebanlanceTables (captures : gmap CaptureID CaptureInfo)
  (rebanlanceNow : bool) (now : Z) (c : changeFeed) : changeFeed * outcome :=
  if decide (size captures = 0) then (c, Nil)
  else if cyclicEnabled c then (c, Nil)
  else if someCaptureUnapplied (taskStatus c) then (c, Nil)
  else if negb (size (todoAddOperations c) =? 0) then
    let newTaskStatus := applyOperation c ∅ (todoAddOperations c) in
    let '(c, err) := updateTaskStatus newTaskStatus c in
    match err with
    | Nil => (set_todoAddOperations ∅ c, Nil)
    | _ => (c, err)
    end
  else if negb rebanlanceNow && (now - lastRebanlanceTime c <? tenMinutes)%Z then (c, Nil)
  else
    let c := set_lastRebanlanceTime now c in
    let '(c, err) := resetWorkloadsLoop (map_to_list captures) c in
    match err with
    | Nil =>
        let c := set_scheduler (AlignCapture (scheduler c) (dom captures)) c in
        let '(sched, (deleteOperations, addOperations)) :=
          CalRebalanceOperates (scheduler c) 0 (model.CheckpointTs (status c)) in
        let c := logCall (CallCalRebalanceOperates (model.CheckpointTs (status c)))
                   (set_scheduler sched c) in
        let c := set_todoAddOperations addOperations c in
        let newTaskStatus := applyOperation c ∅ deleteOperations in
        updateTaskStatus newTaskStatus c
    | _ => (c, err)
    end.

Definition tryBalance (cyclic : CyclicPkg) (captures : gmap CaptureID CaptureInfo)
  (rebanlanceNow : bool) (now : Z) (c : changeFeed) : changeFeed * outcome :=
  let '(c, err) := balanceOrphanTables cyclic captures c in
  match err with
  | Nil => rebanlanceTables captures rebanlanceNow now c
  | _ => (c, err)
  end.

(** *** DDL sequencing *)

(** Result of [applyJob]: [(skip, nil)], [(false, err)], or a panic on a
    nil [TableInfo]. *)
Inductive applyResult :=
| Applied (skip : bool)
| ApplyFailed (e : error)
| ApplyPanic.

Definition applyJob (job : timodel.Job) (c : changeFeed) : changeFeed * applyResult :=
  let schemaID := timodel.SchemaID job in
  let finishedTS := timodel.FinishedTS (timodel.BinlogInfo job) in
  let tableInfo := timodel.binlogTableInfo (timodel.BinlogInfo job) in
  let ineligible := match tableInfo with
                    | Some ti => IsIneligibleTableID (schema c) (timodel.tiID ti)
                    | None => false
                    end in
  match tableInfo, ineligible with
  | Some ti, true =>
      let tableID := timodel.tiID ti in
      (match tables c !! tableID with
       | Some _ => removeTable schemaID tableID finishedTS c
       | None => c
       end, Applied true)
  | _, _ =>
      match timodel.jobType job with
      | timodel.ActionCreateSchema => (addSchema schemaID c, Applied false)
      | timodel.ActionDropSchema => (dropSchema schemaID finishedTS c, Applied false)
      | timodel.ActionCreateTable | timodel.ActionRecoverTable =>
          match tableInfo with
          | None => (c, ApplyPanic)
          | Some ti =>
              let addID := timodel.tiID ti in
              match GetTableNameByID (schema c) addID with
              | None => (c, ApplyFailed (ErrNotFound addID))
              | Some tableName =>
                  (addTable schemaID addID finishedTS tableName ti c, Applied false)
              end
          end
      | timodel.ActionDropTable =>
          (removeTable schemaID (timodel.jobTableID job) finishedTS c, Applied false)
      | timodel.ActionRenameTable =>
          match GetTableNameByID (schema c) (timodel.jobTableID job) with
          | None => (c, ApplyFailed (ErrNotFound (timodel.jobTableID job)))
          | Some tableName =>
              (set_tables (<[timodel.jobTableID job := tableName]> (tables c)) c, Applied false)
          end
      | timodel.ActionTruncateTable =>
          let c := removeTable schemaID (timodel.jobTableID job) finishedTS c in
          match tableInfo with
          | None => (c, ApplyPanic)
          | Some ti =>
              match GetTableNameByID (schema c) (timodel.tiID ti) with
              | None => (c, ApplyFailed (ErrNotFound (timodel.tiID ti)))
              | Some tableName =>
                  (addTable schemaID (timodel.tiID ti) finishedTS tableName ti c, Applied false)
              end
          end
      | timodel.ActionOther _ => (c, Applied false)
      end
  end.

(** The tail of [handleDDL] shared by the skip path and the success path:
    pop the job, record its finishedTs, go back to SyncDML. *)
Definition finishJob (todoDDLJob : timodel.Job) (c : changeFeed) : changeFeed :=
  set_ddlState model.ChangeFeedSyncDML
    (set_ddlExecutedTs (timodel.FinishedTS (timodel.BinlogInfo todoDDLJob))
       (set_ddlJobHistory (tail (ddlJobHistory c)) c)).

Definition handleDDL (cyclic : CyclicPkg) (captures : gmap CaptureID CaptureInfo)
  (c : changeFeed) : changeFeed * outcome :=
  if negb (model.ddlState_eqb (ddlState c) model.ChangeFeedWaitToExecDDL) then (c, Nil)
  else
    match ddlJobHistory c with
    | [] => (c, Fatal)
    | todoDDLJob :: rest =>
        if size (taskPositions c) <? size (taskStatus c) then (c, Nil)
        else if negb (model.CheckpointTs (status c)
                        =? timodel.FinishedTS (timodel.BinlogInfo todoDDLJob))%N
        then (c, Nil)
        else
          let '(sch, err) := HandleDDL (schema c) todoDDLJob in
          let c := logCall (CallSchemaHandleDDL todoDDLJob) (set_schema sch c) in
          match err with
          | Some e => (c, Failed e)
          | None =>
              match FillSchemaName (schema c) todoDDLJob with
              | inl e => (c, Failed e)
              | inr name =>
                  (* the job is shared with the head of the history *)
                  let todoDDLJob := timodel.setSchemaName name todoDDLJob in
                  let c := set_ddlJobHistory (todoDDLJob :: rest) c in
                  let ddlEvent := FromJob todoDDLJob in
                  let c := set_ddlState model.ChangeFeedExecDDL c in
                  let '(c, applied) := applyJob todoDDLJob c in
                  match applied with
                  | ApplyPanic => (c, Fatal)
                  | ApplyFailed e => (c, Failed e)
                  | Applied true => (finishJob todoDDLJob c, Nil)
                  | Applied false =>
                      let '(c, err) := balanceOrphanTables cyclic captures c in
                      match err with
                      | Nil =>
                          let '(c, err) :=
                            if negb (cyclicEnabled c) || cyclicSyncDDL c then
                              let '(snk, err) := EmitDDLEvent (sink c) ddlEvent in
                              (logCall (CallSinkEmitDDLEvent ddlEvent) (set_sink snk c), err)
                            else (c, None) in
                          match err with
                          | Some _ =>
                              (set_ddlState model.ChangeFeedDDLExecuteFailed c,
                               Failed ErrExecDDLFailed)
                          | None =>
                              if negb (model.ddlState_eqb (ddlState c) model.ChangeFeedExecDDL)
                              then (c, Fatal)
                              else (finishJob todoDDLJob c, Nil)
                          end
                      | _ => (c, err)
                      end
                  end
              end
          end
    end.

(** *** Timestamp computation *)

Definition pullDDLJob (c : changeFeed) : changeFeed * outcome :=
  let '(h, r) := PullDDL (ddlHandler c) in
  let c := logCall CallPullDDL (set_ddlHandler h c) in
  match r with
  | inl err => (c, Failed err)
  | inr (ddlResolvedTs, ddlJobs) =>
      let c := set_ddlResolvedTs ddlResolvedTs c in
      (set_ddlJobHistory
         (ddlJobHistory c ++
            List.filter (fun ddl => negb (ShouldDiscardDDL (cfFilter c) (timodel.jobType ddl)))
                        ddlJobs) c, Nil)
  end.

(** [if m > x { m = x }] *)
Definition clamp (m x : Ts) : Ts := if (x <? m)%N then x else m.

(** The loop over [c.taskPositions]. *)
Definition clampPositions (l : list (CaptureID * model.TaskPosition)) (acc : Ts * Ts)
  : Ts * Ts :=
  foldl (fun (acc : Ts * Ts) (kv : CaptureID * model.TaskPosition) =>
           (clamp acc.1 (model.ResolvedTs kv.2), clamp acc.2 (model.CheckPointTs kv.2)))
        acc l.

(** The loop over [c.taskStatus]: the checkpoint minimum is clamped first. *)
Definition clampApplied (l : list (CaptureID * model.TaskStatus)) (acc : Ts * Ts)
  : Ts * Ts :=
  foldl (fun (acc : Ts * Ts) (kv : CaptureID * model.TaskStatus) =>
           let appliedTs := model.AppliedTs kv.2 in
           (clamp acc.1 appliedTs, clamp acc.2 appliedTs))
        acc l.

(** The loops over [c.orphanTables] and [c.toCleanTables]. *)
Definition clampTables (l : list (TableID * Ts)) (acc : Ts * Ts) : Ts * Ts :=
  foldl (fun (acc : Ts * Ts) (kv : TableID * Ts) => (clamp acc.1 kv.2, clamp acc.2 kv.2))
        acc l.

(** [(minResolvedTs, minCheckpointTs)] after the four loops of
    [calcResolvedTs]. *)
Definition scanMinima (c : changeFeed) : Ts * Ts :=
  let minResolvedTs := targetTs c in
  let minCheckpointTs := targetTs c in
  let acc :=
    if size (taskPositions c) =? 0
    then (minResolvedTs, model.cfResolvedTs (status c))
    else clampPositions (map_to_list (taskPositions c)) (minResolvedTs, minCheckpointTs) in
  let acc := clampApplied (map_to_list (taskStatus c)) acc in
  let acc := clampTables (map_to_list (orphanTables c)) acc in
  clampTables (map_to_list (toCleanTables c)) acc.

(** [for len(h) > 0 && h[0].BinlogInfo.FinishedTS <= c.ddlExecutedTs { h = h[1:] }] *)
Fixpoint dropExecuted (ddlExecutedTs : Ts) (h : list timodel.Job) : list timodel.Job :=
  match h with
  | [] => []
  | job :: h' =>
      if (timodel.FinishedTS (timodel.BinlogInfo job) <=? ddlExecutedTs)%N
      then dropExecuted ddlExecutedTs h'
      else h
  end.

Definition set_ResolvedTs (v : Ts) (s : model.ChangeFeedStatus) : model.ChangeFeedStatus :=
  {| model.cfResolvedTs := v; model.CheckpointTs := model.CheckpointTs s |}.

Definition set_CheckpointTs (v : Ts) (s : model.ChangeFeedStatus) : model.ChangeFeedStatus :=
  {| model.cfResolvedTs := model.cfResolvedTs s; model.CheckpointTs := v |}.

Definition calcResolvedTs (c : changeFeed) : changeFeed * outcome :=
  if negb (model.ddlState_eqb (ddlState c) model.ChangeFeedSyncDML)
     && negb (model.ddlState_eqb (ddlState c) model.ChangeFeedWaitToExecDDL)
  then (c, Nil)
  else if size (taskPositions c) <? size (taskStatus c) then (c, Nil)
  else
    let '(minResolvedTs, minCheckpointTs) := scanMinima c in
    let '(c, err) :=
      if (ddlResolvedTs c <? minResolvedTs)%N then pullDDLJob c else (c, Nil) in
    match err with
    | Nil =>
        let minResolvedTs := clamp minResolvedTs (ddlResolvedTs c) in
        let c := set_ddlJobHistory (dropExecuted (ddlExecutedTs c) (ddlJobHistory c)) c in
        let '(c, minResolvedTs) :=
          match ddlJobHistory c with
          | job :: _ =>
              if (timodel.FinishedTS (timodel.BinlogInfo job) <? minResolvedTs)%N
              then (set_ddlState model.ChangeFeedWaitToExecDDL c,
                    timodel.FinishedTS (timodel.BinlogInfo job))
              else (c, minResolvedTs)
          | [] => (c, minResolvedTs)
          end in
        let minCheckpointTs := clamp minCheckpointTs minResolvedTs in
        let c := if (model.cfResolvedTs (status c) <? minResolvedTs)%N
                 then set_status (set_ResolvedTs minResolvedTs (status c)) c
                 else c in
        if (model.CheckpointTs (status c) <? minCheckpointTs)%N then
          let c := set_status (set_CheckpointTs minCheckpointTs (status c)) c in
          if negb (model.ddlState_eqb (ddlState c) model.ChangeFeedWaitToExecDDL) then
            let '(snk, err) := EmitCheckpointTs (sink c) minCheckpointTs in
            let c := logCall (CallSinkEmitCheckpointTs minCheckpointTs) (set_sink snk c) in
            match err with
            | Some e => (c, Failed e)
            | None => (c, Nil)
            end
          else (c, Nil)
        else (c, Nil)
    | _ => (c, err)
    end.

End Owner.

(** ** The owner's DDL handler (owner_operator.go) *)

Inductive OpType := OpTypeUnknow | OpTypePut | OpTypeDelete | OpTypeResolved.

Record RawKVEntry := {
  rawOpType : OpType;
  rawKey : string;
  rawValue : string;
  rawTs : Ts;
}.

Module ddl.
Section DDLHandler.

(** [entry.UnmarshalDDL] (which may yield a nil job) and [entry.SkipJob]. *)
Variable UnmarshalDDL : RawKVEntry → error + option timodel.Job.
Variable SkipJob : timodel.Job → bool.

(** The fields of [ddlHandler] guarded by [mu].  Every method body below
    runs with the mutex held, so it is one atomic step. *)
Record ddlHandler := {
  resolvedTS : Ts;
  ddlJobs : list timodel.Job;
}.

Definition receiveDDL (rawDDL : RawKVEntry) (h : ddlHandler) : ddlHandler * option error :=
  match rawOpType rawDDL with
  | OpTypeResolved => ({| resolvedTS := rawTs rawDDL; ddlJobs := ddlJobs h |}, None)
  | _ =>
      match UnmarshalDDL rawDDL with
      | inl err => (h, Some err)
      | inr None => (h, None)
      | inr (Some job) =>
          if SkipJob job then (h, None)
          else ({| resolvedTS := resolvedTS h; ddlJobs := ddlJobs h ++ [job] |}, None)
      end
  end.

(** The receiving goroutine of [newDDLHandler]: it hands every event of
    the sorted output to [receiveDDL] and ends on the first error. *)
Fixpoint receiveLoop (events : list RawKVEntry) (h : ddlHandler) : ddlHandler * option error :=
  match events with
  | [] => (h, None)
  | e :: events' =>
      match receiveDDL e h with
      | (h', None) => receiveLoop events' h'
      | (h', Some err) => (h', Some err)
      end
  end.

Definition ddlHandler_PullDDL (h : ddlHandler) : ddlHandler * (Ts * list timodel.Job) :=
  let result := ddlJobs h in
  ({| resolvedTS := resolvedTS h; ddlJobs := [] |}, (resolvedTS h, result)).

(** [var _ OwnerDDLHandler = &ddlHandler{}] *)
#[global] Instance ddlHandler_OwnerDDLHandler : OwnerDDLHandler ddlHandler := {
  PullDDL h := let '(h', r) := ddlHandler_PullDDL h in (h', inr r);
}.

End DDLHandler.
End ddl.

(** ** The processor's global-resolved worker (owner_operator.go) *)

Record RawTxn := {
  TS : Ts;
  Entries : list RawKVEntry;
}.

Inductive ProcessorEntryType :=
| ProcessorEntryUnknown
| ProcessorEntryDMLS
| ProcessorEntryResolved.

Record ProcessorEntry := {
  peEntries : list RawKVEntry;
  peTS : Ts;
  Typ : ProcessorEntryType;
}.

Definition NewProcessorDMLsEntry (entries : list RawKVEntry) (ts : Ts) : ProcessorEntry :=
  {| peEntries := entries; peTS := ts; Typ := ProcessorEntryDMLS |}.

Definition NewProcessorResolvedEntry (ts : Ts) : ProcessorEntry :=
  {| peEntries := []; peTS := ts; Typ := ProcessorEntryResolved |}.

(** [txnChannel].  [outputTxn] lists the transactions the channel delivers,
    oldest first; [outputClosed] tells whether the channel is closed behind
    them.  Receiving from an empty channel that is not closed blocks. *)
Record txnChannel := {
  outputTxn : list RawTxn;
  outputClosed : bool;
  putBackTxn : option RawTxn;
}.

(** [None] is the [log.Fatal] of a second put-back. *)
Definition PutBack (t : RawTxn) (p : txnChannel) : option txnChannel :=
  match putBackTxn p with
  | Some _ => None
  | None => Some {| outputTxn := outputTxn p; outputClosed := outputClosed p;
                    putBackTxn := Some t |}
  end.

Inductive forwardStatus :=
| Returned       (* Forward returned *)
| Blocked        (* Forward waits for the channel to deliver or be closed *)
| ForwardFatal.  (* log.Fatal in PutBack *)

(** [for t := range p.outputTxn { ... }] *)
Fixpoint forwardLoop (ts : Ts) (closed : bool) (putBack : option RawTxn)
  (q : list RawTxn) : list ProcessorEntry * txnChannel * forwardStatus :=
  match q with
  | [] => ([], {| outputTxn := []; outputClosed := closed; putBackTxn := putBack |},
           if closed then Returned else Blocked)
  | t :: q' =>
      let p := {| outputTxn := q'; outputClosed := closed; putBackTxn := putBack |} in
      if (ts <? TS t)%N then
        match PutBack t p with
        | Some p' => ([], p', Returned)
        | None => ([], p, ForwardFatal)
        end
      else
        let '(out, p', st) := forwardLoop ts closed putBack q' in
        (NewProcessorDMLsEntry (Entries t) (TS t) :: out, p', st)
  end.

(** [Forward]; the first component lists what it sends on [entryC]. *)
Definition Forward (tableID : N) (ts : Ts) (p : txnChannel)
  : list ProcessorEntry * txnChannel * forwardStatus :=
  match putBackTxn p with
  | Some t =>
      if (ts <? TS t)%N then ([], p, Returned)
      else
        let '(out, p', st) := forwardLoop ts (outputClosed p) None (outputTxn p) in
        (NewProcessorDMLsEntry (Entries t) (TS t) :: out, p', st)
  | None => forwardLoop ts (outputClosed p) None (outputTxn p)
  end.

(** The transactions a channel still holds, oldest first. *)
Definition pendingTxns (p : txnChannel) : list RawTxn :=
  match putBackTxn p with
  | Some t => t :: outputTxn p
  | None => outputTxn p
  end.

(** The state of [processorImpl] the global-resolved worker works on.
    [resolvedEntries] lists what has been sent on the channel of that name;
    [lastGlobalResolvedTS] is the local variable of the worker loop. *)
Record processorImpl := {
  tableInputChans : gmap N txnChannel;
  resolvedEntries : list ProcessorEntry;
  lastGlobalResolvedTS : Ts;
}.

(** The ways the sends of several goroutines can interleave on one
    channel: each output keeps its own order. *)
Inductive interleave {A : Type} : list (list A) → list A → Prop :=
| interleave_done ls : Forall (fun l => l = []) ls → interleave ls []
| interleave_send ls1 x l ls2 out :
    interleave (ls1 ++ l :: ls2) out →
    interleave (ls1 ++ (x :: l) :: ls2) (x :: out).

(** One round of the loop in [globalResolvedWorker] for a global resolved
    ts that differs from the last one handled, when every [Forward]
    goroutine returns (so that [wg.Wait] does). *)
Inductive workerRound (globalResolvedTS : Ts) (w : processorImpl) : processorImpl → Prop :=
| workerRound_intro merged :
    lastGlobalResolvedTS w ≠ globalResolvedTS →
    (∀ table input, tableInputChans w !! table = Some input →
                    (Forward table globalResolvedTS input).2 = Returned) →
    interleave (map (fun kv : N * txnChannel => (Forward kv.1 globalResolvedTS kv.2).1.1)
                    (map_to_list (tableInputChans w)))
               merged →
    workerRound globalResolvedTS w
      {| tableInputChans :=
           map_imap (fun table input => Some (Forward table globalResolvedTS input).1.2)
                    (tableInputChans w);
         resolvedEntries :=
           resolvedEntries w ++ merged ++ [NewProcessorResolvedEntry globalResolvedTS];
         lastGlobalResolvedTS := globalResolvedTS |}.

(** What [ReadGlobalResolvedTS] yields after the retries. *)
Inductive readResult := ReadOk (globalResolvedTS : Ts) | ReadFailed.

Inductive workerStatus :=
| WorkerRunning   (* next iteration *)
| WorkerExited    (* the worker returned *)
| WorkerBlocked   (* wg.Wait does not return: some Forward is blocked *)
| WorkerFatal.

Definition forwardStatus_eqb (a b : forwardStatus) : bool :=
  match a, b with
  | Returned, Returned | Blocked, Blocked | ForwardFatal, ForwardFatal => true
  | _, _ => false
  end.

(** One iteration of the loop in [globalResolvedWorker], with the
    goroutines scheduled one after the other in the order of the map. *)
Definition globalResolvedWorkerStep (closed : bool) (read : readResult)
  (w : processorImpl) : processorImpl * workerStatus :=
  if closed then (w, WorkerExited)
  else match read with
  | ReadFailed => (w, WorkerExited)
  | ReadOk globalResolvedTS =>
      if (lastGlobalResolvedTS w =? globalResolvedTS)%N then (w, WorkerRunning)
      else
        let results := map (fun kv : N * txnChannel => Forward kv.1 globalResolvedTS kv.2)
                           (map_to_list (tableInputChans w)) in
        let sent := concat (map (fun r : list ProcessorEntry * txnChannel * forwardStatus =>
                                   r.1.1) results) in
        let chans := map_imap (fun table input =>
                                 Some (Forward table globalResolvedTS input).1.2)
                              (tableInputChans w) in
        let w' := {| tableInputChans := chans;
                     resolvedEntries := resolvedEntries w ++ sent;
                     lastGlobalResolvedTS := globalResolvedTS |} in
        if existsb (fun r : list ProcessorEntry * txnChannel * forwardStatus =>
                      forwardStatus_eqb r.2 ForwardFatal) results
        then (w', WorkerFatal)
        else if existsb (fun r : list ProcessorEntry * txnChannel * forwardStatus =>
                           forwardStatus_eqb r.2 Blocked) results
        then (w', WorkerBlocked)
        else ({| tableInputChans := chans;
                 resolvedEntries :=
                   resolvedEntries w ++ sent ++ [NewProcessorResolvedEntry globalResolvedTS];
                 lastGlobalResolvedTS := globalResolvedTS |}, WorkerRunning)
  end.

(** What [wg.Wait] makes of the goroutines: it returns when every
    [Forward] has returned, and waits while one of them does. *)
Definition waitGroup (results : list (list ProcessorEntry * txnChannel * forwardStatus))
  : workerStatus :=
  if existsb (fun r : list ProcessorEntry * txnChannel * forwardStatus =>
                forwardStatus_eqb r.2 ForwardFatal) results
  then WorkerFatal
  else if existsb (fun r : list ProcessorEntry * txnChannel * forwardStatus =>
                     forwardStatus_eqb r.2 Blocked) results
  then WorkerBlocked
  else WorkerRunning.

(** One pass through the body of the loop in [globalResolvedWorker] for a
    global resolved ts that differs from the last one handled, whatever
    the [Forward] goroutines do.  Their sends interleave on
    [resolvedEntries]; the Resolved entry is sent after [wg.Wait], so only
    when every goroutine has returned; while one of them waits for its
    channel, so does the worker, with what has been sent so far. *)
Inductive workerPass (globalResolvedTS : Ts) (w : processorImpl)
  : processorImpl → workerStatus → Prop :=
| workerPass_intro merged :
    lastGlobalResolvedTS w ≠ globalResolvedTS →
    interleave (map (fun kv : N * txnChannel => (Forward kv.1 globalResolvedTS kv.2).1.1)
                    (map_to_list (tableInputChans w)))
               merged →
    let waited := waitGroup (map (fun kv : N * txnChannel => Forward kv.1 globalResolvedTS kv.2)
                                 (map_to_list (tableInputChans w))) in
    workerPass globalResolvedTS w
      {| tableInputChans :=
           map_imap (fun table input => Some (Forward table globalResolvedTS input).1.2)
                    (tableInputChans w);
         resolvedEntries :=
           resolvedEntries w ++ merged
             ++ match waited with
                | WorkerRunning => [NewProcessorResolvedEntry globalResolvedTS]
                | _ => []
                end;
         lastGlobalResolvedTS := globalResolvedTS |}
      waited.

(** ** The message envelope: writer and reader (second part of changefeed.go) *)

(** Modelled from the spec: package [cdc/sink/encoding] ([Encbuf],
    [Decbuf]) is not in the sources at hand.  Section 4.5: integers are
    big-endian and a [varstr] is [uvarint length || bytes].  A decoding
    buffer keeps the first error and from then on yields zero values. *)
Module encoding.

(** [byte(n)]: the low eight bits. *)
Definition byteOfN (n : N) : byte := default x00 (Byte.of_N (n mod 256)).

(** Modelled from the spec: "integers big-endian"; [k] bytes, most
    significant first. *)
Fixpoint be (k : nat) (v : N) : list byte :=
  match k with
  | O => []
  | S k' => byteOfN (v / 256 ^ N.of_nat k') :: be k' v
  end.

(** Modelled from the spec: the big-endian value of a byte sequence. *)
Definition fromBE (bs : list byte) : N :=
  foldl (fun acc b => (acc * 256 + Byte.to_N b)%N) 0%N bs.

(** [binary.PutUvarint]; ten bytes hold any uint64. *)
Fixpoint putUvarint (fuel : nat) (x : N) : list byte :=
  match fuel with
  | O => [byteOfN x]
  | S fuel' =>
      if (x <? 128)%N then [byteOfN x]
      else byteOfN (x mod 128 + 128) :: putUvarint fuel' (x / 128)
  end.

(** [binary.Uvarint]: the value and the number of bytes read ([None] when
    the bytes run out or the value overflows 64 bits). *)
Fixpoint uvarint (i : nat) (x s : N) (buf : list byte) : option (N * nat) :=
  match buf with
  | [] => None
  | b :: buf' =>
      if (i =? 10)%nat then None
      else if (Byte.to_N b <? 128)%N then
        if (i =? 9)%nat && (1 <? Byte.to_N b)%N then None
        else Some (N.lor x (N.shiftl (Byte.to_N b) s), S i)
      else uvarint (S i) (N.lor x (N.shiftl (N.land (Byte.to_N b) 127) s)) (s + 7) buf'
  end.

Abbreviation Encbuf := (list byte).

(** Modelled from the spec: the [Put...] methods of [Encbuf] append to the
    buffer. *)
Definition PutByte (c : byte) (e : Encbuf) : Encbuf := e ++ [c].

(** Modelled from the spec: a uint32, big-endian. *)
Definition PutBE32 (x : N) (e : Encbuf) : Encbuf := e ++ be 4 (x mod 2 ^ 32).

(** Modelled from the spec: a uint64, big-endian. *)
Definition PutBE64 (x : N) (e : Encbuf) : Encbuf := e ++ be 8 (x mod 2 ^ 64).

(** Modelled from the spec: [PutBE32(uint32(x))] for a signed [x]. *)
Definition PutBE32int (x : Z) (e : Encbuf) : Encbuf := PutBE32 (Z.to_N (x mod 2 ^ 32)) e.

(** Modelled from the spec: [PutBE64(uint64(x))] for a signed [x]. *)
Definition PutBE64int64 (x : Z) (e : Encbuf) : Encbuf := PutBE64 (Z.to_N (x mod 2 ^ 64)) e.

(** Modelled from the spec: a [varstr], [uvarint length || bytes]. *)
Definition PutUvarintStr (s : string) (e : Encbuf) : Encbuf :=
  let bs := list_byte_of_string s in
  e ++ putUvarint 9 (N.of_nat (length bs)) ++ bs.

(** CRC-32C (Castagnoli), reflected polynomial 0x82F63B78, as
    [crc32.New(crc32.MakeTable(crc32.Castagnoli))] computes it. *)
Definition crcBit (crc : N) : N :=
  if N.testbit crc 0 then N.lxor (N.shiftr crc 1) 2197175160 else N.shiftr crc 1.

Definition crcByte (crc : N) (b : byte) : N :=
  Nat.iter 8 crcBit (N.lxor crc (Byte.to_N b)).

Definition crc32c (bs : list byte) : N :=
  N.lxor (foldl crcByte 4294967295%N bs) 4294967295.

(** Modelled from the spec: [PutHash] appends the checksum of the buffer
    so far ("body, crc32c(body):uint32"). *)
Definition PutHash (e : Encbuf) : Encbuf := e ++ be 4 (crc32c e).

(** Modelled from the spec: [Decbuf], the bytes left and the first error. *)
Record Decbuf := {
  B : list byte;
  E : option error;
}.

(** Reads thread the buffer. *)
Definition Dec (A : Type) : Type := Decbuf → A * Decbuf.

#[global] Instance Dec_ret : MRet Dec := fun A a d => (a, d).
#[global] Instance Dec_bind : MBind Dec :=
  fun A B f m d => let '(a, d') := m d in f a d'.

(** Modelled from the spec: a read of [k] bytes; after an error, or with
    fewer than [k] bytes left, the result is zero and the error is kept. *)
Definition readFixed (k : nat) : Dec N := fun d =>
  match E d with
  | Some _ => (0%N, d)
  | None =>
      if (length (B d) <? k)%nat then (0%N, {| B := B d; E := Some ErrInvalidSize |})
      else (fromBE (take k (B d)), {| B := drop k (B d); E := None |})
  end.

Definition Byte : Dec N := readFixed 1.
Definition Be32 : Dec N := readFixed 4.
Definition Be64 : Dec N := readFixed 8.

(** Modelled from the spec: [int(d.Be32())]. *)
Definition Be32int : Dec Z := x ← Be32; mret (Z.of_N x).

(** Modelled from the spec: [int64(d.Be64())], two's complement. *)
Definition Be64int64 : Dec Z :=
  x ← Be64; mret (if (x <? 2 ^ 63)%N then Z.of_N x else (Z.of_N x - 2 ^ 64)%Z).

(** Modelled from the spec: the uvarint at the head of the buffer. *)
Definition Uvarint64 : Dec N := fun d =>
  match E d with
  | Some _ => (0%N, d)
  | None =>
      match uvarint 0 0 0 (B d) with
      | None => (0%N, {| B := B d; E := Some ErrInvalidSize |})
      | Some (x, n) => (x, {| B := drop n (B d); E := None |})
      end
  end.

(** Modelled from the spec: a [varstr]; when the length exceeds what is
    left, the empty string and an error. *)
Definition UvarintStr : Dec string := fun d =>
  let '(l, d) := Uvarint64 d in
  match E d with
  | Some _ => (EmptyString, d)
  | None =>
      if (N.of_nat (length (B d)) <? l)%N
      then (EmptyString, {| B := B d; E := Some ErrInvalidSize |})
      else (string_of_list_byte (take (N.to_nat l) (B d)),
            {| B := drop (N.to_nat l) (B d); E := None |})
  end.

End encoding.

Module mq.
Import encoding.

(** [MagicIndex], [Version]. *)
Definition MagicIndex : N := 3131758336%N.   (* 0xBAAAD700 *)
Definition Version : byte := x01.

(** [_ = iota; DmlOp TxnOp = 1 + iota; DdlOp]: the constants are 2 and 3. *)
Definition DmlOp : N := 2%N.
Definition DdlOp : N := 3%N.

Inductive SchemaState :=
| StateNone | StateDeleteOnly | StateWriteOnly | StateWriteReorganization
| StateDeleteReorganization | StatePublic.

(** The parts of [timodel.ColumnInfo] and [timodel.TableInfo] the writer
    reads. *)
Record ColumnInfo := {
  colName : string;
  colState : SchemaState;
  colGenerated : bool;   (* IsGenerated() *)
}.

Record TableInfo := { Columns : list ColumnInfo }.

(** [TableInfoGetter]. *)
Record TableInfoGetter := {
  GetTableIDByName : string → string → option Z;
  TableByID : Z → option TableInfo;
}.

Definition writableColumns (table : TableInfo) : list ColumnInfo :=
  List.filter (fun col => match colState col with
                          | StatePublic => negb (colGenerated col)
                          | _ => false
                          end)
              (Columns table).

Definition FormColumnKey (database table : string) : string :=
  (database ++ "-" ++ table)%string.

Section Codec.

(** [types.Datum] and the results of [encoding/json] on the three kinds of
    value the envelope carries as JSON text. *)
Context {Datum : Type}.
Variable marshalJob : timodel.Job → error + string.
Variable unmarshalJob : string → error + timodel.Job.
Variable marshalDatum : Datum → error + string.
Variable unmarshalDatum : string → error + Datum.
Variable marshalColumn : ColumnInfo → error + string.
Variable unmarshalColumn : string → error + ColumnInfo.

(** The message kinds; their declaration is not in the sources at hand. *)
Variable ResolveTsType TxnType : byte.

Record DML := {
  Database : string;
  Table : string;
  Tp : Z;
  Values : gmap string Datum;
}.

Record DDL := {
  ddlDatabase : string;
  ddlTable : string;
  Job : timodel.Job;
}.

Record Txn := {
  txnTs : Ts;
  DMLs : list DML;
  txnDDL : option DDL;   (* IsDDL() is [DDL != nil] *)
}.

(** [Message], with the fields the reader fills. *)
Record Message := {
  CdcID : string;
  MsgType : byte;
  ResloveTs : Z;
  msgTxn : option Txn;
  msgColumns : gmap string (list ColumnInfo);
}.

(** [writer]: [write] appends to [content]. *)
Definition writeMeta (version msgType : byte) (cdcId : string) (content : list byte)
  : list byte :=
  let buf1 := PutUvarintStr cdcId (PutByte msgType (PutByte version (PutBE32 MagicIndex []))) in
  content ++ buf1.

Definition resolveTsWriter_Write (cdcId : string) (ts : Z) : error + list byte :=
  let content := writeMeta Version ResolveTsType cdcId [] in
  let buf1 := PutBE64int64 ts [] in
  inr (content ++ buf1).

(** The loop over [dml.Values] of [writeDML]. *)
Fixpoint writeValues (l : list (string * Datum)) (buf2 : Encbuf) : error + Encbuf :=
  match l with
  | [] => inr buf2
  | (key, value) :: l' =>
      let buf2 := PutUvarintStr key buf2 in
      match marshalDatum value with
      | inl err => inl err
      | inr v => writeValues l' (PutUvarintStr v buf2)
      end
  end.

Fixpoint writeColumns (l : list ColumnInfo) (buf2 : Encbuf) : error + Encbuf :=
  match l with
  | [] => inr buf2
  | c :: l' =>
      match marshalColumn c with
      | inl err => inl err
      | inr cbytes => writeColumns l' (PutUvarintStr cbytes buf2)
      end
  end.

Fixpoint writeDMLs (infoGetter : TableInfoGetter) (dmls : list DML) (buf2 : Encbuf)
  : error + Encbuf :=
  match dmls with
  | [] => inr buf2
  | dml :: dmls' =>
      let buf2 := PutUvarintStr (Database dml) buf2 in
      let buf2 := PutUvarintStr (Table dml) buf2 in
      let buf2 := PutBE32int (Tp dml) buf2 in
      let buf2 := PutBE32int (Z.of_nat (size (Values dml))) buf2 in
      match writeValues (map_to_list (Values dml)) buf2 with
      | inl err => inl err
      | inr buf2 =>
          match GetTableIDByName infoGetter (Database dml) (Table dml) with
          | None => inl ErrGetTableID
          | Some tblID =>
              match TableByID infoGetter tblID with
              | None => inl ErrGetTableByID
              | Some tableInfo =>
                  let columns := writableColumns tableInfo in
                  let buf2 := PutBE32int (Z.of_nat (length columns)) buf2 in
                  match writeColumns columns buf2 with
                  | inl err => inl err
                  | inr buf2 => writeDMLs infoGetter dmls' buf2
                  end
              end
          end
      end
  end.

(** [writeDML], given [content] and [buf1] as [Write] leaves them. *)
Definition writeDML (infoGetter : TableInfoGetter) (dmls : list DML)
  (content buf1 : list byte) : error + list byte :=
  let buf1 := PutByte (byteOfN DmlOp) buf1 in
  let buf1 := PutBE32int (Z.of_nat (length dmls)) buf1 in
  match writeDMLs infoGetter dmls [] with
  | inl err => inl err
  | inr buf2 =>
      let buf1 := PutBE32int (Z.of_nat (length buf2)) buf1 in
      let buf2 := PutHash buf2 in
      inr (content ++ buf1 ++ buf2)
  end.

Definition txnWriter_Write (cdcId : string) (txn : Txn) (infoGetter : TableInfoGetter)
  : error + list byte :=
  let content := writeMeta Version TxnType cdcId [] in
  let buf1 := PutBE64 (txnTs txn) [] in
  match txnDDL txn with
  | Some ddl =>
      let buf1 := PutByte (byteOfN DdlOp) buf1 in
      let buf2 := PutUvarintStr (ddlTable ddl) (PutUvarintStr (ddlDatabase ddl) []) in
      match marshalJob (Job ddl) with
      | inl err => inl err
      | inr job =>
          let buf2 := PutUvarintStr job buf2 in
          let buf1 := PutBE32int (Z.of_nat (length buf2)) buf1 in
          let buf2 := PutHash buf2 in
          inr (content ++ buf1 ++ buf2)
      end
  | None => writeDML infoGetter (DMLs txn) content buf1
  end.

(** *** reader *)

Definition decodeResloveTsMsg : Dec Message :=
  cdcID ← UvarintStr;
  ts ← Be64int64;
  mret {| CdcID := cdcID; MsgType := ResolveTsType; ResloveTs := ts;
          msgTxn := None; msgColumns := ∅ |}.

Definition decodeDDL (ts : Ts) : Dec (error + Txn) :=
  (* TOOD check checksum *)
  _ ← Be32int;
  database ← UvarintStr;
  table ← UvarintStr;
  job ← UvarintStr;
  mret (match unmarshalJob job with
        | inl err => inl err
        | inr j => inr {| txnTs := ts; DMLs := [];
                          txnDDL := Some {| ddlDatabase := database; ddlTable := table;
                                            Job := j |} |}
        end).

Fixpoint decodeValuesLoop (n : nat) (m : gmap string Datum)
  : Dec (error + gmap string Datum) :=
  match n with
  | O => mret (inr m)
  | S n' =>
      key ← UvarintStr;
      v ← UvarintStr;
      match unmarshalDatum v with
      | inl err => mret (inl err)
      | inr td => decodeValuesLoop n' (<[key := td]> m)
      end
  end.

Definition decodeDMLValues : Dec (error + gmap string Datum) :=
  valueLen ← Be32int;
  decodeValuesLoop (Z.to_nat valueLen) ∅.

Fixpoint decodeColumnsLoop (n : nat) (columns : list ColumnInfo)
  : Dec (error + list ColumnInfo) :=
  match n with
  | O => mret (inr columns)
  | S n' =>
      s ← UvarintStr;
      match unmarshalColumn s with
      | inl err => mret (inl err)
      | inr col => decodeColumnsLoop n' (columns ++ [col])
      end
  end.

Fixpoint decodeDMLLoop (n : nat) (dmls : list DML)
  (columnsMap : gmap string (list ColumnInfo))
  : Dec (error + (list DML * gmap string (list ColumnInfo))) :=
  match n with
  | O => mret (inr (dmls, columnsMap))
  | S n' =>
      database ← UvarintStr;
      table ← UvarintStr;
      tp ← Be32int;
      values ← decodeDMLValues;
      match values with
      | inl err => mret (inl err)
      | inr values =>
          let dml := {| Database := database; Table := table; Tp := tp; Values := values |} in
          columnsLen ← Be32int;
          columns ← decodeColumnsLoop (Z.to_nat columnsLen) [];
          match columns with
          | inl err => mret (inl err)
          | inr columns =>
              decodeDMLLoop n' (dmls ++ [dml])
                (<[FormColumnKey database table := columns]> columnsMap)
          end
      end
  end.

Definition decodeDML (ts : Ts) : Dec (error + (Txn * gmap string (list ColumnInfo))) :=
  dmlLen ← Be32int;
  (* TOOD check checksum *)
  _ ← Be32int;
  r ← decodeDMLLoop (Z.to_nat dmlLen) [] ∅;
  mret (match r with
        | inl err => inl err
        | inr (dmls, columnsMap) =>
            inr ({| txnTs := ts; DMLs := dmls; txnDDL := None |}, columnsMap)
        end).

Definition decodeTxnMsg : Dec (error + Message) :=
  cdcID ← UvarintStr;
  ts ← Be64;
  op ← Byte;
  if (op =? DmlOp)%N then
    r ← decodeDML ts;
    mret (match r with
          | inl err => inl err
          | inr (txn, col) =>
              inr {| CdcID := cdcID; MsgType := TxnType; ResloveTs := 0;
                     msgTxn := Some txn; msgColumns := col |}
          end)
  else if (op =? DdlOp)%N then
    r ← decodeDDL ts;
    mret (match r with
          | inl err => inl err
          | inr txn =>
              inr {| CdcID := cdcID; MsgType := TxnType; ResloveTs := 0;
                     msgTxn := Some txn; msgColumns := ∅ |}
          end)
  else mret (inl ErrUnsupportedTxnOp).

(** [reader.Decode] on [r.data]. *)
Definition Decode (data : list byte) : error + Message :=
  fst ((magic ← Be32;
        if negb (magic =? MagicIndex)%N then mret (inl ErrInvalidMessage)
        else
          _ ← Byte;
          t ← Byte;
          if (t =? Byte.to_N ResolveTsType)%N then m ← decodeResloveTsMsg; mret (inr m)
          else if (t =? Byte.to_N TxnType)%N then decodeTxnMsg
          else mret (inl (ErrUnsupportedType t)))
       {| B := data; E := None |}).

End Codec.
End mq.

(** ** The processor's other workers (owner_operator.go) *)

(** One tick of [localResolvedWorker]: the minimum over [tableResolvedTS]
    (a [sync.Map] from table id to resolved ts) and the ts handed to
    [WriteResolvedTS]; [None] is the [continue] of "no table in this
    processor".  [Range] visits the entries in some order; [map_to_list]
    fixes one. *)
Definition localResolvedTick (tableResolvedTS : gmap N Ts) : option Ts :=
  let minResolvedTs :=
    foldl (fun (minResolvedTs : Ts) (kv : N * Ts) =>
             if (kv.2 <? minResolvedTs)%N then kv.2 else minResolvedTs)
          MaxUint64 (map_to_list tableResolvedTS) in
  if (minResolvedTs =? MaxUint64)%N then None else Some minResolvedTs.

(** What the [select] of [checkpointWorker] can take. *)
Inductive checkpointEvent :=
| EntryExecuted (e : ProcessorEntry)   (* a receive from [executedEntries] *)
| ExecutedClosed                       (* [executedEntries] is closed *)
| TimerFired.                          (* [time.After] *)

(** The loop of [checkpointWorker]: the timestamps it hands to
    [WriteCheckpointTS], in order.  A write that fails is logged and the
    loop goes on. *)
Fixpoint checkpointWorkerLoop (events : list checkpointEvent) (checkpointTS : Ts)
  : list Ts :=
  match events with
  | [] => []
  | EntryExecuted e :: events' =>
      checkpointWorkerLoop events'
        (match Typ e with
         | ProcessorEntryResolved => peTS e
         | _ => checkpointTS
         end)
  | ExecutedClosed :: _ => []
  | TimerFired :: events' => checkpointTS :: checkpointWorkerLoop events' checkpointTS
  end.

Definition checkpointWorker (events : list checkpointEvent) : list Ts :=
  checkpointWorkerLoop events 0.

(** ** SubChangeFeed and ChangeFeedDetail (cdc/model/changefeed.go) *)

(** [SubChangeFeed.GetResolvedTs(pullers...)], each puller given by what
    its [GetResolvedTs] returns; [None] is the panic of [pullers[0]] on an
    empty argument list. *)
Definition GetResolvedTs (pullers : list Ts) : option Ts :=
  match pullers with
  | [] => None
  | p0 :: rest =>
      Some (foldl (fun (minResolvedTs ts : Ts) =>
                     if (ts <? minResolvedTs)%N then ts else minResolvedTs)
                  p0 rest)
  end.

Module detail.
Section ChangeFeedDetail.

Context {Datum : Type}.

(** [strings.ToUpper], and [ApplyOn] of the filter built from the
    changefeed's rules ([tidb-tools/pkg/filter]). *)
Variable ToUpper : string → string.
Variable ApplyOn : list (string * string) → list (string * string).

Definition IsSysSchema (db : string) : bool :=
  let db := ToUpper db in
  existsb (fun schema => String.eqb schema db)
          ["INFORMATION_SCHEMA"; "PERFORMANCE_SCHEMA"; "MYSQL"; "METRIC_SCHEMA"]%string.

Definition ShouldIgnoreTable (db tbl : string) : bool :=
  if IsSysSchema db then true
  else
    let left := ApplyOn [(db, tbl)] in
    (length left =? 0)%nat.

Definition FilterTxn (t : @mq.Txn Datum) : @mq.Txn Datum :=
  match mq.txnDDL t with
  | Some ddl =>
      if ShouldIgnoreTable (mq.ddlDatabase ddl) (mq.ddlTable ddl)
      then {| mq.txnTs := mq.txnTs t; mq.DMLs := mq.DMLs t; mq.txnDDL := None |}
      else t
  | None =>
      {| mq.txnTs := mq.txnTs t;
         mq.DMLs := List.filter (fun dml => negb (ShouldIgnoreTable (mq.Database dml)
                                                                   (mq.Table dml)))
                                (mq.DMLs t);
         mq.txnDDL := None |}
  end.

End ChangeFeedDetail.
End detail.

(** ** BatchMsg (cdc/model, the batch of message keys and values) *)

Module batch.
Section BatchMsg.

(** [codec.EncodeInt([]byte{}, v)] and [codec.DecodeInt] of
    [tidb/util/codec]: the bytes of an int64, and the bytes left with the
    value read. *)
Variable EncodeInt : Z → list byte.
Variable DecodeInt : list byte → error + (list byte * Z).

(** The unread bytes of the two [bytes.Buffer]s. *)
Record BatchMsg := {
  keyBuf : list byte;
  valueBuf : list byte;
}.

Definition NewBatchMsg : BatchMsg := {| keyBuf := []; valueBuf := [] |}.

Definition Append (key value : list byte) (batch : BatchMsg) : BatchMsg :=
  {| keyBuf := keyBuf batch ++ EncodeInt (Z.of_nat (length key)) ++ key;
     valueBuf := valueBuf batch ++ EncodeInt (Z.of_nat (length value)) ++ value |}.

Definition GetRaw (batch : BatchMsg) : list byte * list byte :=
  (keyBuf batch, valueBuf batch).

Definition SetRaw (key value : list byte) (batch : BatchMsg) : BatchMsg :=
  {| keyBuf := key; valueBuf := value |}.

Definition HasNext (batch : BatchMsg) : bool :=
  (0 <? length (keyBuf batch))%nat && (0 <? length (valueBuf batch))%nat.

(** [bytes.Buffer.Next(n)]: the next [n] bytes, or all that are left when
    there are fewer; [None] is the panic on a negative [n]. *)
Definition bufferNext (n : Z) (buf : list byte) : option (list byte * list byte) :=
  if (n <? 0)%Z then None
  else Some (take (Z.to_nat n) buf, drop (Z.to_nat n) buf).

Inductive nextResult :=
| NextOk (key value : list byte)
| NextErr (err : error)
| NextPanic.

(** [Next], with the batch as it leaves it. *)
Definition Next (batch : BatchMsg) : nextResult * BatchMsg :=
  let keyBuf0 := drop 8 (keyBuf batch) in
  match DecodeInt (take 8 (keyBuf batch)) with
  | inl err => (NextErr err, {| keyBuf := keyBuf0; valueBuf := valueBuf batch |})
  | inr (_, keyLen) =>
      match bufferNext keyLen keyBuf0 with
      | None => (NextPanic, {| keyBuf := keyBuf0; valueBuf := valueBuf batch |})
      | Some (key, keyBuf1) =>
          let valueBuf0 := drop 8 (valueBuf batch) in
          match DecodeInt (take 8 (valueBuf batch)) with
          | inl err => (NextErr err, {| keyBuf := keyBuf1; valueBuf := valueBuf0 |})
          | inr (_, valueLen) =>
              match bufferNext valueLen valueBuf0 with
              | None => (NextPanic, {| keyBuf := keyBuf1; valueBuf := valueBuf0 |})
              | Some (value, valueBuf1) =>
                  (NextOk key value, {| keyBuf := keyBuf1; valueBuf := valueBuf1 |})
              end
          end
      end
  end.

End BatchMsg.
End batch.

(** ** Concrete collaborators and states used to exercise the model *)

Module examples.

(** A sink that records nothing and fails exactly when its state says so. *)
Record flakySink := { ddlFails : bool; checkpointFails : bool }.

#[global] Instance flakySink_Sink : Sink flakySink := {
  EmitDDLEvent k _ := (k, if ddlFails k then Some (ErrExternal "ddl rejected") else None);
  EmitCheckpointTs k _ :=
    (k, if checkpointFails k then Some (ErrExternal "checkpoint rejected") else None);
}.

(** A schema snapshot that knows every table as [test.t]. *)
#[global] Instance unit_SchemaSnapshot : SchemaSnapshot unit := {
  HandleDDL s _ := (s, None);
  FillSchemaName _ _ := inr "test"%string;
  GetTableNameByID _ _ := Some {| entry.Schema := "test"; entry.Table := "t" |};
  GetTableIDByName _ _ _ := None;
  IsIneligibleTableID _ _ := false;
}.

(** A scheduler that gives every orphan table to the capture it holds and
    never proposes a move. *)
#[global] Instance single_Scheduler : Scheduler CaptureID := {
  AlignCapture s _ := s;
  DistributeTables s orphans :=
    (s, if decide (size orphans = 0) then ∅
        else {[ s := (fun ts => {| model.Delete := false; model.BoundaryTs := ts;
                                   model.applied := model.Pending |}) <$> orphans ]});
  ResetWorkloads s _ _ := s;
  CalRebalanceOperates s _ _ := (s, (∅, ∅));
}.

Definition noCyclic : CyclicPkg :=
  {| IsMarkTable _ _ := false; MarkTableName s t := ("mark"%string, t) |}.

Definition keepAll : Filter :=
  {| ShouldIgnoreTable _ _ := false; ShouldDiscardDDL _ := false |}.

Definition emptyEtcd : CDCEtcdClient :=
  {| taskStatusKV := ∅; GetTaskWorkload _ := inr ∅ |}.

Definition emptyHandler (resolved : Ts) : ddl.ddlHandler :=
  {| ddl.resolvedTS := resolved; ddl.ddlJobs := [] |}.

Definition job (jobID : Z) (tp : timodel.ActionType) (tableID : TableID) (finishedTS : Ts)
  : timodel.Job :=
  {| timodel.ID := jobID; timodel.jobType := tp; timodel.SchemaID := 1;
     timodel.jobTableID := tableID; timodel.SchemaName := ""; timodel.Query := "ddl";
     timodel.BinlogInfo :=
       {| timodel.FinishedTS := finishedTS;
          timodel.binlogTableInfo :=
            Some {| timodel.tiID := tableID; timodel.tiName := "t";
                    timodel.PartitionDefinitions := None |} |} |}.

Definition position (checkpoint resolved : Ts) : model.TaskPosition :=
  {| model.CheckPointTs := checkpoint; model.ResolvedTs := resolved; model.Count := 0 |}.

(** A changefeed in [state] with one capture "A" that owns no table and has
    reported the given position. *)
Definition feed (state : model.ChangeFeedDDLState) (snk : flakySink)
  (resolved checkpoint : Ts) (pos : model.TaskPosition)
  (ddlResolved : Ts) (history : list timodel.Job)
  : @changeFeed unit flakySink CaptureID ddl.ddlHandler :=
  {| cfID := "cf"; cyclicSyncDDL := false;
     status := {| model.cfResolvedTs := resolved; model.CheckpointTs := checkpoint |};
     schema := tt; ddlState := state; targetTs := MaxUint64;
     taskStatus := {[ "A"%string := model.newTaskStatus ]};
     taskPositions := {[ "A"%string := pos ]};
     cfFilter := keepAll; sink := snk; scheduler := "A"%string; cyclicEnabled := false;
     ddlHandler := emptyHandler ddlResolved; ddlResolvedTs := ddlResolved;
     ddlJobHistory := history; ddlExecutedTs := 0;
     schemas := ∅; tables := ∅; partitions := ∅; orphanTables := ∅; toCleanTables := ∅;
     todoAddOperations := ∅; lastRebanlanceTime := 0; etcdCli := emptyEtcd; calls := [] |}.

Definition captureA : gmap CaptureID CaptureInfo :=
  {[ "A"%string := {| ciID := "A"; AdvertiseAddr := "127.0.0.1:8300" |} ]}.

Definition okSink : flakySink := {| ddlFails := false; checkpointFails := false |}.
Definition badSink : flakySink := {| ddlFails := true; checkpointFails := false |}.

(** A changefeed whose only capture is up to date while a DDL job with
    finishedTs [finished] heads the history. *)
Definition feedWithJob (state : model.ChangeFeedDDLState) (snk : flakySink) (finished : Ts)
  : @changeFeed unit flakySink CaptureID ddl.ddlHandler :=
  feed state snk 10 10 (position 40 50) 100 [job 1 timodel.ActionCreateTable 7 finished].

(** A changefeed waiting to execute the job at the head, with the
    checkpoint arrived at its finishedTs. *)
Definition feedAtBarrier (snk : flakySink)
  : @changeFeed unit flakySink CaptureID ddl.ddlHandler :=
  feed model.ChangeFeedWaitToExecDDL snk 50 50 (position 50 50) 100
       [job 1 timodel.ActionCreateTable 7 50].

(** A status with an add operation the processor has not applied yet. *)
Definition pendingAdd : model.TaskStatus :=
  {| model.Tables := {[ 5%Z := 10%N ]};
     model.Operation := {[ 5%Z := mkOperation false 10 ]} |}.

Definition tablesOnly (id : TableID) (ts : Ts) : model.TaskStatus :=
  {| model.Tables := {[ id := ts ]}; model.Operation := ∅ |}.

(** The owner's view holds no pending operation, while the store already
    has one for capture "B". *)
Definition staleFeed : @changeFeed unit flakySink CaptureID ddl.ddlHandler :=
  set_etcdCli {| taskStatusKV := {[ "B"%string := pendingAdd ]};
                 GetTaskWorkload _ := inr ∅ |}
    (feedWithJob model.ChangeFeedSyncDML okSink 45).

Definition twoWrites : gmap CaptureID model.TaskStatus :=
  {[ "A"%string := tablesOnly 1 10; "B"%string := tablesOnly 2 10 ]}.

(** A changefeed whose capture still has a pending operation. *)
Definition busyFeed : @changeFeed unit flakySink CaptureID ddl.ddlHandler :=
  set_toCleanTables {[ 5%Z := 30%N ]}
    (set_orphanTables {[ 9%Z := 20%N ]}
       (set_taskStatus {[ "A"%string := pendingAdd ]}
          (feedWithJob model.ChangeFeedSyncDML okSink 45))).

Definition txn (ts : Ts) : RawTxn :=
  {| TS := ts;
     Entries := [ {| rawOpType := OpTypePut; rawKey := "k"; rawValue := "v"; rawTs := ts |} ] |}.

(** Table 1 has delivered transactions at 5 and 20 and stays open; table 2
    has delivered one at 7 and is closed. *)
Definition twoTables : processorImpl :=
  {| tableInputChans :=
       {[ 1%N := {| outputTxn := [txn 5; txn 20]; outputClosed := false; putBackTxn := None |};
          2%N := {| outputTxn := [txn 7]; outputClosed := true; putBackTxn := None |} ]};
     resolvedEntries := [];
     lastGlobalResolvedTS := 0 |}.

(** A job that carries a query and nothing else. *)
Definition jobOfQuery (q : string) : timodel.Job :=
  {| timodel.ID := 0; timodel.jobType := timodel.ActionOther 0; timodel.SchemaID := 0;
     timodel.jobTableID := 0; timodel.SchemaName := ""; timodel.Query := q;
     timodel.BinlogInfo := {| timodel.FinishedTS := 0; timodel.binlogTableInfo := None |} |}.

(** A toy codec for jobs, used where the writer and the reader are run on
    concrete bytes; it is not encoding/json.  The text of a job is the
    JSON object that holds its query, and only a text of that shape is
    read back: any other text is an error, as it is for json.Unmarshal.
    The theorems on the envelope take the codec as a parameter. *)
Definition quote : string := String (Ascii.ascii_of_nat 34) EmptyString.

Definition jsonOpen : string := ("{" ++ quote ++ "query" ++ quote ++ ":" ++ quote)%string.
Definition jsonClose : string := (quote ++ "}")%string.

Definition marshalJob (j : timodel.Job) : error + string :=
  inr (jsonOpen ++ timodel.Query j ++ jsonClose)%string.

Definition unmarshalJob (s : string) : error + timodel.Job :=
  let n := String.length s in
  let a := String.length jsonOpen in
  let b := String.length jsonClose in
  if (a + b <=? n)%nat && String.eqb (substring 0 a s) jsonOpen
     && String.eqb (substring (n - b) b s) jsonClose
  then inr (jobOfQuery (substring a (n - a - b) s))
  else inl (ErrExternal "invalid character").

(** Toy codecs for column values and column infos: the text itself. *)
Definition marshalText (s : string) : error + string := inr s.
Definition unmarshalText (s : string) : error + string := inr s.
Definition marshalColumn (c : mq.ColumnInfo) : error + string := inr (mq.colName c).
Definition unmarshalColumn (s : string) : error + mq.ColumnInfo :=
  inr {| mq.colName := s; mq.colState := mq.StatePublic; mq.colGenerated := false |}.

Definition noTables : mq.TableInfoGetter :=
  {| mq.GetTableIDByName _ _ := None; mq.TableByID _ := None |}.

Definition ResolveTsType : byte := x01.
Definition TxnType : byte := x02.

(** [{commitTs = 5000, DDL on test.t}] written for the capture "cdc". *)
Definition ddlTxn : @mq.Txn string :=
  {| mq.txnTs := 5000; mq.DMLs := [];
     mq.txnDDL := Some {| mq.ddlDatabase := "test"; mq.ddlTable := "t";
                          mq.Job := jobOfQuery "create table t(id int)" |} |}.

Definition ddlMessage : @mq.Message string :=
  {| mq.CdcID := "cdc"; mq.MsgType := TxnType; mq.ResloveTs := 0;
     mq.msgTxn := Some ddlTxn; mq.msgColumns := ∅ |}.

Definition encodeTxn (t : @mq.Txn string) : error + list byte :=
  mq.txnWriter_Write marshalJob marshalText marshalColumn TxnType "cdc" t noTables.

Definition decode (data : list byte) : error + @mq.Message string :=
  mq.Decode unmarshalJob unmarshalText unmarshalColumn ResolveTsType TxnType data.

End examples.

(** ** Descriptions the theorems compare the code with *)


(** The collaborator calls that balancing makes. *)
Definition isBalanceCall (k : Call) : Prop :=
  match k with
  | CallAtomicPutTaskStatus _ _ | CallDistributeTables _ | CallCalRebalanceOperates _ => True
  | _ => False
  end.

(** What table bookkeeping and balancing leave alone: they add only
    balancing calls to the log and do not write the fields listed. *)
Definition ddlFrame {Sch Snk Sched Hdl : Type} (c c' : @changeFeed Sch Snk Sched Hdl) : Prop :=
  (∃ more, calls c' = calls c ++ more ∧ Forall isBalanceCall more)
  ∧ status c' = status c ∧ ddlState c' = ddlState c
  ∧ ddlJobHistory c' = ddlJobHistory c ∧ ddlExecutedTs c' = ddlExecutedTs c
  ∧ sink c' = sink c ∧ cyclicEnabled c' = cyclicEnabled c
  ∧ cyclicSyncDDL c' = cyclicSyncDDL c ∧ ddlResolvedTs c' = ddlResolvedTs c
  ∧ ddlHandler c' = ddlHandler c ∧ targetTs c' = targetTs c
  ∧ taskPositions c' = taskPositions c ∧ cfFilter c' = cfFilter c.

(** The gate of [handleDDL] in the words of section 4.1: the state is
    WaitToExecDDL, every live capture has reported a TaskPosition, and
    the checkpoint has reached the finishedTs of the head job. *)
Definition readyToExecDDL_claimed {Sch Snk Sched Hdl : Type}
  (captures : gmap CaptureID CaptureInfo) (c : @changeFeed Sch Snk Sched Hdl) : Prop :=
  ddlState c = model.ChangeFeedWaitToExecDDL
  ∧ (∀ cid, is_Some (captures !! cid) → is_Some (taskPositions c !! cid))
  ∧ ∃ job rest,
      ddlJobHistory c = job :: rest
      ∧ model.CheckpointTs (status c) = timodel.FinishedTS (timodel.BinlogInfo job).

(** The gate in the amended wording: the state is WaitToExecDDL, the
    reported positions are at least as many as the task statuses, whoever
    reported them, and the checkpoint has reached the finishedTs of the
    head job. *)
Definition readyToExecDDL {Sch Snk Sched Hdl : Type} (c : @changeFeed Sch Snk Sched Hdl) : bool :=
  model.ddlState_eqb (ddlState c) model.ChangeFeedWaitToExecDDL
  && (size (taskStatus c) <=? size (taskPositions c))
  && match ddlJobHistory c with
     | job :: _ => (model.CheckpointTs (status c) =? timodel.FinishedTS (timodel.BinlogInfo job))%N
     | [] => false
     end.

(** *** Timestamp computation, in words *)

(** The minimum of [start] and every element of [l]. *)
Definition minOf (start : Ts) (l : list Ts) : Ts := foldl N.min start l.

Section TimestampDescriptions.

Context {Sch Snk Sched Hdl : Type}.
Context `{!SchemaSnapshot Sch, !Sink Snk, !Scheduler Sched, !OwnerDDLHandler Hdl}.

(** What the resolved minimum ranges over besides targetTs: the resolvedTs
    of every reported position, the applied-ts of every task status, the
    startTs of every orphan table, the targetTs of every table to clean. *)
Definition resolvedCandidates (c : @changeFeed Sch Snk Sched Hdl) : list Ts :=
  map (fun kv : CaptureID * model.TaskPosition => model.ResolvedTs kv.2)
      (map_to_list (taskPositions c))
  ++ map (fun kv : CaptureID * model.TaskStatus => model.AppliedTs kv.2)
         (map_to_list (taskStatus c))
  ++ map snd (map_to_list (orphanTables c))
  ++ map snd (map_to_list (toCleanTables c)).

Definition checkpointCandidates (c : @changeFeed Sch Snk Sched Hdl) : list Ts :=
  map (fun kv : CaptureID * model.TaskPosition => model.CheckPointTs kv.2)
      (map_to_list (taskPositions c))
  ++ map (fun kv : CaptureID * model.TaskStatus => model.AppliedTs kv.2)
         (map_to_list (taskStatus c))
  ++ map snd (map_to_list (orphanTables c))
  ++ map snd (map_to_list (toCleanTables c)).

(** "pulling DDL jobs if needed": the pull happens when the resolved
    minimum is ahead of ddlResolvedTs. *)
Definition pullIfBehind (c : @changeFeed Sch Snk Sched Hdl)
  : @changeFeed Sch Snk Sched Hdl * outcome :=
  if (ddlResolvedTs c <? minOf (targetTs c) (resolvedCandidates c))%N
  then pullDDLJob c else (c, Nil).

(** The tick as the claim words it: [(minResolvedTs, minCheckpointTs,
    ddl state)].  Both minima start from targetTs, and the head of
    ddlJobHistory takes over when its finishedTs is at most
    minResolvedTs. *)
Definition calcResolvedTs_claimed (c : @changeFeed Sch Snk Sched Hdl)
  : Ts * Ts * model.ChangeFeedDDLState :=
  let c1 := (pullIfBehind c).1 in
  let minResolvedTs :=
    N.min (minOf (targetTs c) (resolvedCandidates c)) (ddlResolvedTs c1) in
  let minCheckpointTs := minOf (targetTs c) (checkpointCandidates c) in
  let '(minResolvedTs, state) :=
    match ddlJobHistory c1 with
    | job :: _ =>
        if (timodel.FinishedTS (timodel.BinlogInfo job) <=? minResolvedTs)%N
        then (timodel.FinishedTS (timodel.BinlogInfo job), model.ChangeFeedWaitToExecDDL)
        else (minResolvedTs, ddlState c1)
    | [] => (minResolvedTs, ddlState c1)
    end in
  (minResolvedTs, N.min minCheckpointTs minResolvedTs, state).

(** The tick as the code has it: with no position reported the checkpoint
    minimum starts from Status.resolvedTs instead of targetTs; the jobs
    already executed are dropped before the head is looked at; the head
    takes over only when its finishedTs is strictly below minResolvedTs. *)
Definition calcResolvedTs_amended (c : @changeFeed Sch Snk Sched Hdl)
  : Ts * Ts * model.ChangeFeedDDLState * list timodel.Job :=
  let c1 := (pullIfBehind c).1 in
  let minResolvedTs :=
    N.min (minOf (targetTs c) (resolvedCandidates c)) (ddlResolvedTs c1) in
  let minCheckpointTs :=
    minOf (if size (taskPositions c) =? 0 then model.cfResolvedTs (status c) else targetTs c)
          (checkpointCandidates c) in
  let history := dropExecuted (ddlExecutedTs c1) (ddlJobHistory c1) in
  let '(minResolvedTs, state) :=
    match history with
    | job :: _ =>
        if (timodel.FinishedTS (timodel.BinlogInfo job) <? minResolvedTs)%N
        then (timodel.FinishedTS (timodel.BinlogInfo job), model.ChangeFeedWaitToExecDDL)
        else (minResolvedTs, ddlState c1)
    | [] => (minResolvedTs, ddlState c1)
    end in
  (minResolvedTs, N.min minCheckpointTs minResolvedTs, state, history).

End TimestampDescriptions.

(** *** Owner ticks *)

Section OwnerSteps.

Context {Sch Snk Sched Hdl : Type}.
Context `{!SchemaSnapshot Sch, !Sink Snk, !Scheduler Sched, !OwnerDDLHandler Hdl}.

(** What happens to a changefeed over time: the owner reloads the task
    statuses and positions, balances, handles DDL, computes the timestamps;
    in between, the DDL puller feeds the handler and processors write to
    the metadata store. *)
Inductive ownerStep : @changeFeed Sch Snk Sched Hdl → @changeFeed Sch Snk Sched Hdl → Prop :=
| step_updateProcessorInfos infos positions c :
    ownerStep c (updateProcessorInfos infos positions c)
| step_tryBalance cyclic captures rebanlanceNow now c :
    ownerStep c (tryBalance cyclic captures rebanlanceNow now c).1
| step_handleDDL cyclic captures c :
    ownerStep c (handleDDL cyclic captures c).1
| step_calcResolvedTs c :
    ownerStep c (calcResolvedTs c).1
| step_collaborators h cli c :
    ownerStep c (set_etcdCli cli (set_ddlHandler h c)).

End OwnerSteps.

(** The store after the statuses [done] have been written, in order. *)
Definition putAll (kv : gmap CaptureID model.TaskStatus)
  (done : list (CaptureID * model.TaskStatus)) : gmap CaptureID model.TaskStatus :=
  foldl (fun m p => <[p.1 := p.2]> m) kv done.

(** *** The processor, in words *)

(** Transactions come in non-decreasing commit-ts order (section 3). *)
Definition commitOrdered (l : list RawTxn) : Prop :=
  StronglySorted (fun a b => (TS a <= TS b)%N) l.

Definition dmlEntry (t : RawTxn) : ProcessorEntry :=
  NewProcessorDMLsEntry (Entries t) (TS t).

(** The buffered transactions at or below, and above, a resolved ts. *)
Definition resolvedTxns (ts : Ts) (l : list RawTxn) : list RawTxn :=
  List.filter (fun t => (TS t <=? ts)%N) l.

Definition unresolvedTxns (ts : Ts) (l : list RawTxn) : list RawTxn :=
  List.filter (fun t => (ts <? TS t)%N) l.

(** The entry the merge output carries for a transaction, field by
    field: its row changes, its commit ts, and the kind DMLS. *)
Definition forwardedEntry (t : RawTxn) : ProcessorEntry :=
  {| peEntries := Entries t; peTS := TS t; Typ := ProcessorEntryDMLS |}.

(** The synthetic Resolved(ts) entry: no row changes, the ts, and the
    kind Resolved. *)
Definition resolvedMarker (ts : Ts) : ProcessorEntry :=
  {| peEntries := []; peTS := ts; Typ := ProcessorEntryResolved |}.

(** The buffered transactions in front of the first one whose commit ts
    is above [ts], and those from that one on. *)
Fixpoint upToFirstAbove (ts : Ts) (l : list RawTxn) : list RawTxn :=
  match l with
  | [] => []
  | t :: l' => if (ts <? TS t)%N then [] else t :: upToFirstAbove ts l'
  end.

Fixpoint fromFirstAbove (ts : Ts) (l : list RawTxn) : list RawTxn :=
  match l with
  | [] => []
  | t :: l' => if (ts <? TS t)%N then l else fromFirstAbove ts l'
  end.

(** A channel that lets go of [Forward]: it is closed, or it holds a
    transaction above [ts]. *)
Definition releases (ts : Ts) (p : txnChannel) : Prop :=
  outputClosed p = true ∨ ∃ t, t ∈ pendingTxns p ∧ (ts < TS t)%N.

(** C3 in the words of the claim: the pass sends, for each table, exactly
    the buffered transactions with commitTs ≤ ts, and after them a single
    Resolved(ts) entry. *)
Definition globalResolved_claimed (ts : Ts) (w w' : processorImpl) : Prop :=
  ∃ merged,
    resolvedEntries w' = resolvedEntries w ++ merged ++ [resolvedMarker ts]
    ∧ interleave
        (map (fun kv : N * txnChannel =>
                map forwardedEntry (resolvedTxns ts (pendingTxns kv.2)))
             (map_to_list (tableInputChans w)))
        merged.

(** *** Balancing, in words *)

(** What one queued operation does to the operation already stored for
    its id: a fresh id takes it, the same kind keeps the stored one, the
    opposite kind cancels it. *)
Definition mergeOperation (stored : option model.TableOperation) (op : model.TableOperation)
  : option model.TableOperation :=
  match stored with
  | None => Some op
  | Some orig =>
      if Bool.eqb (model.Delete orig) (model.Delete op) then Some orig else None
  end.

Section BalanceDescriptions.

Context {Sch Snk Sched Hdl : Type}.

(** The number of tables [minimumTablesCapture] counts for a capture: those
    of its new status when there is one, else those of its current status,
    else none. *)
Definition tableCountOf (c : @changeFeed Sch Snk Sched Hdl)
  (newTaskStatus : gmap CaptureID model.TaskStatus) (id : CaptureID) : Z :=
  match newTaskStatus !! id with
  | Some newStatus => Z.of_nat (size (model.Tables newStatus))
  | None => match taskStatus c !! id with
            | Some status => Z.of_nat (size (model.Tables status))
            | None => 0%Z
            end
  end.

(** What table bookkeeping ([addSchema], [dropSchema], [addTable],
    [removeTable], [applyJob]) leaves alone: the collaborators, the call
    log and the task statuses. *)
Definition bookFrame (c c' : @changeFeed Sch Snk Sched Hdl) : Prop :=
  calls c' = calls c ∧ etcdCli c' = etcdCli c ∧ taskStatus c' = taskStatus c
  ∧ scheduler c' = scheduler c ∧ sink c' = sink c ∧ schema c' = schema c
  ∧ todoAddOperations c' = todoAddOperations c.

(** The physical tables behind a table id: its partitions if it has any,
    else the table itself. *)
Definition physicalTables (c : @changeFeed Sch Snk Sched Hdl) (tid : TableID) : list Z :=
  default [tid] (partitions c !! tid).

End BalanceDescriptions.

Definition isPutCall (k : Call) : Prop :=
  match k with CallAtomicPutTaskStatus _ _ => True | _ => False end.

(** *** The batch, in words *)

(** The batch after the pairs of [l] have been appended, in order. *)
Definition appendAll (EncodeInt : Z → list byte) (l : list (list byte * list byte))
  (b : batch.BatchMsg) : batch.BatchMsg :=
  foldl (fun b kv => batch.Append EncodeInt kv.1 kv.2 b) b l.

(** *** The envelope, in words *)

(** A string whose length fits the uvarint written in front of it. *)
Definition fitsVarstr (s : string) : Prop := (N.of_nat (String.length s) < 2 ^ 64)%N.

(** A [varstr] (section 4.5): the uvarint of the length, then the bytes. *)
Definition varstr (s : string) : list byte :=
  encoding.putUvarint 9 (N.of_nat (length (list_byte_of_string s))) ++ list_byte_of_string s.

(** The envelope (section 4.5): magic, version, message kind, capture id. *)
Definition envelope (msgKind : byte) (cdcId : string) : list byte :=
  encoding.be 4 mq.MagicIndex ++ [mq.Version; msgKind] ++ varstr cdcId.

(** The body of a DDL transaction (section 4.5): schema, table and the
    JSON text of the job. *)
Definition ddlBody (ddl : mq.DDL) (text : string) : list byte :=
  varstr (mq.ddlDatabase ddl) ++ varstr (mq.ddlTable ddl) ++ varstr text.

(** What stands in front of the body of a DDL transaction: the envelope,
    the commit ts, the kind of the transaction and the four bytes of the
    length field. *)
Definition ddlHead (msgKind : byte) (cdcId : string) (ts : Ts) (bodyLen : list byte)
  : list byte :=
  envelope msgKind cdcId ++ encoding.be 8 ts ++ [encoding.byteOfN mq.DdlOp] ++ bodyLen.

(** The message a DDL transaction is to be read back as. *)
Definition ddlMessageOf (msgKind : byte) (cdcId : string) (ts : Ts) (ddl : mq.DDL)
  {Datum : Type} : @mq.Message Datum :=
  {| mq.CdcID := cdcId; mq.MsgType := msgKind; mq.ResloveTs := 0;
     mq.msgTxn := Some {| mq.txnTs := ts; mq.DMLs := []; mq.txnDDL := Some ddl |};
     mq.msgColumns := ∅ |}.

Section CodecDescriptions.

Context {Datum : Type}.
Variable marshalDatum : Datum → error + string.
Variable unmarshalDatum : string → error + Datum.
Variable marshalColumn : mq.ColumnInfo → error + string.
Variable unmarshalColumn : string → error + mq.ColumnInfo.

(** A column value the writer can encode and the reader gets back: JSON
    round-trips on it and both strings fit their length prefix. *)
Definition valueEncodable (kv : string * Datum) : Prop :=
  fitsVarstr kv.1
  ∧ ∃ text, marshalDatum kv.2 = inr text ∧ fitsVarstr text ∧ unmarshalDatum text = inr kv.2.

Definition columnEncodable (c : mq.ColumnInfo) : Prop :=
  ∃ text, marshalColumn c = inr text ∧ fitsVarstr text ∧ unmarshalColumn text = inr c.

(** The columns the writer sends along with a row change: the writable
    columns of its table, when the getter knows the table. *)
Definition tableColumns (infoGetter : mq.TableInfoGetter) (dml : @mq.DML Datum)
  : option (list mq.ColumnInfo) :=
  match mq.GetTableIDByName infoGetter (mq.Database dml) (mq.Table dml) with
  | None => None
  | Some tblID =>
      match mq.TableByID infoGetter tblID with
      | None => None
      | Some tableInfo => Some (mq.writableColumns tableInfo)
      end
  end.

(** A row change whose every part fits its field: the kind and the two
    counts fit 32 bits. *)
Definition dmlEncodable (infoGetter : mq.TableInfoGetter) (dml : @mq.DML Datum) : Prop :=
  fitsVarstr (mq.Database dml) ∧ fitsVarstr (mq.Table dml)
  ∧ (0 <= mq.Tp dml < 2 ^ 32)%Z
  ∧ (Z.of_nat (size (mq.Values dml)) < 2 ^ 32)%Z
  ∧ Forall valueEncodable (map_to_list (mq.Values dml))
  ∧ ∃ columns, tableColumns infoGetter dml = Some columns
               ∧ (Z.of_nat (length columns) < 2 ^ 32)%Z
               ∧ Forall columnEncodable columns.

(** The column map of a message: for each row change, in order, the
    columns of its table under the key of the table. *)
Definition columnsOf (infoGetter : mq.TableInfoGetter) (dmls : list (@mq.DML Datum))
  (columnsMap : gmap string (list mq.ColumnInfo)) : gmap string (list mq.ColumnInfo) :=
  foldl (fun m dml => <[mq.FormColumnKey (mq.Database dml) (mq.Table dml)
                        := default [] (tableColumns infoGetter dml)]> m)
        columnsMap dmls.

End CodecDescriptions.

(** ** Further collaborators and states *)

Module cases.
Import examples.

(** A schema snapshot like the one above in which the tables of a given
    set have neither primary key nor unique index. *)
Record pickySchema := { ineligible : gset TableID }.

#[global] Instance pickySchema_SchemaSnapshot : SchemaSnapshot pickySchema := {
  HandleDDL s _ := (s, None);
  FillSchemaName _ _ := inr "test"%string;
  GetTableNameByID _ _ := Some {| entry.Schema := "test"; entry.Table := "t" |};
  GetTableIDByName _ _ _ := None;
  IsIneligibleTableID s id := bool_decide (id ∈ ineligible s);
}.

(** The changefeed [c] over another schema snapshot, with cyclic
    replication switched as given. *)
Definition remake {S : Type} (sch : S) (cyclic : bool)
  (c : @changeFeed unit flakySink CaptureID ddl.ddlHandler)
  : @changeFeed S flakySink CaptureID ddl.ddlHandler :=
  {| cfID := cfID c; cyclicSyncDDL := cyclicSyncDDL c; status := status c;
     schema := sch; ddlState := ddlState c; targetTs := targetTs c;
     taskStatus := taskStatus c; taskPositions := taskPositions c;
     cfFilter := cfFilter c; sink := sink c; scheduler := scheduler c;
     cyclicEnabled := cyclic; ddlHandler := ddlHandler c;
     ddlResolvedTs := ddlResolvedTs c; ddlJobHistory := ddlJobHistory c;
     ddlExecutedTs := ddlExecutedTs c; schemas := schemas c;
     tables := tables c; partitions := partitions c;
     orphanTables := orphanTables c; toCleanTables := toCleanTables c;
     todoAddOperations := todoAddOperations c;
     lastRebanlanceTime := lastRebanlanceTime c; etcdCli := etcdCli c;
     calls := calls c |}.

(** At the barrier of a job on table 7, which is replicated so far and
    has lost its primary key. *)
Definition pickyFeed : @changeFeed pickySchema flakySink CaptureID ddl.ddlHandler :=
  remake {| ineligible := {[ 7%Z ]} |} false
    (set_tables {[ 7%Z := {| entry.Schema := "test"; entry.Table := "t" |} ]}
       (feedAtBarrier okSink)).

(** At the barrier, with cyclic replication on and DDL syncing off. *)
Definition cyclicFeed : @changeFeed unit flakySink CaptureID ddl.ddlHandler :=
  remake tt true (feedAtBarrier okSink).

(** The add operations of a rebalance plan are still to be sent. *)
Definition movingFeed : @changeFeed unit flakySink CaptureID ddl.ddlHandler :=
  set_todoAddOperations {[ "A"%string := {[ 5%Z := mkOperation false 10 ]} ]}
    (feedWithJob model.ChangeFeedSyncDML okSink 45).

(** Capture "A" replicates table 5, which is to be cleaned up; table 9
    waits for a capture. *)
Definition queuedFeed : @changeFeed unit flakySink CaptureID ddl.ddlHandler :=
  set_toCleanTables {[ 5%Z := 30%N ]}
    (set_orphanTables {[ 9%Z := 20%N ]}
       (set_taskStatus {[ "A"%string := tablesOnly 5 10 ]}
          (feedWithJob model.ChangeFeedSyncDML okSink 45))).

(** Cyclic replication is on and table 9 waits for a capture; its mark
    table does not exist yet. *)
Definition waitingFeed : @changeFeed unit flakySink CaptureID ddl.ddlHandler :=
  remake tt true
    (set_orphanTables {[ 9%Z := 20%N ]} (feedWithJob model.ChangeFeedSyncDML okSink 45)).

(** Table 7 with the partitions 71 and 72. *)
Definition partitioned : timodel.TableInfo :=
  {| timodel.tiID := 7; timodel.tiName := "t";
     timodel.PartitionDefinitions := Some [71%Z; 72%Z] |}.

Definition testTable : entry.TableName := {| entry.Schema := "test"; entry.Table := "t" |}.

(** An open channel that has delivered transactions at 5, 20 and 30. *)
Definition threeTxns : txnChannel :=
  {| outputTxn := [txn 5; txn 20; txn 30]; outputClosed := false; putBackTxn := None |}.

(** ASCII upper case, for [strings.ToUpper]. *)
Definition upperAscii (a : Ascii.ascii) : Ascii.ascii :=
  let n := Ascii.N_of_ascii a in
  if (97 <=? n)%N && (n <=? 122)%N then Ascii.ascii_of_N (n - 32) else a.

Fixpoint upper (s : string) : string :=
  match s with
  | EmptyString => EmptyString
  | String a s' => String (upperAscii a) (upper s')
  end.

(** A filter whose rules keep the database [test] only. *)
Definition onlyTest (l : list (string * string)) : list (string * string) :=
  List.filter (fun t => String.eqb t.1 "test") l.

Definition rowOn (db tbl : string) : @mq.DML string :=
  {| mq.Database := db; mq.Table := tbl; mq.Tp := 1; mq.Values := {[ "id"%string := "1"%string ]} |}.

(** Row changes on [test.t], on the system table [mysql.user] and on
    [other.x]. *)
Definition mixedTxn : @mq.Txn string :=
  {| mq.txnTs := 7000;
     mq.DMLs := [rowOn "test" "t"; rowOn "mysql" "user"; rowOn "other" "x"];
     mq.txnDDL := None |}.

(** A stand-in for [codec.EncodeInt] and [codec.DecodeInt]: eight bytes,
    big-endian, with the sign bit flipped. *)
Definition encodeInt (v : Z) : list byte :=
  encoding.be 8 (Z.to_N ((v + 2 ^ 63) mod 2 ^ 64)).

Definition decodeInt (b : list byte) : error + (list byte * Z) :=
  if (length b <? 8)%nat then inl ErrInvalidSize
  else inr (drop 8 b, (Z.of_N (encoding.fromBE (take 8 b)) - 2 ^ 63)%Z).

(** A getter that knows every table as table 1, with a public column
    [id] and a generated column [total]. *)
Definition oneTable : mq.TableInfoGetter :=
  {| mq.GetTableIDByName _ _ := Some 1%Z;
     mq.TableByID _ :=
       Some {| mq.Columns :=
                 [ {| mq.colName := "id"; mq.colState := mq.StatePublic;
                      mq.colGenerated := false |};
                   {| mq.colName := "total"; mq.colState := mq.StatePublic;
                      mq.colGenerated := true |} ] |} |}.

(** One row change on [test.t] at commit ts 7000. *)
Definition rowTxn : @mq.Txn string :=
  {| mq.txnTs := 7000; mq.DMLs := [rowOn "test" "t"]; mq.txnDDL := None |}.

(** The DDL of [ddlTxn], the text of its job in the toy codec, and the
    same DDL on another database. *)
Definition createTable : mq.DDL :=
  {| mq.ddlDatabase := "test"; mq.ddlTable := "t";
     mq.Job := jobOfQuery "create table t(id int)" |}.

Definition createTableText : string :=
  (jsonOpen ++ "create table t(id int)" ++ jsonClose)%string.

Definition createTableInBest : mq.DDL :=
  {| mq.ddlDatabase := "best"; mq.ddlTable := "t";
     mq.Job := jobOfQuery "create table t(id int)" |}.

(** Two live captures; "A" holds the task status of the changefeed, and
    the only position reported is one left behind by a capture "C". *)
Definition liveAB : gmap CaptureID CaptureInfo :=
  {[ "A"%string := {| ciID := "A"; AdvertiseAddr := "127.0.0.1:8300" |};
     "B"%string := {| ciID := "B"; AdvertiseAddr := "127.0.0.1:8301" |} ]}.

Definition unreportedFeed : @changeFeed unit flakySink CaptureID ddl.ddlHandler :=
  set_taskPositions {[ "C"%string := position 50 50 ]} (feedAtBarrier okSink).

(** The owner sees capture "A" idle, while the store still holds a
    pending operation for it; table 9 waits to be dispatched and table 5,
    which no capture holds, waits to be cleaned. *)
Definition refusedFeed : @changeFeed unit flakySink CaptureID ddl.ddlHandler :=
  set_etcdCli {| taskStatusKV := {[ "A"%string := pendingAdd ]};
                 GetTaskWorkload _ := inr ∅ |}
    (set_toCleanTables {[ 5%Z := 30%N ]}
       (set_orphanTables {[ 9%Z := 20%N ]}
          (feedWithJob model.ChangeFeedSyncDML okSink 45))).

(** One table, whose channel has delivered a transaction at 5 and stays
    open with nothing else. *)
Definition idleTable : processorImpl :=
  {| tableInputChans :=
       {[ 1%N := {| outputTxn := [txn 5]; outputClosed := false; putBackTxn := None |} ]};
     resolvedEntries := [];
     lastGlobalResolvedTS := 0 |}.

(** One table, whose channel, now closed, has delivered a transaction at
    20 and then one at 5: not in commit order. *)
Definition unorderedTable : processorImpl :=
  {| tableInputChans :=
       {[ 1%N := {| outputTxn := [txn 20; txn 5]; outputClosed := true; putBackTxn := None |} ]};
     resolvedEntries := [];
     lastGlobalResolvedTS := 0 |}.

End cases.

(* ================================================================== *)
(** * Theorems *)
(* ================================================================== *)

(** ** appendTaskOperation *)

(** C9.  Queueing an operation for a table id that already has a queued
    operation: when the kinds (add / delete) differ, the existing operation
    is removed and the new one is not stored; when the kinds agree, the map
    is left as it is.  Either way the id never carries the new operation
    next to the old one, and no other id is touched. *)
Theorem appendTaskOperation_cancels
  (ops : gmap TableID model.TableOperation) (id : TableID)
  (orig op : model.TableOperation)
  (Hqueued : ops !! id = Some orig) :
  (model.Delete orig ≠ model.Delete op →
     appendTaskOperation ops id op = delete id ops ∧
     appendTaskOperation ops id op !! id = None)
  ∧ (model.Delete orig = model.Delete op →
       appendTaskOperation ops id op = ops ∧
       appendTaskOperation ops id op !! id = Some orig)
  ∧ (∀ id', id' ≠ id → appendTaskOperation ops id op !! id' = ops !! id').
Proof.
  unfold appendTaskOperation. rewrite Hqueued.
  split; [|split].
  - intros Hne.
    destruct (model.Delete orig), (model.Delete op); simpl; try congruence;
      (split; [reflexivity | apply lookup_delete_eq]).
  - intros Heq. rewrite Heq, Bool.eqb_reflx. simpl. split; [reflexivity | exact Hqueued].
  - intros id' Hne.
    destruct (Bool.eqb (model.Delete orig) (model.Delete op)); simpl; [reflexivity|].
    by rewrite lookup_delete_ne.
Qed.

Lemma appendTaskOperation_cancels_witness :
  let ops : gmap TableID model.TableOperation := {[ 7%Z := mkOperation false 10 ]} in
  appendTaskOperation ops 7 (mkOperation true 20) = delete 7%Z ops
  ∧ appendTaskOperation ops 7 (mkOperation true 20) !! 7%Z = None.
Proof.
  intros ops.
  apply (appendTaskOperation_cancels ops 7%Z (mkOperation false 10) (mkOperation true 20)).
  - apply lookup_singleton_eq.
  - simpl. discriminate.
Defined.

(** A fresh id simply receives the operation. *)
Lemma appendTaskOperation_fresh
  (ops : gmap TableID model.TableOperation) (id : TableID) (op : model.TableOperation) :
  ops !! id = None → appendTaskOperation ops id op = <[id := op]> ops.
Proof. intros Hnone. unfold appendTaskOperation. by rewrite Hnone. Qed.

(** ** PullDDL *)

Section DDLHandlerFacts.

Variable UnmarshalDDL : RawKVEntry → error + option timodel.Job.
Variable SkipJob : timodel.Job → bool.



End DDLHandlerFacts.

(** ** The changefeed controller *)

Section OwnerFacts.

Context {Sch Snk Sched Hdl : Type}.
Context `{!SchemaSnapshot Sch, !Sink Snk, !Scheduler Sched, !OwnerDDLHandler Hdl}.

#[local] Abbreviation CF := (@changeFeed Sch Snk Sched Hdl).

Implicit Types c : CF.

(** *** Frame: what bookkeeping and balancing do not write *)

Lemma ddlFrame_refl c : ddlFrame c c.
Proof.
  unfold ddlFrame. split; [| tauto].
  exists []. split; [by rewrite app_nil_r | constructor].
Qed.

Lemma ddlFrame_trans c1 c2 c3 : ddlFrame c1 c2 → ddlFrame c2 c3 → ddlFrame c1 c3.
Proof.
  unfold ddlFrame. intros [(m1 & E1 & F1) H1] [(m2 & E2 & F2) H2].
  split; [| intuition congruence].
  exists (m1 ++ m2). split; [by rewrite E2, E1, app_assoc | by apply Forall_app].
Qed.

Ltac frame_field :=
  unfold ddlFrame; simpl; split;
  [ exists []; split; [by rewrite app_nil_r | constructor]
  | repeat split; reflexivity ].

Lemma frame_set_schemas v c : ddlFrame c (set_schemas v c). Proof. frame_field. Qed.
Lemma frame_set_tables v c : ddlFrame c (set_tables v c). Proof. frame_field. Qed.
Lemma frame_set_partitions v c : ddlFrame c (set_partitions v c). Proof. frame_field. Qed.
Lemma frame_set_orphanTables v c : ddlFrame c (set_orphanTables v c). Proof. frame_field. Qed.
Lemma frame_set_toCleanTables v c : ddlFrame c (set_toCleanTables v c). Proof. frame_field. Qed.
Lemma frame_set_scheduler v c : ddlFrame c (set_scheduler v c). Proof. frame_field. Qed.
Lemma frame_set_etcdCli v c : ddlFrame c (set_etcdCli v c). Proof. frame_field. Qed.
Lemma frame_set_taskStatus v c : ddlFrame c (set_taskStatus v c). Proof. frame_field. Qed.
Lemma frame_set_todoAddOperations v c : ddlFrame c (set_todoAddOperations v c).
Proof. frame_field. Qed.
Lemma frame_set_lastRebanlanceTime v c : ddlFrame c (set_lastRebanlanceTime v c).
Proof. frame_field. Qed.
Lemma frame_logCall k c : isBalanceCall k → ddlFrame c (logCall k c).
Proof.
  intros Hk. unfold ddlFrame; simpl. split; [| repeat split; reflexivity].
  exists [k]. split; [reflexivity | by constructor].
Qed.

Lemma frame_logCall_put cid st c : ddlFrame c (logCall (CallAtomicPutTaskStatus cid st) c).
Proof. by apply frame_logCall. Qed.
Lemma frame_logCall_distribute o c : ddlFrame c (logCall (CallDistributeTables o) c).
Proof. by apply frame_logCall. Qed.
Lemma frame_logCall_rebalance ts c : ddlFrame c (logCall (CallCalRebalanceOperates ts) c).
Proof. by apply frame_logCall. Qed.

Create HintDb frame.
#[local] Hint Resolve ddlFrame_refl frame_set_schemas frame_set_tables frame_set_partitions
  frame_set_orphanTables frame_set_toCleanTables frame_set_scheduler frame_set_etcdCli
  frame_set_taskStatus frame_set_todoAddOperations frame_set_lastRebanlanceTime
  frame_logCall_put frame_logCall_distribute frame_logCall_rebalance : frame.

(** Chain frame steps along a composition of updates. *)
Ltac frame_chain :=
  repeat first
    [ apply ddlFrame_refl
    | assumption
    | solve [auto with frame]
    | eapply ddlFrame_trans; [| solve [auto with frame] ] ].

Lemma foldl_frame {A} (f : CF → A → CF) (l : list A) c :
  (∀ c x, ddlFrame c (f c x)) → ddlFrame c (foldl f c l).
Proof.
  intros Hf. revert c. induction l as [|x l IH]; intros c; simpl.
  - apply ddlFrame_refl.
  - eapply ddlFrame_trans; [apply Hf | apply IH].
Qed.

Lemma removeFunc_frame ts c id : ddlFrame c (removeFunc ts c id).
Proof. unfold removeFunc. destruct (orphanTables c !! id); auto with frame. Qed.

Lemma removeTable_frame sid tid ts c : ddlFrame c (removeTable sid tid ts c).
Proof.
  unfold removeTable.
  set (c1 := match schemas c !! sid with Some _ => _ | None => _ end).
  assert (ddlFrame c c1) as H1 by (subst c1; destruct (schemas c !! sid); auto with frame).
  set (c2 := set_tables _ c1).
  assert (ddlFrame c c2) as H2 by (eapply ddlFrame_trans; [exact H1 | subst c2; auto with frame]).
  destruct (partitions c2 !! tid).
  - eapply ddlFrame_trans; [| apply frame_set_partitions].
    eapply ddlFrame_trans; [exact H2 |]. apply foldl_frame. intros; apply removeFunc_frame.
  - eapply ddlFrame_trans; [exact H2 | apply removeFunc_frame].
Qed.

Lemma dropSchema_frame sid ts c : ddlFrame c (dropSchema sid ts c).
Proof.
  unfold dropSchema. eapply ddlFrame_trans; [| apply frame_set_schemas].
  destruct (schemas c !! sid); [| apply ddlFrame_refl].
  apply foldl_frame. intros; apply removeTable_frame.
Qed.

Lemma addSchema_frame sid c : ddlFrame c (addSchema sid c).
Proof. unfold addSchema. destruct (schemas c !! sid); auto with frame. Qed.

Lemma addTable_frame sid tid ts table info c : ddlFrame c (addTable sid tid ts table info c).
Proof.
  unfold addTable.
  destruct (ShouldIgnoreTable _ _ _); [apply ddlFrame_refl |].
  destruct (tables c !! tid); [apply ddlFrame_refl |].
  destruct (timodel.PartitionDefinitions info).
  - eapply ddlFrame_trans; [| apply foldl_frame].
    + frame_chain.
    + intros c' x. frame_chain.
  - frame_chain.
Qed.

Lemma applyJob_frame job c : ddlFrame c (applyJob job c).1.
Proof.
  unfold applyJob.
  destruct (timodel.binlogTableInfo (timodel.BinlogInfo job)) as [ti|];
    [destruct (IsIneligibleTableID (schema c) (timodel.tiID ti));
       [simpl; destruct (tables c !! timodel.tiID ti);
          [apply removeTable_frame | apply ddlFrame_refl] |] |];
    destruct (timodel.jobType job); simpl;
    repeat match goal with
           | |- context [match GetTableNameByID ?s ?i with _ => _ end] =>
               destruct (GetTableNameByID s i); simpl
           end;
    auto using ddlFrame_refl, addSchema_frame, dropSchema_frame, removeTable_frame,
      addTable_frame, frame_set_tables;
    try (eapply ddlFrame_trans; [apply removeTable_frame | apply addTable_frame]).
Qed.

Lemma updateTaskStatusLoop_frame l c : ddlFrame c (updateTaskStatusLoop l c).1.
Proof.
  revert c. induction l as [|[cid st] l IH]; intros c; simpl.
  - apply ddlFrame_refl.
  - destruct (AtomicPutTaskStatus (etcdCli c) cid (putTablesAndOperation st)) as [cli [err|new]];
      simpl.
    + frame_chain.
    + eapply ddlFrame_trans; [| apply IH]. frame_chain.
Qed.

Lemma cleanStep_frame (acc : CF * gmap CaptureID model.TaskStatus * gset TableID) kv :
  ddlFrame acc.1.1 (cleanStep acc kv).1.1.
Proof.
  destruct acc as [[c nts] cleaned], kv as [id ts]. simpl.
  destruct (findTaskStatusWithTable (taskStatus c) id) as [[cid st]|]; simpl; auto with frame.
Qed.

Lemma foldl_cleanStep_frame l (acc : CF * gmap CaptureID model.TaskStatus * gset TableID) :
  ddlFrame acc.1.1 (foldl cleanStep acc l).1.1.
Proof.
  revert acc. induction l as [|kv l IH]; intros acc; simpl.
  - apply ddlFrame_refl.
  - eapply ddlFrame_trans; [apply cleanStep_frame | apply IH].
Qed.

Lemma updateTaskStatus_frame nts c : ddlFrame c (updateTaskStatus nts c).1.
Proof. apply updateTaskStatusLoop_frame. Qed.

Lemma commitBalance_frame nts cleaned added c :
  ddlFrame c (commitBalance nts cleaned added c).1.
Proof.
  unfold commitBalance.
  pose proof (updateTaskStatus_frame nts c) as Hupd.
  destruct (updateTaskStatus nts c) as [c1 err]. simpl in Hupd.
  destruct err; simpl; frame_chain.
Qed.

Lemma balanceOrphanTables_frame cyclic captures c :
  ddlFrame c (balanceOrphanTables cyclic captures c).1.
Proof.
  unfold balanceOrphanTables.
  destruct (decide (size captures = 0)); [apply ddlFrame_refl |].
  destruct (someCaptureUnapplied (taskStatus c)); [apply ddlFrame_refl |].
  set (c0 := set_scheduler _ c).
  pose proof (foldl_cleanStep_frame (map_to_list (toCleanTables c0)) (c0, ∅, ∅)) as Hclean.
  destruct (foldl cleanStep (c0, ∅, ∅) (map_to_list (toCleanTables c0))) as [[c1 nts] cleaned].
  simpl in Hclean.
  assert (ddlFrame c c1) as H1
    by (eapply ddlFrame_trans; [subst c0; apply frame_set_scheduler | exact Hclean]).
  destruct (cyclicEnabled c1).
  - destruct (foldl _ _ _) as [[nts' added]|]; [| exact H1].
    eapply ddlFrame_trans; [exact H1 | apply commitBalance_frame].
  - destruct (DistributeTables (scheduler c1) (orphanTables c1)) as [sched ops].
    destruct (foldl _ _ _) as [nts' added].
    eapply ddlFrame_trans; [| apply commitBalance_frame]. frame_chain.
Qed.

Lemma resetWorkloadsLoop_frame l c : ddlFrame c (resetWorkloadsLoop l c).1.
Proof.
  revert c. induction l as [|[cid ci] l IH]; intros c; simpl.
  - apply ddlFrame_refl.
  - destruct (GetTaskWorkload (etcdCli c) cid); simpl; [apply ddlFrame_refl |].
    eapply ddlFrame_trans; [| apply IH]. frame_chain.
Qed.

Lemma rebanlanceTables_frame captures b now c :
  ddlFrame c (rebanlanceTables captures b now c).1.
Proof.
  unfold rebanlanceTables.
  destruct (decide (size captures = 0)); [apply ddlFrame_refl |].
  destruct (cyclicEnabled c); [apply ddlFrame_refl |].
  destruct (someCaptureUnapplied (taskStatus c)); [apply ddlFrame_refl |].
  destruct (negb (size (todoAddOperations c) =? 0)).
  - pose proof (updateTaskStatus_frame (applyOperation c ∅ (todoAddOperations c)) c) as Hupd.
    destruct (updateTaskStatus _ c) as [c1 err]. simpl in Hupd.
    destruct err; simpl; frame_chain.
  - destruct (negb b && _); [apply ddlFrame_refl |].
    pose proof (resetWorkloadsLoop_frame (map_to_list captures) (set_lastRebanlanceTime now c))
      as Hreset.
    destruct (resetWorkloadsLoop _ _) as [c1 err]. simpl in Hreset.
    assert (ddlFrame c c1) as H1 by (eapply ddlFrame_trans; [| exact Hreset]; frame_chain).
    destruct err; simpl; try exact H1.
    destruct (CalRebalanceOperates _ _ _) as [sched [dels adds]].
    eapply ddlFrame_trans; [| apply updateTaskStatus_frame]. frame_chain.
Qed.

Lemma tryBalance_frame cyclic captures b now c :
  ddlFrame c (tryBalance cyclic captures b now c).1.
Proof.
  unfold tryBalance.
  pose proof (balanceOrphanTables_frame cyclic captures c) as H1.
  destruct (balanceOrphanTables cyclic captures c) as [c1 err]. simpl in H1.
  destruct err; simpl; try exact H1.
  eapply ddlFrame_trans; [exact H1 | apply rebanlanceTables_frame].
Qed.

(** *** Balancing is skipped while an operation is pending *)

Lemma SomeOperationsUnapplied_pending (st : model.TaskStatus) :
  model.SomeOperationsUnapplied st = true
  ↔ ∃ id o, model.Operation st !! id = Some o ∧ model.applied o = model.Pending.
Proof.
  unfold model.SomeOperationsUnapplied. rewrite existsb_exists. split.
  - intros ([id o] & Hin & Hp). exists id, o. split.
    + apply elem_of_map_to_list. by apply list_elem_of_In.
    + unfold model.isPending in Hp. simpl in Hp. by destruct (model.applied o).
  - intros (id & o & Hl & Hp). exists (id, o). split.
    + apply list_elem_of_In. by apply elem_of_map_to_list.
    + unfold model.isPending. simpl. by rewrite Hp.
Qed.

Lemma someCaptureUnapplied_true (infos : gmap CaptureID model.TaskStatus) cid st :
  infos !! cid = Some st → model.SomeOperationsUnapplied st = true →
  someCaptureUnapplied infos = true.
Proof.
  intros Hl Hu. unfold someCaptureUnapplied. apply existsb_exists.
  exists (cid, st). split; [| exact Hu].
  apply list_elem_of_In. by apply elem_of_map_to_list.
Qed.

(** C8.  When some capture's TaskStatus holds an operation that is still
    pending, [balanceOrphanTables] and [rebanlanceTables] return nil and
    leave the changefeed exactly as it was: no task status is written, the
    scheduler is not asked for moves, orphanTables and toCleanTables are
    not consumed.  With cyclic replication enabled [rebanlanceTables]
    returns nil with no state change whatever its arguments. *)
Theorem balancing_skipped_while_pending
  (cyclic : CyclicPkg) (captures : gmap CaptureID CaptureInfo)
  (rebanlanceNow : bool) (now : Z) c
  (Hpending : ∃ cid st id o,
      taskStatus c !! cid = Some st ∧ model.Operation st !! id = Some o
      ∧ model.applied o = model.Pending) :
  balanceOrphanTables cyclic captures c = (c, Nil)
  ∧ rebanlanceTables captures rebanlanceNow now c = (c, Nil)
  ∧ (∀ c' captures' rebanlanceNow' now',
       cyclicEnabled c' = true →
       rebanlanceTables captures' rebanlanceNow' now' c' = (c', Nil)).
Proof.
  destruct Hpending as (cid & st & id & o & Hst & Hop & Hp).
  assert (someCaptureUnapplied (taskStatus c) = true) as Hsome.
  { eapply someCaptureUnapplied_true; [exact Hst |].
    apply SomeOperationsUnapplied_pending. eauto. }
  split; [| split].
  - unfold balanceOrphanTables. destruct (decide (size captures = 0)); [done |].
    by rewrite Hsome.
  - unfold rebanlanceTables. destruct (decide (size captures = 0)); [done |].
    destruct (cyclicEnabled c); [done |]. by rewrite Hsome.
  - intros c' captures' b' now' Hcyc. unfold rebanlanceTables.
    destruct (decide (size captures' = 0)); [done |]. by rewrite Hcyc.
Qed.

(** *** The gate of handleDDL *)

Lemma ddlState_eqb_eq a b : model.ddlState_eqb a b = true ↔ a = b.
Proof. destruct a, b; simpl; split; congruence. Qed.

Lemma ddlState_eqb_neq a b : model.ddlState_eqb a b = false ↔ a ≠ b.
Proof. destruct a, b; simpl; split; congruence. Qed.

(** With positions reported only by captures that hold a task status, the
    comparison of the two counts says that every such capture reported. *)
Lemma counts_all_reported
  (statuses : gmap CaptureID model.TaskStatus) (positions : gmap CaptureID model.TaskPosition) :
  dom positions ⊆ dom statuses →
  (size statuses ≤ size positions
   ↔ ∀ cid, is_Some (statuses !! cid) → is_Some (positions !! cid)).
Proof.
  intros Hsub. rewrite <- !size_dom. split.
  - intros Hle cid Hin.
    assert (dom positions = dom statuses) as Heq.
    { apply set_eq. intros x. split; [apply Hsub |].
      intros Hx. destruct (decide (x ∈ dom positions)) as [|Hnot]; [done |].
      exfalso.
      assert (size (dom positions) < size (dom statuses)); [| lia].
      apply subset_size. split; [done |]. intros Hsub'. apply Hnot, Hsub', Hx. }
    apply elem_of_dom. rewrite Heq. by apply elem_of_dom.
  - intros Hall. apply subseteq_size. intros x Hx.
    apply elem_of_dom. apply Hall. by apply elem_of_dom.
Qed.

(** C4 (amended).  [handleDDL] goes on to execute the head job of
    ddlJobHistory only when the state is WaitToExecDDL, the reported
    positions are at least as many as the task statuses, and
    Status.checkpointTs equals the finishedTs of the head job: it then
    first applies that job to the schema snapshot.  In every other case it
    returns nil and leaves the changefeed as it was: the schema snapshot,
    the ddl state and the call log (so also the sink) are untouched.  The
    comparison of the two counts says that every capture with a task
    status has reported a position when the positions come only from such
    captures; the live captures handed to [handleDDL] are not part of the
    test.  The hypothesis is the invariant the code asserts with
    log.Fatal: WaitToExecDDL comes with a job. *)
Theorem handleDDL_gate (cyclic : CyclicPkg) (captures : gmap CaptureID CaptureInfo) c
  (Hjob : ddlState c = model.ChangeFeedWaitToExecDDL → ddlJobHistory c ≠ []) :
  (readyToExecDDL c = false → handleDDL cyclic captures c = (c, Nil))
  ∧ (readyToExecDDL c = true →
     ∃ job rest more,
       ddlJobHistory c = job :: rest
       ∧ calls (handleDDL cyclic captures c).1
         = calls c ++ CallSchemaHandleDDL job :: more)
  ∧ (dom (taskPositions c) ⊆ dom (taskStatus c) →
     (size (taskStatus c) ≤ size (taskPositions c)
      ↔ ∀ cid, is_Some (taskStatus c !! cid) → is_Some (taskPositions c !! cid))).
Proof.
  rewrite (assoc and). split; [| apply counts_all_reported].
  unfold readyToExecDDL, handleDDL.
  destruct (model.ddlState_eqb (ddlState c) model.ChangeFeedWaitToExecDDL) eqn:Hst; simpl.
  2: { split; [done | discriminate]. }
  apply ddlState_eqb_eq in Hst. specialize (Hjob Hst).
  destruct (ddlJobHistory c) as [|job rest] eqn:Hhist; [done |].
  rewrite Nat.ltb_antisym.
  destruct (size (taskStatus c) <=? size (taskPositions c)); simpl.
  2: { split; [done | discriminate]. }
  destruct (model.CheckpointTs (status c) =? timodel.FinishedTS (timodel.BinlogInfo job))%N;
    simpl.
  2: { split; [done | discriminate]. }
  split; [discriminate |]. intros _. exists job, rest.
  match goal with
  | |- ∃ more, _ ∧ calls ?X = _ =>
      enough (∃ more, calls X = calls c ++ CallSchemaHandleDDL job :: more) as [more Hm];
      [by exists more |]
  end.
  destruct (HandleDDL (schema c) job) as [sch err].
  set (c1 := logCall (CallSchemaHandleDDL job) (set_schema sch c)).
  assert (calls c1 = calls c ++ [CallSchemaHandleDDL job]) as Hc1 by reflexivity.
  assert (∀ c2 : CF, ddlFrame c1 c2 →
            ∃ more, calls c2 = calls c ++ CallSchemaHandleDDL job :: more) as Hext.
  { intros c2 [(more & E & _) _]. exists more. by rewrite E, Hc1, <- app_assoc. }
  destruct err as [e|]; [exact (Hext c1 (ddlFrame_refl c1)) |].
  destruct (FillSchemaName _ job) as [e|name];
    [exact (Hext c1 (ddlFrame_refl c1)) |].
  set (job' := timodel.setSchemaName name job).
  set (c2 := set_ddlState _ (set_ddlJobHistory _ c1)).
  assert (calls c2 = calls c1) as Hc2 by reflexivity.
  pose proof (applyJob_frame job' c2) as Happly.
  destruct (applyJob job' c2) as [c3 r]. simpl in Happly.
  assert (∃ more, calls c3 = calls c ++ CallSchemaHandleDDL job :: more) as [m3 Hc3].
  { destruct Happly as [(more & E & _) _]. exists more.
    by rewrite E, Hc2, Hc1, <- app_assoc. }
  destruct r as [[|]|e|]; simpl; try (by exists m3).
  pose proof (balanceOrphanTables_frame cyclic captures c3) as Hbal.
  destruct (balanceOrphanTables cyclic captures c3) as [c4 err]. simpl in Hbal.
  assert (∃ more, calls c4 = calls c ++ CallSchemaHandleDDL job :: more) as [m4 Hc4].
  { destruct Hbal as [(more & E & _) _]. exists (m3 ++ more).
    by rewrite E, Hc3, <- app_assoc. }
  destruct err; simpl; try (by exists m4).
  destruct (negb (cyclicEnabled c4) || cyclicSyncDDL c4).
  - destruct (EmitDDLEvent (sink c4) (FromJob job')) as [snk [e|]]; simpl.
    + exists (m4 ++ [CallSinkEmitDDLEvent (FromJob job')]).
      by rewrite Hc4, <- app_assoc.
    + destruct (negb (model.ddlState_eqb (ddlState c4) model.ChangeFeedExecDDL)); simpl;
        (exists (m4 ++ [CallSinkEmitDDLEvent (FromJob job')]); by rewrite Hc4, <- app_assoc).
  - destruct (negb (model.ddlState_eqb (ddlState c4) model.ChangeFeedExecDDL)); simpl;
      by exists m4.
Qed.

(** *** The outcome of the sink call in handleDDL *)




(** *** Timestamp computation *)

Lemma clamp_min m x : clamp m x = N.min m x.
Proof. unfold clamp. destruct (N.ltb_spec x m); lia. Qed.

Lemma minOf_app a l1 l2 : minOf a (l1 ++ l2) = minOf (minOf a l1) l2.
Proof. unfold minOf. apply foldl_app. Qed.

Lemma minOf_le_start a l : (minOf a l <= a)%N.
Proof.
  revert a. induction l as [|x l IH]; intros a; unfold minOf in *; simpl; [lia |].
  specialize (IH (N.min a x)). lia.
Qed.

(** [minOf] is the greatest lower bound of the start value and the list,
    and it is one of them. *)
Lemma minOf_glb a l :
  (minOf a l <= a)%N ∧ Forall (fun x => (minOf a l <= x)%N) l
  ∧ (minOf a l = a ∨ minOf a l ∈ l).
Proof.
  split; [apply minOf_le_start |].
  revert a. induction l as [|x l IH]; intros a.
  - split; [constructor | by left].
  - change (minOf a (x :: l)) with (minOf (N.min a x) l).
    destruct (IH (N.min a x)) as [Hall Hmem]. split.
    + constructor; [pose proof (minOf_le_start (N.min a x) l); lia | exact Hall].
    + destruct Hmem as [Heq | Hin].
      * rewrite Heq. destruct (N.min_spec a x) as [[_ ->] | [_ ->]];
          [by left | right; constructor].
      * right. by constructor.
Qed.

Lemma clampPositions_minOf l r cp :
  clampPositions l (r, cp)
  = (minOf r (map (fun kv : CaptureID * model.TaskPosition => model.ResolvedTs kv.2) l),
     minOf cp (map (fun kv : CaptureID * model.TaskPosition => model.CheckPointTs kv.2) l)).
Proof.
  revert r cp. induction l as [|kv l IH]; intros r cp; [done |].
  unfold clampPositions in *. simpl. rewrite !clamp_min. apply IH.
Qed.

Lemma clampApplied_minOf l r cp :
  clampApplied l (r, cp)
  = (minOf r (map (fun kv : CaptureID * model.TaskStatus => model.AppliedTs kv.2) l),
     minOf cp (map (fun kv : CaptureID * model.TaskStatus => model.AppliedTs kv.2) l)).
Proof.
  revert r cp. induction l as [|kv l IH]; intros r cp; [done |].
  unfold clampApplied in *. simpl. rewrite !clamp_min. apply IH.
Qed.

Lemma clampTables_minOf l r cp :
  clampTables l (r, cp) = (minOf r (map snd l), minOf cp (map snd l)).
Proof.
  revert r cp. induction l as [|kv l IH]; intros r cp; [done |].
  unfold clampTables in *. simpl. rewrite !clamp_min. apply IH.
Qed.

Lemma scanMinima_minOf c :
  scanMinima c
  = (minOf (targetTs c) (resolvedCandidates c),
     minOf (if size (taskPositions c) =? 0 then model.cfResolvedTs (status c) else targetTs c)
           (checkpointCandidates c)).
Proof.
  unfold scanMinima, resolvedCandidates, checkpointCandidates.
  rewrite !minOf_app.
  destruct (size (taskPositions c) =? 0) eqn:Hsz.
  - apply Nat.eqb_eq, map_size_empty_iff in Hsz. rewrite Hsz, map_to_list_empty. simpl.
    by rewrite clampApplied_minOf, !clampTables_minOf.
  - by rewrite clampPositions_minOf, clampApplied_minOf, !clampTables_minOf.
Qed.

Lemma pullDDLJob_keeps c :
  status (pullDDLJob c).1 = status c ∧ ddlState (pullDDLJob c).1 = ddlState c
  ∧ ddlExecutedTs (pullDDLJob c).1 = ddlExecutedTs c
  ∧ (pullDDLJob c).2 ≠ Fatal.
Proof.
  unfold pullDDLJob. destruct (PullDDL (ddlHandler c)) as [h [e|[ts jobs]]]; simpl; auto.
Qed.

Lemma pullIfBehind_keeps c :
  status (pullIfBehind c).1 = status c ∧ ddlState (pullIfBehind c).1 = ddlState c
  ∧ ddlExecutedTs (pullIfBehind c).1 = ddlExecutedTs c
  ∧ (pullIfBehind c).2 ≠ Fatal.
Proof.
  unfold pullIfBehind. destruct (_ <? _)%N; [apply pullDDLJob_keeps | done].
Qed.

Lemma calcResolvedTs_guarded c :
  (ddlState c ≠ model.ChangeFeedSyncDML ∧ ddlState c ≠ model.ChangeFeedWaitToExecDDL)
  ∨ size (taskPositions c) < size (taskStatus c) →
  calcResolvedTs c = (c, Nil).
Proof.
  unfold calcResolvedTs. intros [[H1 H2] | Hlt].
  - apply ddlState_eqb_neq in H1, H2. by rewrite H1, H2.
  - apply Nat.ltb_lt in Hlt. rewrite Hlt. by destruct (_ && _).
Qed.

(** The run of [calcResolvedTs] past its guards. *)
Lemma calcResolvedTs_run c :
  ddlState c = model.ChangeFeedSyncDML ∨ ddlState c = model.ChangeFeedWaitToExecDDL →
  size (taskStatus c) ≤ size (taskPositions c) →
  match (pullIfBehind c).2 with
  | Nil =>
      let '(minResolvedTs, minCheckpointTs, state, history) := calcResolvedTs_amended c in
      let c' := (calcResolvedTs c).1 in
      model.cfResolvedTs (status c') = N.max (model.cfResolvedTs (status c)) minResolvedTs
      ∧ model.CheckpointTs (status c') = N.max (model.CheckpointTs (status c)) minCheckpointTs
      ∧ ddlState c' = state
      ∧ ddlJobHistory c' = history
  | _ => calcResolvedTs c = pullIfBehind c
  end.
Proof.
  intros Hst Hcount.
  pose proof (pullIfBehind_keeps c) as (Hks & Hkd & Hke & Hnf).
  unfold calcResolvedTs, calcResolvedTs_amended.
  replace (negb (model.ddlState_eqb (ddlState c) model.ChangeFeedSyncDML)
           && negb (model.ddlState_eqb (ddlState c) model.ChangeFeedWaitToExecDDL))
    with false by (destruct Hst as [-> | ->]; reflexivity).
  replace (size (taskPositions c) <? size (taskStatus c)) with false
    by (symmetry; apply Nat.ltb_ge; lia).
  rewrite scanMinima_minOf.
  change (if (ddlResolvedTs c <? minOf (targetTs c) (resolvedCandidates c))%N
          then pullDDLJob c else (c, Nil)) with (pullIfBehind c).
  destruct (pullIfBehind c) as [c1 err]. simpl in *.
  destruct err; [| reflexivity | done].
  rewrite !clamp_min.
  set (minR := N.min (minOf (targetTs c) (resolvedCandidates c)) (ddlResolvedTs c1)).
  set (minC0 := minOf _ (checkpointCandidates c)).
  set (hist := dropExecuted (ddlExecutedTs c1) (ddlJobHistory c1)).
  set (c2 := set_ddlJobHistory hist c1).
  assert (∀ (c3 : CF) (r : Ts),
            status c3 = status c →
            let c4 := if (model.cfResolvedTs (status c3) <? r)%N
                      then set_status (set_ResolvedTs r (status c3)) c3 else c3 in
            let c' := (if (model.CheckpointTs (status c4) <? clamp minC0 r)%N
                       then
                         let c5 := set_status (set_CheckpointTs (clamp minC0 r) (status c4)) c4 in
                         if negb (model.ddlState_eqb (ddlState c5) model.ChangeFeedWaitToExecDDL)
                         then
                           let '(snk, err) := EmitCheckpointTs (sink c5) (clamp minC0 r) in
                           let c6 := logCall (CallSinkEmitCheckpointTs (clamp minC0 r))
                                       (set_sink snk c5) in
                           match err with Some e => (c6, Failed e) | None => (c6, Nil) end
                         else (c5, Nil)
                       else (c4, Nil)).1 in
            model.cfResolvedTs (status c') = N.max (model.cfResolvedTs (status c)) r
            ∧ model.CheckpointTs (status c') = N.max (model.CheckpointTs (status c)) (N.min minC0 r)
            ∧ ddlState c' = ddlState c3 ∧ ddlJobHistory c' = ddlJobHistory c3) as Htail.
  { intros c3 r Hs3. rewrite <- Hs3, !clamp_min.
    destruct (N.ltb_spec (model.cfResolvedTs (status c3)) r) as [Hr | Hr]; simpl;
      destruct (N.ltb_spec (model.CheckpointTs (status c3)) (N.min minC0 r)) as [Hc | Hc];
      simpl;
      repeat match goal with
             | |- context [negb ?b] => destruct b; simpl
             | |- context [EmitCheckpointTs ?k ?t] =>
                 destruct (EmitCheckpointTs k t) as [? [?|]]; simpl
             end;
      repeat split; lia. }
  destruct hist as [|job hist'] eqn:Hh.
  - exact (Htail c2 minR Hks).
  - simpl. destruct (timodel.FinishedTS (timodel.BinlogInfo job) <? minR)%N.
    + exact (Htail (set_ddlState model.ChangeFeedWaitToExecDDL c2) _ Hks).
    + exact (Htail c2 minR Hks).
Qed.

(** C1 (amended).  In state SyncDML or WaitToExecDDL, with at least as many
    positions reported as there are task statuses and the DDL pull (when
    one is needed) succeeding, [calcResolvedTs] computes minResolvedTs as
    the minimum of targetTs, the resolvedTs of every position, the
    applied-ts of every task status, the startTs of every orphan table and
    the targetTs of every table to clean, clamped to ddlResolvedTs after
    the pull; minCheckpointTs likewise from the checkpointTs values,
    starting from Status.resolvedTs instead of targetTs when no position is
    reported.  Jobs with finishedTs ≤ ddlExecutedTs are dropped; if the
    head that remains has finishedTs strictly below minResolvedTs, then
    minResolvedTs becomes that finishedTs and the state WaitToExecDDL.
    minCheckpointTs is capped by minResolvedTs, and each stored timestamp
    becomes the larger of its old value and the computed minimum. *)
Theorem calcResolvedTs_minima c
  (Hstate : ddlState c = model.ChangeFeedSyncDML
            ∨ ddlState c = model.ChangeFeedWaitToExecDDL)
  (Hcount : size (taskStatus c) ≤ size (taskPositions c))
  (Hpull : (pullIfBehind c).2 = Nil) :
  let '(minResolvedTs, minCheckpointTs, state, history) := calcResolvedTs_amended c in
  let c' := (calcResolvedTs c).1 in
  model.cfResolvedTs (status c') = N.max (model.cfResolvedTs (status c)) minResolvedTs
  ∧ model.CheckpointTs (status c') = N.max (model.CheckpointTs (status c)) minCheckpointTs
  ∧ ddlState c' = state
  ∧ ddlJobHistory c' = history.
Proof.
  pose proof (calcResolvedTs_run c Hstate Hcount) as Hrun.
  rewrite Hpull in Hrun. exact Hrun.
Qed.

(** *** Monotone status *)

Lemma handleDDL_keeps_status cyclic captures c :
  status (handleDDL cyclic captures c).1 = status c.
Proof.
  unfold handleDDL.
  destruct (negb _); [done |].
  destruct (ddlJobHistory c) as [|job rest]; [done |].
  destruct (_ <? _); [done |].
  destruct (negb _); [done |].
  destruct (HandleDDL (schema c) job) as [sch [e|]]; [done |].
  destruct (FillSchemaName _ job) as [e|name]; [done |].
  set (job' := timodel.setSchemaName name job).
  set (c2 := set_ddlState _ _).
  assert (status c2 = status c) as H2 by reflexivity.
  pose proof (applyJob_frame job' c2) as [_ [H3 _]].
  destruct (applyJob job' c2) as [c3 r]. simpl in H3.
  destruct r as [[|]|e|]; simpl; try congruence.
  pose proof (balanceOrphanTables_frame cyclic captures c3) as [_ [H4 _]].
  destruct (balanceOrphanTables cyclic captures c3) as [c4 err]. simpl in H4.
  destruct err; simpl; try congruence.
  destruct (negb (cyclicEnabled c4) || cyclicSyncDDL c4).
  - destruct (EmitDDLEvent _ _) as [snk [e|]]; simpl; [congruence |].
    destruct (negb _); simpl; congruence.
  - destruct (negb _); simpl; congruence.
Qed.

Lemma calcResolvedTs_status c :
  let c' := (calcResolvedTs c).1 in
  (model.cfResolvedTs (status c) <= model.cfResolvedTs (status c'))%N
  ∧ (model.CheckpointTs (status c) <= model.CheckpointTs (status c'))%N
  ∧ ((model.CheckpointTs (status c) <= model.cfResolvedTs (status c))%N →
     (model.CheckpointTs (status c') <= model.cfResolvedTs (status c'))%N).
Proof.
  cbv zeta.
  assert ((ddlState c = model.ChangeFeedSyncDML
           ∨ ddlState c = model.ChangeFeedWaitToExecDDL)
          ∨ (ddlState c ≠ model.ChangeFeedSyncDML
             ∧ ddlState c ≠ model.ChangeFeedWaitToExecDDL)) as [Hst | Hst]
    by (destruct (ddlState c); (left; by auto) || (right; by split)).
  2: { rewrite calcResolvedTs_guarded; [simpl; lia | by left]. }
  destruct (decide (size (taskStatus c) ≤ size (taskPositions c))) as [Hc | Hc].
  2: { rewrite calcResolvedTs_guarded; [simpl; lia | right; lia]. }
  pose proof (calcResolvedTs_run c Hst Hc) as Hrun.
  pose proof (pullIfBehind_keeps c) as (Hks & _).
  destruct (pullIfBehind c).2 eqn:Hp.
  - unfold calcResolvedTs_amended in Hrun.
    destruct (dropExecuted _ _) as [|job ?];
      [| destruct (_ <? _)%N]; simpl in Hrun;
      destruct Hrun as (-> & -> & _); lia.
  - rewrite Hrun, Hks. simpl. lia.
  - rewrite Hrun, Hks. simpl. lia.
Qed.

Lemma ownerStep_status (c1 c2 : CF) :
  ownerStep c1 c2 →
  (model.cfResolvedTs (status c1) <= model.cfResolvedTs (status c2))%N
  ∧ (model.CheckpointTs (status c1) <= model.CheckpointTs (status c2))%N
  ∧ ((model.CheckpointTs (status c1) <= model.cfResolvedTs (status c1))%N →
     (model.CheckpointTs (status c2) <= model.cfResolvedTs (status c2))%N).
Proof.
  intros [infos positions c | cyclic captures b now c | cyclic captures c | c | h cli c].
  - simpl. lia.
  - destruct (tryBalance_frame cyclic captures b now c) as [_ [-> _]]. lia.
  - rewrite handleDDL_keeps_status. lia.
  - apply calcResolvedTs_status.
  - simpl. lia.
Qed.

(** C2.  Along any sequence of owner steps of a changefeed,
    Status.resolvedTs and Status.checkpointTs never decrease, and
    checkpointTs ≤ resolvedTs, true at the start, stays true; a step that
    changes a stored timestamp strictly increases it, so a write happens
    only for a strictly greater value. *)
Theorem status_monotone (c c' : CF)
  (Hstart : (model.CheckpointTs (status c) <= model.cfResolvedTs (status c))%N)
  (Hrun : rtc ownerStep c c') :
  (model.cfResolvedTs (status c) <= model.cfResolvedTs (status c'))%N
  ∧ (model.CheckpointTs (status c) <= model.CheckpointTs (status c'))%N
  ∧ (model.CheckpointTs (status c') <= model.cfResolvedTs (status c'))%N
  ∧ (∀ c'', ownerStep c' c'' →
       (model.cfResolvedTs (status c'') ≠ model.cfResolvedTs (status c') →
        (model.cfResolvedTs (status c') < model.cfResolvedTs (status c''))%N)
       ∧ (model.CheckpointTs (status c'') ≠ model.CheckpointTs (status c') →
          (model.CheckpointTs (status c') < model.CheckpointTs (status c''))%N)).
Proof.
  assert ((model.cfResolvedTs (status c) <= model.cfResolvedTs (status c'))%N
          ∧ (model.CheckpointTs (status c) <= model.CheckpointTs (status c'))%N
          ∧ (model.CheckpointTs (status c') <= model.cfResolvedTs (status c'))%N)
    as (H1 & H2 & H3).
  { induction Hrun as [c | c1 c2 c3 Hstep _ IH].
    - lia.
    - destruct (ownerStep_status _ _ Hstep) as (Ha & Hb & Hc).
      specialize (IH (Hc Hstart)). lia. }
  repeat split; try assumption;
    destruct (ownerStep_status _ _ H) as (Ha & Hb & _); lia.
Qed.

(** *** Task-status writes of a tick that fails *)

Lemma putAll_lookup_other kv done k :
  k ∉ done.*1 → putAll kv done !! k = kv !! k.
Proof.
  revert kv. induction done as [|[k' s'] done IH]; intros kv Hk; [done |].
  simpl in *. apply not_elem_of_cons in Hk as [Hne Hk].
  unfold putAll in *. simpl. rewrite IH by done. by rewrite lookup_insert_ne.
Qed.

Lemma putAll_lookup kv done k s :
  NoDup done.*1 → (k, s) ∈ done → putAll kv done !! k = Some s.
Proof.
  revert kv. induction done as [|[k' s'] done IH]; intros kv Hnd Hin.
  - by apply elem_of_nil in Hin.
  - simpl in Hnd. apply NoDup_cons in Hnd as [Hfresh Hnd].
    apply elem_of_cons in Hin as [Heq | Hin].
    + injection Heq as <- <-. unfold putAll. simpl.
      change (foldl _ ?m done) with (putAll m done).
      rewrite putAll_lookup_other by done. apply lookup_insert_eq.
    + unfold putAll in *. simpl. by apply IH.
Qed.

Lemma putTablesAndOperation_ok status cur new :
  putTablesAndOperation status cur = inr new → new = status.
Proof.
  unfold putTablesAndOperation. destruct (model.SomeOperationsUnapplied cur); [done |].
  intros [= <-]. by destruct status.
Qed.

Lemma updateTaskStatusLoop_failed l c e :
  NoDup l.*1 →
  (updateTaskStatusLoop l c).2 = Failed e →
  ∃ done cid st rest,
    l = done ++ (cid, st) :: rest
    ∧ e = ErrOperationUnapplied
    ∧ model.SomeOperationsUnapplied
        (default model.newTaskStatus (taskStatusKV (etcdCli c) !! cid)) = true
    ∧ taskStatusKV (etcdCli (updateTaskStatusLoop l c).1)
      = putAll (taskStatusKV (etcdCli c)) done
    ∧ orphanTables (updateTaskStatusLoop l c).1 = orphanTables c
    ∧ toCleanTables (updateTaskStatusLoop l c).1 = toCleanTables c.
Proof.
  revert c. induction l as [|[k s] l IH]; intros c Hnd Hfail; [done |].
  simpl in Hnd. apply NoDup_cons in Hnd as [Hfresh Hnd].
  simpl in *. unfold AtomicPutTaskStatus in *.
  destruct (putTablesAndOperation s (default model.newTaskStatus (taskStatusKV (etcdCli c) !! k)))
    as [err | new] eqn:Hput.
  - simpl in *. exists [], k, s, l.
    unfold putTablesAndOperation in Hput.
    destruct (model.SomeOperationsUnapplied _) eqn:Hu; [| done].
    injection Hput as <-. injection Hfail as <-. by repeat split.
  - apply putTablesAndOperation_ok in Hput as ->.
    destruct (IH _ Hnd Hfail) as (done & cid & st & rest & -> & He & Hu & Hkv & Ho & Ht).
    exists ((k, s) :: done), cid, st, rest.
    split; [done |]. split; [exact He |]. split.
    + simpl in Hu. rewrite lookup_insert_ne in Hu; [exact Hu |].
      intros ->. apply Hfresh. rewrite fmap_app. apply elem_of_app. right. by left.
    + split; [exact Hkv |]. split; [exact Ho | exact Ht].
Qed.

(** The error of [updateTaskStatus] is the error of [balanceOrphanTables]. *)
Lemma commitBalance_failed nts cleaned added c e :
  (updateTaskStatus nts c).2 = Failed e →
  commitBalance nts cleaned added c = updateTaskStatus nts c.
Proof.
  unfold commitBalance. destruct (updateTaskStatus nts c) as [c1 err]. simpl.
  by intros ->.
Qed.

End OwnerFacts.

(** ** The global-resolved worker *)

Lemma forwardLoop_prefix ts closed q :
  ∃ taken rest,
    q = taken ++ rest
    ∧ (forwardLoop ts closed None q).1.1 = map dmlEntry taken
    ∧ Forall (fun t => (TS t <= ts)%N) taken
    ∧ pendingTxns (forwardLoop ts closed None q).1.2 = rest
    ∧ ((forwardLoop ts closed None q).2 = Returned →
       rest = [] ∨ ∃ t r, rest = t :: r ∧ (ts < TS t)%N).
Proof.
  induction q as [|t q IH].
  - exists [], []. simpl. repeat split; auto.
  - simpl. destruct (N.ltb_spec ts (TS t)) as [Hlt | Hle].
    + exists [], (t :: q). simpl. repeat split; eauto.
    + destruct IH as (taken & rest & -> & Hout & Hall & Hpend & Hret).
      destruct (forwardLoop ts closed None (taken ++ rest)) as [[out p'] st]. simpl in *.
      exists (t :: taken), rest. simpl. repeat split; auto. by f_equal.
Qed.

(** [Forward] sends the longest prefix of the pending transactions whose
    commit ts is at most [ts], keeps the remainder, and, when it returns,
    the remainder is empty or starts with a transaction above [ts]. *)
Lemma Forward_prefix table ts p :
  ∃ taken rest,
    pendingTxns p = taken ++ rest
    ∧ (Forward table ts p).1.1 = map dmlEntry taken
    ∧ Forall (fun t => (TS t <= ts)%N) taken
    ∧ pendingTxns (Forward table ts p).1.2 = rest
    ∧ ((Forward table ts p).2 = Returned →
       rest = [] ∨ ∃ t r, rest = t :: r ∧ (ts < TS t)%N).
Proof.
  unfold Forward, pendingTxns at 1.
  destruct (putBackTxn p) as [t|] eqn:Hpb.
  - destruct (N.ltb_spec ts (TS t)) as [Hlt | Hle].
    + exists [], (t :: outputTxn p). simpl. unfold pendingTxns. rewrite Hpb.
      repeat split; eauto.
    + destruct (forwardLoop_prefix ts (outputClosed p) (outputTxn p))
        as (taken & rest & Hq & Hout & Hall & Hpend & Hret).
      destruct (forwardLoop ts (outputClosed p) None (outputTxn p)) as [[out p'] st].
      simpl in *. exists (t :: taken), rest. rewrite Hq. simpl.
      repeat split; auto. by f_equal.
  - apply forwardLoop_prefix.
Qed.

Lemma commitOrdered_split ts taken rest :
  commitOrdered (taken ++ rest) →
  Forall (fun t => (TS t <= ts)%N) taken →
  (rest = [] ∨ ∃ t r, rest = t :: r ∧ (ts < TS t)%N) →
  resolvedTxns ts (taken ++ rest) = taken ∧ unresolvedTxns ts (taken ++ rest) = rest.
Proof.
  intros Hsorted Hall Hrest.
  assert (Forall (fun t => (ts < TS t)%N) rest) as Habove.
  { destruct Hrest as [-> | (t & r & -> & Ht)]; [constructor |].
    assert (commitOrdered (t :: r)) as Hs.
    { clear Hall. induction taken as [|x taken IH]; [exact Hsorted |].
      apply IH. simpl in Hsorted. by apply StronglySorted_inv in Hsorted as [? _]. }
    apply StronglySorted_inv in Hs as [_ Hr].
    constructor; [exact Ht |]. eapply Forall_impl; [exact Hr |]. simpl. intros; lia. }
  unfold resolvedTxns, unresolvedTxns. rewrite !List.filter_app.
  assert (List.filter (fun t => (TS t <=? ts)%N) taken = taken
          ∧ List.filter (fun t => (ts <? TS t)%N) taken = []) as [-> ->].
  { clear Hsorted. induction Hall as [|x l Hx _ [IH1 IH2]]; [done |]. simpl.
    destruct (N.leb_spec (TS x) ts); [| lia]. destruct (N.ltb_spec ts (TS x)); [lia |].
    by rewrite IH1, IH2. }
  assert (List.filter (fun t => (TS t <=? ts)%N) rest = []
          ∧ List.filter (fun t => (ts <? TS t)%N) rest = rest) as [-> ->].
  { clear Hsorted Hrest. induction Habove as [|x l Hx _ [IH1 IH2]]; [done |]. simpl.
    destruct (N.leb_spec (TS x) ts); [lia |]. destruct (N.ltb_spec ts (TS x)); [| lia].
    by rewrite IH1, IH2. }
  by rewrite app_nil_r.
Qed.

(** On a commit-ordered channel a [Forward] that returns sends exactly the
    transactions at or below [ts] and keeps exactly those above it. *)
Lemma Forward_exact table ts p :
  commitOrdered (pendingTxns p) →
  (Forward table ts p).2 = Returned →
  (Forward table ts p).1.1 = map dmlEntry (resolvedTxns ts (pendingTxns p))
  ∧ pendingTxns (Forward table ts p).1.2 = unresolvedTxns ts (pendingTxns p).
Proof.
  intros Hsorted Hret.
  destruct (Forward_prefix table ts p) as (taken & rest & Hq & Hout & Hall & Hpend & Hr).
  rewrite Hq in *.
  destruct (commitOrdered_split ts taken rest Hsorted Hall (Hr Hret)) as [-> ->].
  by split.
Qed.

Lemma interleave_skip {A} (ls : list (list A)) out :
  interleave ls out → interleave ([] :: ls) out.
Proof.
  induction 1 as [ls Hall | ls1 x l ls2 out _ IH].
  - constructor. by constructor.
  - exact (interleave_send ([] :: ls1) x l ls2 out IH).
Qed.

(** Running the senders one after the other is one of the interleavings. *)
Lemma interleave_concat {A} (ls : list (list A)) : interleave ls (concat ls).
Proof.
  induction ls as [|l ls IH]; simpl.
  - constructor. constructor.
  - induction l as [|x l IHl]; simpl.
    + by apply interleave_skip.
    + exact (interleave_send [] x l ls _ IHl).
Qed.

Lemma interleave_Forall {A} (P : A → Prop) (ls : list (list A)) out :
  interleave ls out → Forall (Forall P) ls → Forall P out.
Proof.
  induction 1 as [ls Hall | ls1 x l ls2 out _ IH]; intros HP; [constructor |].
  apply Forall_app in HP as [H1 H2]. apply Forall_cons in H2 as [Hxl H2].
  apply Forall_cons in Hxl as [Hx Hl].
  constructor; [exact Hx |]. apply IH. apply Forall_app. split; [exact H1 |].
  by constructor.
Qed.

Lemma snoc_split {A} (l pre post : list A) (x e : A) :
  l ++ [x] = pre ++ e :: post →
  (post = [] ∧ e = x ∧ l = pre) ∨ (∃ post', post = post' ++ [x] ∧ l = pre ++ e :: post').
Proof.
  destruct post as [|y post _] using rev_ind.
  - intros Heq. left. apply app_inj_tail in Heq as [-> ->]. auto.
  - intros Heq. right. exists post.
    rewrite app_comm_cons, app_assoc in Heq. apply app_inj_tail in Heq as [-> ->]. auto.
Qed.

(** The two parts make up the list; the first lies at or below [ts] and
    the second is empty or starts above it. *)
Lemma upToFirstAbove_split ts l :
  l = upToFirstAbove ts l ++ fromFirstAbove ts l
  ∧ Forall (fun t => (TS t <= ts)%N) (upToFirstAbove ts l)
  ∧ (fromFirstAbove ts l = [] ∨ ∃ t r, fromFirstAbove ts l = t :: r ∧ (ts < TS t)%N).
Proof.
  induction l as [|t l (IH1 & IH2 & IH3)]; simpl.
  - split_and!; auto.
  - destruct (N.ltb_spec ts (TS t)) as [Hlt | Hle].
    + split_and!; eauto.
    + simpl. split_and!; [by f_equal | by constructor | done].
Qed.

(** In commit order the first part is all the transactions at or below
    [ts] and the second all those above. *)
Lemma upToFirstAbove_ordered ts l :
  commitOrdered l →
  upToFirstAbove ts l = resolvedTxns ts l ∧ fromFirstAbove ts l = unresolvedTxns ts l.
Proof.
  intros Hsorted.
  destruct (upToFirstAbove_split ts l) as (Hl & Hall & Hrest).
  rewrite Hl in Hsorted.
  destruct (commitOrdered_split ts _ _ Hsorted Hall Hrest) as [H1 H2].
  rewrite <- Hl in H1, H2. by split.
Qed.

Lemma forwardLoop_upTo ts closed q :
  (forwardLoop ts closed None q).1.1 = map forwardedEntry (upToFirstAbove ts q)
  ∧ pendingTxns (forwardLoop ts closed None q).1.2 = fromFirstAbove ts q
  ∧ ((forwardLoop ts closed None q).2 = Returned
     ↔ closed = true ∨ ∃ t, t ∈ q ∧ (ts < TS t)%N)
  ∧ ((forwardLoop ts closed None q).2 = Returned ∨ (forwardLoop ts closed None q).2 = Blocked).
Proof.
  induction q as [|t q (IH1 & IH2 & IH3 & IH4)]; simpl.
  - split_and!; try done.
    + destruct closed; split; auto; try done.
      intros [? | (t & Ht & _)]; [done | by apply elem_of_nil in Ht].
    + destruct closed; auto.
  - destruct (N.ltb_spec ts (TS t)) as [Hlt | Hle]; simpl.
    + split_and!; try done; [| by left].
      split; [| done]. intros _. right. exists t. split; [by left | done].
    + destruct (forwardLoop ts closed None q) as [[out p'] st]. simpl in *.
      split_and!; try done; [by f_equal |].
      rewrite IH3. split.
      * intros [? | (t' & Ht' & Hlt)]; [by left |]. right. exists t'. split; [by right | done].
      * intros [? | (t' & [-> | Ht']%elem_of_cons & Hlt)]; [by left | lia |].
        right. by exists t'.
Qed.

(** [Forward] sends the first part, each transaction as a DMLS entry,
    keeps the second, returns exactly when the channel releases it, and
    otherwise waits. *)
Lemma Forward_upTo table ts p :
  (Forward table ts p).1.1 = map forwardedEntry (upToFirstAbove ts (pendingTxns p))
  ∧ pendingTxns (Forward table ts p).1.2 = fromFirstAbove ts (pendingTxns p)
  ∧ ((Forward table ts p).2 = Returned ↔ releases ts p)
  ∧ ((Forward table ts p).2 = Returned ∨ (Forward table ts p).2 = Blocked).
Proof.
  unfold Forward, releases.
  destruct (putBackTxn p) as [t|] eqn:Hpb.
  - assert (pendingTxns p = t :: outputTxn p) as Hpend
      by (unfold pendingTxns; by rewrite Hpb).
    rewrite !Hpend. cbn [upToFirstAbove fromFirstAbove].
    destruct (N.ltb_spec ts (TS t)) as [Hlt | Hle]; simpl.
    + split_and!; try done; [| by left].
      split; [| done]. intros _. right. exists t. split; [by left | done].
    + destruct (forwardLoop_upTo ts (outputClosed p) (outputTxn p)) as (H1 & H2 & H3 & H4).
      destruct (forwardLoop ts (outputClosed p) None (outputTxn p)) as [[out p'] st].
      simpl in *. split_and!; try done; [by f_equal |].
      rewrite H3. split.
      * intros [? | (t' & Ht' & Hlt)]; [by left |]. right. exists t'. split; [by right | done].
      * intros [? | (t' & [-> | Ht']%elem_of_cons & Hlt)]; [by left | lia |].
        right. by exists t'.
  - assert (pendingTxns p = outputTxn p) as Hpend
      by (unfold pendingTxns; by rewrite Hpb).
    rewrite !Hpend. apply forwardLoop_upTo.
Qed.

(** C3 (amended).  In a pass of the global-resolved worker for a global
    resolved ts that differs from the last one handled, whatever the
    interleaving of the goroutines: what the pass sends on resolvedEntries
    is an interleaving of the per-table outputs; the output of a table is
    its buffered transactions in front of the first one whose commitTs
    exceeds globalResolvedTs, each as a DMLS entry with the entries and
    the commit ts of the transaction, and the channel keeps the others,
    from that first one on; on a channel in commit order these are exactly
    the transactions with commitTs ≤ globalResolvedTs and exactly those
    above it.  When every channel is closed or holds a transaction above
    globalResolvedTs, the worker goes on and one Resolved(globalResolvedTs)
    entry follows the DML entries, so that every DML entry sent is
    followed by a Resolved entry whose ts is at least its commit ts.
    Otherwise the worker waits in wg.Wait with the DML entries sent and no
    Resolved entry. *)
Theorem globalResolved_pass (globalResolvedTS : Ts) (w w' : processorImpl)
  (st : workerStatus) (Hpass : workerPass globalResolvedTS w w' st) :
  lastGlobalResolvedTS w' = globalResolvedTS
  ∧ ∃ merged,
      interleave
        (map (fun kv : N * txnChannel =>
                map forwardedEntry (upToFirstAbove globalResolvedTS (pendingTxns kv.2)))
             (map_to_list (tableInputChans w)))
        merged
      ∧ Forall (fun e => Typ e = ProcessorEntryDMLS ∧ (peTS e <= globalResolvedTS)%N) merged
      ∧ (∀ table input, tableInputChans w !! table = Some input →
           ∃ input',
             tableInputChans w' !! table = Some input'
             ∧ pendingTxns input' = fromFirstAbove globalResolvedTS (pendingTxns input)
             ∧ pendingTxns input
               = upToFirstAbove globalResolvedTS (pendingTxns input)
                   ++ fromFirstAbove globalResolvedTS (pendingTxns input)
             ∧ Forall (fun t => (TS t <= globalResolvedTS)%N)
                      (upToFirstAbove globalResolvedTS (pendingTxns input))
             ∧ (fromFirstAbove globalResolvedTS (pendingTxns input) = []
                ∨ ∃ t r, fromFirstAbove globalResolvedTS (pendingTxns input) = t :: r
                         ∧ (globalResolvedTS < TS t)%N)
             ∧ (commitOrdered (pendingTxns input) →
                upToFirstAbove globalResolvedTS (pendingTxns input)
                = resolvedTxns globalResolvedTS (pendingTxns input)
                ∧ fromFirstAbove globalResolvedTS (pendingTxns input)
                  = unresolvedTxns globalResolvedTS (pendingTxns input)))
      ∧ ((∀ table input, tableInputChans w !! table = Some input →
                         releases globalResolvedTS input) →
         st = WorkerRunning
         ∧ resolvedEntries w'
           = resolvedEntries w ++ merged ++ [resolvedMarker globalResolvedTS]
         ∧ ∀ pre e post,
             merged ++ [resolvedMarker globalResolvedTS] = pre ++ e :: post →
             Typ e = ProcessorEntryDMLS →
             ∃ r, r ∈ post ∧ Typ r = ProcessorEntryResolved ∧ (peTS e <= peTS r)%N)
      ∧ (¬ (∀ table input, tableInputChans w !! table = Some input →
                           releases globalResolvedTS input) →
         st = WorkerBlocked ∧ resolvedEntries w' = resolvedEntries w ++ merged).
Proof.
  destruct Hpass as [merged Hlast Hmerge]. subst waited. split; [reflexivity |].
  set (results := map (fun kv : N * txnChannel => Forward kv.1 globalResolvedTS kv.2)
                      (map_to_list (tableInputChans w))) in *.
  assert (map (fun kv : N * txnChannel => (Forward kv.1 globalResolvedTS kv.2).1.1)
              (map_to_list (tableInputChans w))
          = map (fun kv : N * txnChannel =>
                   map forwardedEntry (upToFirstAbove globalResolvedTS (pendingTxns kv.2)))
                (map_to_list (tableInputChans w))) as Hout.
  { apply map_ext. intros [table input]. simpl. apply Forward_upTo. }
  rewrite Hout in Hmerge.
  assert (Forall (fun e => Typ e = ProcessorEntryDMLS ∧ (peTS e <= globalResolvedTS)%N) merged)
    as Hdml.
  { eapply interleave_Forall; [exact Hmerge |].
    apply Forall_forall. intros l Hl. apply list_elem_of_In, in_map_iff in Hl as ([k p] & <- & _).
    simpl. apply Forall_forall. intros e He.
    apply list_elem_of_In, in_map_iff in He as (t & <- & Ht).
    destruct (upToFirstAbove_split globalResolvedTS (pendingTxns p)) as (_ & Hall & _).
    rewrite Forall_forall in Hall. split; [done |]. apply Hall. by apply list_elem_of_In. }
  assert (existsb (fun r : list ProcessorEntry * txnChannel * forwardStatus =>
                     forwardStatus_eqb r.2 ForwardFatal) results = false) as Hfatal.
  { apply not_true_iff_false. intros ([[out p'] s] & Hin & Hs)%existsb_exists.
    apply in_map_iff in Hin as ([table input] & Heq & _). simpl in *.
    destruct (Forward_upTo table globalResolvedTS input) as (_ & _ & _ & [Hr | Hb]);
      rewrite Heq in *; simpl in *; subst s; done. }
  assert (existsb (fun r : list ProcessorEntry * txnChannel * forwardStatus =>
                     forwardStatus_eqb r.2 Blocked) results = false
          ↔ ∀ table input, tableInputChans w !! table = Some input →
                           releases globalResolvedTS input) as Hblocked.
  { split.
    - intros Hnone table input Hin.
      apply Forward_upTo with (table := table).
      destruct (Forward_upTo table globalResolvedTS input) as (_ & _ & _ & [Hr | Hb]); [done |].
      exfalso. apply not_true_iff_false in Hnone. apply Hnone.
      apply existsb_exists. exists (Forward table globalResolvedTS input). split.
      + apply in_map_iff. exists (table, input). split; [done |].
        by apply list_elem_of_In, elem_of_map_to_list.
      + by rewrite Hb.
    - intros Hall. apply not_true_iff_false.
      intros ([[out p'] s] & Hin & Hs)%existsb_exists.
      apply in_map_iff in Hin as ([table input] & Heq & Hin). simpl in *.
      apply list_elem_of_In, elem_of_map_to_list in Hin.
      apply Hall, (Forward_upTo table) in Hin. rewrite Heq in Hin. simpl in Hin.
      by subst s. }
  exists merged. unfold waitGroup. fold results. rewrite Hfatal. split_and!; try done.
  - intros table input Hin. exists (Forward table globalResolvedTS input).1.2. split_and!.
    + cbn [tableInputChans]. rewrite map_lookup_imap, Hin. reflexivity.
    + apply Forward_upTo.
    + apply upToFirstAbove_split.
    + apply upToFirstAbove_split.
    + apply upToFirstAbove_split.
    + apply upToFirstAbove_ordered.
  - intros Hall. apply Hblocked in Hall. rewrite Hall. cbn [resolvedEntries].
    split_and!; try done.
    intros pre e post Heq Hty.
    apply snoc_split in Heq as [(_ & -> & _) | (post' & -> & ->)]; [done |].
    exists (resolvedMarker globalResolvedTS). split.
    + apply elem_of_app. right. by left.
    + split; [done |]. simpl.
      apply Forall_app in Hdml as [_ Hdml]. apply Forall_cons in Hdml as [[_ He] _].
      exact He.
  - intros Hnot.
    destruct (existsb (fun r : list ProcessorEntry * txnChannel * forwardStatus =>
                         forwardStatus_eqb r.2 Blocked) results) eqn:Hb.
    + cbn [resolvedEntries]. by rewrite app_nil_r.
    + exfalso. apply Hnot. by apply Hblocked.
Qed.

(** The step function of the worker is one of the passes. *)
Lemma globalResolvedWorkerStep_pass ts w :
  lastGlobalResolvedTS w ≠ ts →
  workerPass ts w (globalResolvedWorkerStep false (ReadOk ts) w).1
                  (globalResolvedWorkerStep false (ReadOk ts) w).2.
Proof.
  intros Hne.
  pose proof (workerPass_intro ts w _ Hne (interleave_concat _)) as Hp.
  cbv zeta in Hp. revert Hp.
  unfold globalResolvedWorkerStep, waitGroup.
  destruct (N.eqb_spec (lastGlobalResolvedTS w) ts) as [|_]; [done |].
  rewrite map_map.
  destruct (existsb (fun r : list ProcessorEntry * txnChannel * forwardStatus =>
                       forwardStatus_eqb r.2 ForwardFatal) _); [by rewrite app_nil_r |].
  destruct (existsb (fun r : list ProcessorEntry * txnChannel * forwardStatus =>
                       forwardStatus_eqb r.2 Blocked) _); [by rewrite app_nil_r |].
  done.
Qed.

(** A single sender is not interleaved with anything. *)
Lemma interleave_one {A} (ls : list (list A)) (out : list A) :
  interleave ls out → ∀ l, ls = [l] → out = l.
Proof.
  induction 1 as [ls Hall | ls1 x l0 ls2 out _ IH]; intros l Heq.
  - subst ls. by apply Forall_cons in Hall as [-> _].
  - destruct ls1 as [|a ls1]; simpl in Heq.
    + injection Heq as <- ->. f_equal. by apply IH.
    + injection Heq as _ Heq. by destruct ls1.
Qed.

(** The step function of the worker is one of the rounds. *)
Lemma globalResolvedWorkerStep_round ts w w' :
  globalResolvedWorkerStep false (ReadOk ts) w = (w', WorkerRunning) →
  lastGlobalResolvedTS w ≠ ts →
  workerRound ts w w'.
Proof.
  unfold globalResolvedWorkerStep. intros Hstep Hne.
  destruct (N.eqb_spec (lastGlobalResolvedTS w) ts) as [|_]; [done |].
  destruct (existsb (fun r : list ProcessorEntry * txnChannel * forwardStatus =>
                       forwardStatus_eqb r.2 ForwardFatal) _) eqn:Hfatal; [done |].
  destruct (existsb (fun r : list ProcessorEntry * txnChannel * forwardStatus =>
                       forwardStatus_eqb r.2 Blocked) _) eqn:Hblocked; [done |].
  injection Hstep as <-.
  rewrite map_map.
  apply workerRound_intro; [exact Hne | | apply interleave_concat].
  intros table input Hin.
  assert (In (Forward table ts input)
             (map (fun kv : N * txnChannel => Forward kv.1 ts kv.2)
                  (map_to_list (tableInputChans w)))) as Hmem.
  { apply in_map_iff. exists (table, input). split; [done |].
    by apply list_elem_of_In, elem_of_map_to_list. }
  destruct ((Forward table ts input).2) eqn:Hst; [done | |].
  - exfalso. apply not_true_iff_false in Hblocked. apply Hblocked.
    apply existsb_exists. eexists. split; [exact Hmem |]. by rewrite Hst.
  - exfalso. apply not_true_iff_false in Hfatal. apply Hfatal.
    apply existsb_exists. eexists. split; [exact Hmem |]. by rewrite Hst.
Qed.

(** An unchanged global resolved ts makes the worker wait: nothing is sent. *)
Lemma globalResolvedWorkerStep_same w :
  globalResolvedWorkerStep false (ReadOk (lastGlobalResolvedTS w)) w = (w, WorkerRunning).
Proof. unfold globalResolvedWorkerStep. by rewrite N.eqb_refl. Qed.

(** ** The theorems at concrete inputs *)

Import examples.

Lemma calcResolvedTs_minima_witness :
  let c := feedWithJob model.ChangeFeedSyncDML okSink 45 in
  (ddlState c = model.ChangeFeedSyncDML ∨ ddlState c = model.ChangeFeedWaitToExecDDL)
  ∧ size (taskStatus c) ≤ size (taskPositions c)
  ∧ (pullIfBehind c).2 = Nil
  ∧ (let '(minResolvedTs, minCheckpointTs, state, history) := calcResolvedTs_amended c in
     let c' := (calcResolvedTs c).1 in
     model.cfResolvedTs (status c') = N.max (model.cfResolvedTs (status c)) minResolvedTs
     ∧ model.CheckpointTs (status c') = N.max (model.CheckpointTs (status c)) minCheckpointTs
     ∧ ddlState c' = state
     ∧ ddlJobHistory c' = history).
Proof.
  intros c.
  assert (ddlState c = model.ChangeFeedSyncDML ∨ ddlState c = model.ChangeFeedWaitToExecDDL)
    as H1 by (left; reflexivity).
  assert (size (taskStatus c) ≤ size (taskPositions c)) as H2 by (vm_compute; lia).
  assert ((pullIfBehind c).2 = Nil) as H3 by (vm_compute; reflexivity).
  exact (conj H1 (conj H2 (conj H3 (calcResolvedTs_minima c H1 H2 H3)))).
Defined.

(** C1 as stated fails.  The capture has resolved up to 50 and the head of
    ddlJobHistory has finishedTs 50: the head's finishedTs is not above the
    resolved minimum, so by the claim the state becomes WaitToExecDDL; the
    code asks for a finishedTs strictly below the minimum and stays in
    SyncDML. *)
Lemma calcResolvedTs_claimed_fails :
  let c := feedWithJob model.ChangeFeedSyncDML okSink 50 in
  ddlState c = model.ChangeFeedSyncDML
  ∧ calcResolvedTs_claimed c = (50%N, 40%N, model.ChangeFeedWaitToExecDDL)
  ∧ ddlState (calcResolvedTs c).1 = model.ChangeFeedSyncDML
  ∧ ddlState (calcResolvedTs c).1 ≠ (calcResolvedTs_claimed c).2.
Proof.
  intros c. split; [reflexivity |]. split; [vm_compute; reflexivity |].
  split; [vm_compute; reflexivity |]. vm_compute. discriminate.
Qed.

Lemma status_monotone_witness :
  let c := feedWithJob model.ChangeFeedSyncDML okSink 45 in
  let c' := (calcResolvedTs c).1 in
  (model.CheckpointTs (status c) <= model.cfResolvedTs (status c))%N
  ∧ rtc ownerStep c c'
  ∧ (model.cfResolvedTs (status c) <= model.cfResolvedTs (status c'))%N
  ∧ (model.CheckpointTs (status c) <= model.CheckpointTs (status c'))%N
  ∧ (model.CheckpointTs (status c') <= model.cfResolvedTs (status c'))%N.
Proof.
  intros c c'.
  assert ((model.CheckpointTs (status c) <= model.cfResolvedTs (status c))%N) as H1
    by (vm_compute; discriminate).
  assert (rtc ownerStep c c') as H2 by (apply rtc_once, step_calcResolvedTs).
  destruct (status_monotone c c' H1 H2) as (Ha & Hb & Hc & _).
  exact (conj H1 (conj H2 (conj Ha (conj Hb Hc)))).
Defined.

(** C3 as stated fails.  A table whose channel is open and holds nothing
    above the global resolved ts: the DML entry is sent, the worker waits,
    and no Resolved entry follows.  A table whose channel is not in commit
    order: the transaction at 5 behind the one at 20 is not sent although
    its commit ts is below the global resolved ts 10. *)
Lemma globalResolved_claimed_fails :
  (let w := cases.idleTable in
   (∃ w' st, workerPass 10 w w' st)
   ∧ ∀ w' st, workerPass 10 w w' st →
       st = WorkerBlocked
       ∧ resolvedEntries w' = [forwardedEntry (txn 5)]
       ∧ ¬ globalResolved_claimed 10 w w')
  ∧ (let w := cases.unorderedTable in
     (∃ w' st, workerPass 10 w w' st)
     ∧ ∀ w' st, workerPass 10 w w' st →
         st = WorkerRunning
         ∧ resolvedEntries w' = [resolvedMarker 10]
         ∧ resolvedTxns 10 [txn 20; txn 5] = [txn 5]
         ∧ ¬ globalResolved_claimed 10 w w').
Proof.
  split.
  - intros w. split.
    { eexists _, _. apply globalResolvedWorkerStep_pass. vm_compute. discriminate. }
    intros w' st Hpass. destruct Hpass as [merged _ Hmerge]. subst waited.
    unfold w, cases.idleTable in *. cbn [tableInputChans resolvedEntries] in *.
    rewrite map_to_list_singleton in *. cbn [map] in *.
    apply interleave_one with (l := [forwardedEntry (txn 5)]) in Hmerge; [| reflexivity].
    subst merged. split; [reflexivity |]. split; [reflexivity |].
    intros (merged & Heq & _). simpl in Heq.
    destruct merged as [|e [|e' merged]]; simpl in Heq; discriminate.
  - intros w. split.
    { eexists _, _. apply globalResolvedWorkerStep_pass. vm_compute. discriminate. }
    intros w' st Hpass. destruct Hpass as [merged _ Hmerge]. subst waited.
    unfold w, cases.unorderedTable in *. cbn [tableInputChans resolvedEntries] in *.
    rewrite map_to_list_singleton in *. cbn [map] in *.
    apply interleave_one with (l := []) in Hmerge; [| reflexivity].
    subst merged. split; [reflexivity |]. split; [reflexivity |]. split; [reflexivity |].
    intros (merged & Heq & Hint). simpl in Heq, Hint.
    apply interleave_one with (l := [forwardedEntry (txn 5)]) in Hint; [| reflexivity].
    subst merged. discriminate.
Qed.

Lemma globalResolved_pass_witness :
  let w := twoTables in
  let r := globalResolvedWorkerStep false (ReadOk 10) w in
  let idle := globalResolvedWorkerStep false (ReadOk 10) cases.idleTable in
  workerPass 10 w r.1 r.2
  ∧ (∀ table input, tableInputChans w !! table = Some input → releases 10 input)
  ∧ r.2 = WorkerRunning
  ∧ (∃ merged,
       resolvedEntries r.1 = resolvedEntries w ++ merged ++ [resolvedMarker 10]
       ∧ Forall (fun e => Typ e = ProcessorEntryDMLS ∧ (peTS e <= 10)%N) merged)
  ∧ workerPass 10 cases.idleTable idle.1 idle.2
  ∧ ¬ (∀ table input, tableInputChans cases.idleTable !! table = Some input →
                      releases 10 input)
  ∧ idle.2 = WorkerBlocked.
Proof.
  intros w r idle.
  assert (workerPass 10 w r.1 r.2) as H1
    by (apply globalResolvedWorkerStep_pass; vm_compute; discriminate).
  assert (∀ table input, tableInputChans w !! table = Some input → releases 10 input) as H2.
  { intros table input Hin. unfold w, twoTables in Hin. simpl in Hin.
    apply lookup_insert_Some in Hin as [[_ <-] | [_ Hin]].
    - right. exists (txn 20). split; [| simpl; lia].
      unfold pendingTxns. simpl. apply elem_of_cons. right. by left.
    - apply lookup_singleton_Some in Hin as [_ <-]. by left. }
  assert (workerPass 10 cases.idleTable idle.1 idle.2) as H3
    by (apply globalResolvedWorkerStep_pass; vm_compute; discriminate).
  assert (¬ (∀ table input, tableInputChans cases.idleTable !! table = Some input →
                            releases 10 input)) as H4.
  { intros Hall.
    destruct (Hall 1%N _ (lookup_singleton_eq _ _)) as [Hclosed | (t & Ht & Hlt)];
      [discriminate |].
    unfold pendingTxns in Ht. simpl in Ht.
    apply list_elem_of_singleton in Ht as ->. simpl in Hlt. lia. }
  destruct (globalResolved_pass 10 w r.1 r.2 H1) as (_ & merged & _ & Hdml & _ & Hrun & _).
  destruct (Hrun H2) as (Hst & Hsent & _).
  destruct (globalResolved_pass 10 cases.idleTable idle.1 idle.2 H3)
    as (_ & sent & _ & _ & _ & _ & Hwait).
  destruct (Hwait H4) as [Hblocked _].
  exact (conj H1 (conj H2 (conj Hst (conj (ex_intro _ merged (conj Hsent Hdml))
           (conj H3 (conj H4 Hblocked)))))).
Defined.

Lemma handleDDL_gate_witness :
  let c := feedAtBarrier okSink in
  (ddlState c = model.ChangeFeedWaitToExecDDL → ddlJobHistory c ≠ [])
  ∧ (readyToExecDDL c = false → handleDDL noCyclic captureA c = (c, Nil))
  ∧ (readyToExecDDL c = true →
     ∃ job rest more,
       ddlJobHistory c = job :: rest
       ∧ calls (handleDDL noCyclic captureA c).1 = calls c ++ CallSchemaHandleDDL job :: more)
  ∧ (dom (taskPositions c) ⊆ dom (taskStatus c) →
     (size (taskStatus c) ≤ size (taskPositions c)
      ↔ ∀ cid, is_Some (taskStatus c !! cid) → is_Some (taskPositions c !! cid))).
Proof.
  intros c.
  assert (ddlState c = model.ChangeFeedWaitToExecDDL → ddlJobHistory c ≠ []) as H1
    by (intros _; simpl; discriminate).
  exact (conj H1 (handleDDL_gate noCyclic captureA c H1)).
Defined.

(** C4 as stated fails.  Capture "A" is live and holds a task status but
    has reported no position; the one position at hand is a stale one of
    a capture "C" that is gone.  The counts are equal, so [handleDDL]
    applies the job to the schema snapshot, emits the DDL to the sink and
    pops the job, although not every live capture has reported. *)
Lemma handleDDL_gate_claimed_fails :
  let c := cases.unreportedFeed in
  let r := handleDDL noCyclic cases.liveAB c in
  let j := job 1 timodel.ActionCreateTable 7 50 in
  (is_Some (cases.liveAB !! "A"%string) ∧ is_Some (taskStatus c !! "A"%string)
   ∧ taskPositions c !! "A"%string = None)
  ∧ ¬ readyToExecDDL_claimed cases.liveAB c
  ∧ readyToExecDDL c = true
  ∧ r.2 = Nil
  ∧ head (calls r.1) = Some (CallSchemaHandleDDL j)
  ∧ last (calls r.1) = Some (CallSinkEmitDDLEvent (FromJob (timodel.setSchemaName "test" j)))
  ∧ ddlJobHistory c = [j] ∧ ddlJobHistory r.1 = []
  ∧ ddlExecutedTs r.1 = 50%N ∧ ddlState r.1 = model.ChangeFeedSyncDML.
Proof.
  intros c r j.
  assert (taskPositions c !! "A"%string = None) as Hnone by reflexivity.
  split.
  { split; [by eexists |]. split; [by eexists | exact Hnone]. }
  split.
  { intros (_ & Hall & _).
    assert (is_Some (cases.liveAB !! "A"%string)) as Hlive by (by eexists).
    apply Hall in Hlive. rewrite Hnone in Hlive. by destruct Hlive. }
  split; [vm_compute; reflexivity |].
  split; [vm_compute; reflexivity |].
  split; [vm_compute; reflexivity |].
  split; [vm_compute; reflexivity |].
  split; [reflexivity |].
  split; [vm_compute; reflexivity |].
  split; vm_compute; reflexivity.
Qed.


(** C7 as stated fails.  [updateTaskStatus] visits capture "A" and then
    capture "B"; the store refuses "B", whose stored status has a pending
    operation, and the error is returned, but the status written for "A"
    is in the store.  Likewise when the sink rejects a DDL after
    [balanceOrphanTables] has dispatched the new table: handleDDL returns
    an error and the dispatched status stays in the store. *)
Lemma updateTaskStatus_leaves_writes :
  (let r := updateTaskStatus twoWrites staleFeed in
   r.2 = Failed ErrOperationUnapplied
   ∧ taskStatusKV (etcdCli staleFeed) !! "A"%string = None
   ∧ taskStatusKV (etcdCli r.1) !! "A"%string = Some (tablesOnly 1 10))
  ∧ (let c := feedAtBarrier badSink in
     let r := handleDDL noCyclic captureA c in
     r.2 = Failed ErrExecDDLFailed
     ∧ taskStatusKV (etcdCli c) !! "A"%string = None
     ∧ taskStatusKV (etcdCli r.1) !! "A"%string
       = Some {| model.Tables := {[ 7%Z := 50%N ]};
                 model.Operation := {[ 7%Z := mkOperation false 50 ]} |}).
Proof.
  split; (split; [vm_compute; reflexivity |]);
    (split; [vm_compute; reflexivity |]); vm_compute; reflexivity.
Qed.

Lemma balancing_skipped_while_pending_witness :
  (∃ cid st id o,
      taskStatus busyFeed !! cid = Some st ∧ model.Operation st !! id = Some o
      ∧ model.applied o = model.Pending)
  ∧ balanceOrphanTables noCyclic captureA busyFeed = (busyFeed, Nil)
  ∧ rebanlanceTables captureA true 0 busyFeed = (busyFeed, Nil).
Proof.
  assert (∃ cid st id o,
             taskStatus busyFeed !! cid = Some st ∧ model.Operation st !! id = Some o
             ∧ model.applied o = model.Pending) as H1.
  { exists "A"%string, pendingAdd, 5%Z, (mkOperation false 10).
    repeat split; vm_compute; reflexivity. }
  destruct (balancing_skipped_while_pending noCyclic captureA true 0 busyFeed H1)
    as (Ha & Hb & _).
  exact (conj H1 (conj Ha Hb)).
Defined.

(* ================================================================== *)
(** * Further properties of the code *)
(* ================================================================== *)

(** ** appendTaskOperations *)

Lemma appendTaskOperation_lookup
  (ops : gmap TableID model.TableOperation) id op id' :
  appendTaskOperation ops id op !! id'
  = if decide (id' = id) then mergeOperation (ops !! id) op else ops !! id'.
Proof.
  unfold appendTaskOperation, mergeOperation.
  destruct (decide (id' = id)) as [-> | Hne].
  - destruct (ops !! id) as [orig|] eqn:Hl.
    + destruct (Bool.eqb _ _); simpl; [exact Hl | apply lookup_delete_eq].
    + apply lookup_insert_eq.
  - destruct (ops !! id) as [orig|] eqn:Hl.
    + destruct (Bool.eqb _ _); simpl; [reflexivity | by apply lookup_delete_ne].
    + by apply lookup_insert_ne.
Qed.

Lemma foldl_append_other (l : list (TableID * model.TableOperation))
  (acc : gmap TableID model.TableOperation) id :
  id ∉ l.*1 →
  foldl (fun acc kv => appendTaskOperation acc kv.1 kv.2) acc l !! id = acc !! id.
Proof.
  revert acc. induction l as [|[k v] l IH]; intros acc Hid; [done |].
  simpl in *. apply not_elem_of_cons in Hid as [Hne Hid].
  rewrite IH by done. rewrite appendTaskOperation_lookup. by destruct (decide (id = k)).
Qed.

Lemma foldl_append_elem (l : list (TableID * model.TableOperation))
  (acc : gmap TableID model.TableOperation) id op :
  NoDup l.*1 → (id, op) ∈ l →
  foldl (fun acc kv => appendTaskOperation acc kv.1 kv.2) acc l !! id
  = mergeOperation (acc !! id) op.
Proof.
  revert acc. induction l as [|[k v] l IH]; intros acc Hnd Hin.
  - by apply elem_of_nil in Hin.
  - simpl in *. apply NoDup_cons in Hnd as [Hfresh Hnd].
    apply elem_of_cons in Hin as [Heq | Hin].
    + injection Heq as <- <-. rewrite foldl_append_other by done.
      rewrite appendTaskOperation_lookup. by destruct (decide (id = id)).
    + rewrite IH by done. rewrite appendTaskOperation_lookup.
      destruct (decide (id = k)) as [-> |]; [| done].
      exfalso. apply Hfresh. apply list_elem_of_fmap. by exists (k, op).
Qed.

(** X1.  Queueing a whole map of operations acts id by id, whatever the
    order of the iteration: an id the map does not mention keeps what it
    had, a fresh id receives the operation, an id with a stored operation
    of the same kind keeps it and one with the opposite kind loses it. *)
Theorem appendTaskOperations_lookup
  (target toAppend : gmap TableID model.TableOperation) (id : TableID) :
  appendTaskOperations target toAppend !! id
  = match toAppend !! id with
    | None => target !! id
    | Some op => mergeOperation (target !! id) op
    end.
Proof.
  unfold appendTaskOperations.
  destruct (toAppend !! id) as [op|] eqn:Hl.
  - apply foldl_append_elem; [apply NoDup_fst_map_to_list | by apply elem_of_map_to_list].
  - apply foldl_append_other. intros Hin.
    apply list_elem_of_fmap in Hin as ([k v] & -> & Hin). simpl in Hl.
    apply elem_of_map_to_list in Hin. congruence.
Qed.

(** ** findTaskStatusWithTable *)

(** X2.  [findTaskStatusWithTable] answers with a capture of the map whose
    status lists the table, and answers "not found" only when no status of
    the map lists it. *)
Theorem findTaskStatusWithTable_spec
  (infos : gmap CaptureID model.TaskStatus) (tableID : TableID) :
  match findTaskStatusWithTable infos tableID with
  | Some (cid, st) => infos !! cid = Some st ∧ is_Some (model.Tables st !! tableID)
  | None => ∀ cid st, infos !! cid = Some st → model.Tables st !! tableID = None
  end.
Proof.
  unfold findTaskStatusWithTable.
  destruct (find _ _) as [[cid st]|] eqn:Hfind.
  - apply find_some in Hfind as [Hin Hp]. simpl in Hp. split.
    + by apply elem_of_map_to_list, list_elem_of_In.
    + by apply bool_decide_eq_true in Hp.
  - intros cid st Hl.
    pose proof (find_none _ _ Hfind (cid, st)) as Hn. simpl in Hn.
    assert (In (cid, st) (map_to_list infos)) as Hin
      by by apply list_elem_of_In, elem_of_map_to_list.
    specialize (Hn Hin). apply bool_decide_eq_false in Hn.
    destruct (model.Tables st !! tableID) eqn:Ht; [| done].
    exfalso. apply Hn. eauto.
Qed.

(** ** The changefeed controller, continued *)

Section OwnerMore.

Context {Sch Snk Sched Hdl : Type}.
Context `{!SchemaSnapshot Sch, !Sink Snk, !Scheduler Sched, !OwnerDDLHandler Hdl}.

#[local] Abbreviation CF := (@changeFeed Sch Snk Sched Hdl).

Implicit Types c : CF.

(** *** minimumTablesCapture *)

Lemma minimumTables_fold c (nts : gmap CaptureID model.TaskStatus)
  (l : list (CaptureID * CaptureInfo)) (acc : CaptureID * Z) :
  let step := fun (acc : CaptureID * Z) (kv : CaptureID * CaptureInfo) =>
                let '(minID, minCount) := acc in
                let id := kv.1 in
                let tableCount := match taskStatus c !! id with
                                  | Some status => Z.of_nat (size (model.Tables status))
                                  | None => 0%Z
                                  end in
                let tableCount := match nts !! id with
                                  | Some newStatus => Z.of_nat (size (model.Tables newStatus))
                                  | None => tableCount
                                  end in
                if (tableCount <? minCount)%Z then (id, tableCount) else (minID, minCount) in
  let r := foldl step acc l in
  (r.2 <= acc.2)%Z
  ∧ (∀ x, x ∈ l → (r.2 <= tableCountOf c nts x.1)%Z)
  ∧ (r = acc ∨ ∃ x, x ∈ l ∧ r = (x.1, tableCountOf c nts x.1)).
Proof.
  intros step. revert acc. induction l as [|x l IH]; intros acc; simpl.
  - split; [lia |]. split; [| by left]. intros x Hx. by apply elem_of_nil in Hx.
  - destruct (IH (step acc x)) as (Hle & Hall & Hmem).
    assert (step acc x = if (tableCountOf c nts x.1 <? acc.2)%Z
                         then (x.1, tableCountOf c nts x.1) else acc) as Hstep.
    { unfold step, tableCountOf. destruct acc as [minID minCount]. simpl.
      destruct (nts !! x.1); reflexivity. }
    rewrite Hstep in *.
    destruct (Z.ltb_spec (tableCountOf c nts x.1) acc.2) as [Hlt | Hge]; simpl in *.
    + split; [lia |]. split.
      * intros y Hy. apply elem_of_cons in Hy as [-> | Hy]; [exact Hle | by apply Hall].
      * right. destruct Hmem as [-> | (y & Hy & ->)].
        -- exists x. split; [by left | done].
        -- exists y. split; [by right | done].
    + split; [exact Hle |]. split.
      * intros y Hy. apply elem_of_cons in Hy as [-> | Hy]; [lia | by apply Hall].
      * destruct Hmem as [-> | (y & Hy & ->)]; [by left |].
        right. exists y. split; [by right | done].
Qed.

(** X3.  With no capture [minimumTablesCapture] answers the empty id.
    Otherwise, table counts staying below [math.MaxInt64], it answers a
    capture of the map that has the fewest tables, counting for each
    capture the tables of its new status when it has one and those of its
    current status when not. *)
Theorem minimumTablesCapture_minimal c
  (captures : gmap CaptureID CaptureInfo) (nts : gmap CaptureID model.TaskStatus)
  (Hbound : ∀ id, is_Some (captures !! id) → (tableCountOf c nts id < MaxInt64)%Z) :
  (size captures = 0 → minimumTablesCapture captures nts c = EmptyString)
  ∧ (size captures ≠ 0 →
     is_Some (captures !! minimumTablesCapture captures nts c)
     ∧ ∀ id, is_Some (captures !! id) →
             (tableCountOf c nts (minimumTablesCapture captures nts c)
              <= tableCountOf c nts id)%Z).
Proof.
  unfold minimumTablesCapture. split.
  - intros Hz. by destruct (decide (size captures = 0)).
  - intros Hnz. destruct (decide (size captures = 0)); [done |].
    pose proof (minimumTables_fold c nts (map_to_list captures) (EmptyString, MaxInt64))
      as (Hle & Hall & Hmem).
    cbv zeta in Hle, Hall, Hmem.
    set (r := foldl _ _ _) in *.
    destruct (map_to_list captures) as [|x0 l0] eqn:Hl.
    { apply map_to_list_empty_iff in Hl. subst. by rewrite map_size_empty in Hnz. }
    assert (∀ x, x ∈ x0 :: l0 → is_Some (captures !! x.1)) as Hin.
    { intros [k v] Hx. rewrite <- Hl in Hx. apply elem_of_map_to_list in Hx. eauto. }
    destruct Hmem as [Hr | (x & Hx & Hr)].
    + exfalso. specialize (Hall x0 (list_elem_of_here _ _)).
      specialize (Hbound x0.1 (Hin x0 (list_elem_of_here _ _))).
      rewrite Hr in Hall. simpl in Hall. lia.
    + rewrite Hr. simpl. split; [by apply Hin |].
      intros id [v Hid]. rewrite Hr in Hall. simpl in Hall.
      apply (Hall (id, v)). rewrite <- Hl. by apply elem_of_map_to_list.
Qed.

(** *** updateTaskStatus, when every write goes through *)

Lemma updateTaskStatusLoop_ok l c :
  (updateTaskStatusLoop l c).2 = Nil →
  taskStatusKV (etcdCli (updateTaskStatusLoop l c).1) = putAll (taskStatusKV (etcdCli c)) l
  ∧ taskStatus (updateTaskStatusLoop l c).1 = putAll (taskStatus c) l.
Proof.
  revert c. induction l as [|[k s] l IH]; intros c Hok; [done |].
  simpl in *. unfold AtomicPutTaskStatus in *.
  destruct (putTablesAndOperation s (default model.newTaskStatus (taskStatusKV (etcdCli c) !! k)))
    as [err | new] eqn:Hput; [done |].
  apply putTablesAndOperation_ok in Hput as ->.
  destruct (IH _ Hok) as [Hkv Hts]. by rewrite Hkv, Hts.
Qed.

Lemma updateTaskStatusLoop_never_fatal l c : (updateTaskStatusLoop l c).2 ≠ Fatal.
Proof.
  revert c. induction l as [|[k s] l IH]; intros c; simpl; [done |].
  destruct (AtomicPutTaskStatus _ _ _) as [cli [err|new]]; simpl; [done | apply IH].
Qed.

(** X4.  When [updateTaskStatus] returns nil, every status of the map it
    was given is in the metadata store under its capture and in the
    owner's own view of the task statuses, and the entries of all other
    captures are as they were, in both. *)
Theorem updateTaskStatus_writes_all (nts : gmap CaptureID model.TaskStatus) c
  (Hok : (updateTaskStatus nts c).2 = Nil) :
  let c' := (updateTaskStatus nts c).1 in
  (∀ k s, nts !! k = Some s →
          taskStatusKV (etcdCli c') !! k = Some s ∧ taskStatus c' !! k = Some s)
  ∧ (∀ k, nts !! k = None →
          taskStatusKV (etcdCli c') !! k = taskStatusKV (etcdCli c) !! k
          ∧ taskStatus c' !! k = taskStatus c !! k).
Proof.
  unfold updateTaskStatus in *. cbv zeta.
  destruct (updateTaskStatusLoop_ok _ _ Hok) as [-> ->].
  pose proof (NoDup_fst_map_to_list nts) as Hnd.
  split.
  - intros k s Hl. apply elem_of_map_to_list in Hl.
    split; by apply putAll_lookup.
  - intros k Hl.
    assert (k ∉ (map_to_list nts).*1) as Hk.
    { intros Hin. apply list_elem_of_fmap in Hin as ([k' v] & -> & Hin).
      apply elem_of_map_to_list in Hin. simpl in Hl. congruence. }
    split; by apply putAll_lookup_other.
Qed.

(** *** Table bookkeeping *)

Lemma bookFrame_refl c : bookFrame c c.
Proof. unfold bookFrame. tauto. Qed.

Lemma bookFrame_trans c1 c2 c3 : bookFrame c1 c2 → bookFrame c2 c3 → bookFrame c1 c3.
Proof. unfold bookFrame. intuition congruence. Qed.

Lemma foldl_bookFrame {A} (f : CF → A → CF) (l : list A) c :
  (∀ c x, bookFrame c (f c x)) → bookFrame c (foldl f c l).
Proof.
  intros Hf. revert c. induction l as [|x l IH]; intros c; simpl.
  - apply bookFrame_refl.
  - eapply bookFrame_trans; [apply Hf | apply IH].
Qed.

Lemma removeFunc_bookFrame ts c id : bookFrame c (removeFunc ts c id).
Proof. unfold removeFunc, bookFrame. destruct (orphanTables c !! id); simpl; tauto. Qed.

Lemma removeTable_bookFrame sid tid ts c : bookFrame c (removeTable sid tid ts c).
Proof.
  unfold removeTable.
  set (c1 := match schemas c !! sid with Some _ => _ | None => _ end).
  assert (bookFrame c c1) as H1
    by (subst c1; destruct (schemas c !! sid); unfold bookFrame; simpl; tauto).
  set (c2 := set_tables _ c1).
  assert (bookFrame c c2) as H2
    by (eapply bookFrame_trans; [exact H1 | unfold bookFrame; simpl; tauto]).
  destruct (partitions c2 !! tid).
  - eapply bookFrame_trans; [| unfold bookFrame; simpl; split; reflexivity || tauto].
    eapply bookFrame_trans; [exact H2 |]. apply foldl_bookFrame.
    intros; apply removeFunc_bookFrame.
  - eapply bookFrame_trans; [exact H2 | apply removeFunc_bookFrame].
Qed.

Lemma dropSchema_bookFrame sid ts c : bookFrame c (dropSchema sid ts c).
Proof.
  unfold dropSchema.
  eapply bookFrame_trans; [| unfold bookFrame; simpl; tauto].
  destruct (schemas c !! sid); [| apply bookFrame_refl].
  apply foldl_bookFrame. intros; apply removeTable_bookFrame.
Qed.

Lemma addSchema_bookFrame sid c : bookFrame c (addSchema sid c).
Proof. unfold addSchema, bookFrame. destruct (schemas c !! sid); simpl; tauto. Qed.

Lemma addTable_bookFrame sid tid ts table info c :
  bookFrame c (addTable sid tid ts table info c).
Proof.
  unfold addTable.
  destruct (ShouldIgnoreTable _ _ _); [apply bookFrame_refl |].
  destruct (tables c !! tid); [apply bookFrame_refl |].
  destruct (timodel.PartitionDefinitions info).
  - eapply bookFrame_trans; [| apply foldl_bookFrame].
    + unfold bookFrame; simpl; tauto.
    + intros c' x. unfold bookFrame; simpl; tauto.
  - unfold bookFrame; simpl; tauto.
Qed.

Lemma applyJob_bookFrame job c : bookFrame c (applyJob job c).1.
Proof.
  unfold applyJob.
  destruct (timodel.binlogTableInfo (timodel.BinlogInfo job)) as [ti|];
    [destruct (IsIneligibleTableID (schema c) (timodel.tiID ti));
       [simpl; destruct (tables c !! timodel.tiID ti);
          [apply removeTable_bookFrame | apply bookFrame_refl] |] |];
    destruct (timodel.jobType job); simpl;
    repeat match goal with
           | |- context [match GetTableNameByID ?s ?i with _ => _ end] =>
               destruct (GetTableNameByID s i); simpl
           end;
    auto using bookFrame_refl, addSchema_bookFrame, dropSchema_bookFrame,
      removeTable_bookFrame, addTable_bookFrame;
    try (eapply bookFrame_trans; [apply removeTable_bookFrame | apply addTable_bookFrame]);
    try (unfold bookFrame; simpl; tauto).
Qed.

(** What a run of [removeFunc] over a list of ids does to the two queues. *)
Lemma foldl_removeFunc ts (l : list Z) c :
  let c' := foldl (removeFunc ts) c l in
  tables c' = tables c ∧ partitions c' = partitions c ∧ schemas c' = schemas c
  ∧ (∀ id, orphanTables c !! id = None → orphanTables c' !! id = None)
  ∧ (∀ id, toCleanTables c !! id = Some ts → toCleanTables c' !! id = Some ts)
  ∧ (∀ id, id ∈ l →
       orphanTables c' !! id = None
       ∧ (orphanTables c !! id = None → toCleanTables c' !! id = Some ts))
  ∧ (∀ id, id ∉ l →
       orphanTables c' !! id = orphanTables c !! id
       ∧ toCleanTables c' !! id = toCleanTables c !! id).
Proof.
  revert c. induction l as [|x l IH]; intros c; simpl.
  - split_and!; auto. intros id Hid. by apply elem_of_nil in Hid.
  - destruct (IH (removeFunc ts c x)) as (Ht & Hp & Hs & Ho & Hc & Hin & Hout).
    assert (tables (removeFunc ts c x) = tables c
            ∧ partitions (removeFunc ts c x) = partitions c
            ∧ schemas (removeFunc ts c x) = schemas c) as (Ht1 & Hp1 & Hs1)
      by (unfold removeFunc; destruct (orphanTables c !! x); simpl; auto).
    assert (orphanTables (removeFunc ts c x) = delete x (orphanTables c)) as Ho1.
    { unfold removeFunc. destruct (orphanTables c !! x) eqn:Hx; simpl; [done |].
      by rewrite delete_id. }
    assert (∀ id, toCleanTables (removeFunc ts c x) !! id
                  = if decide (id = x)
                    then (match orphanTables c !! x with Some _ => toCleanTables c !! x | None => Some ts end)
                    else toCleanTables c !! id) as Hc1.
    { intros id. unfold removeFunc.
      destruct (orphanTables c !! x) eqn:Hx; simpl; destruct (decide (id = x)) as [-> |];
        try done; [apply lookup_insert_eq | by apply lookup_insert_ne]. }
    split; [congruence |]. split; [congruence |]. split; [congruence |].
    split; [| split; [| split]].
    + intros id Hid. apply Ho. rewrite Ho1.
      destruct (decide (id = x)) as [-> |];
        [apply lookup_delete_eq | by rewrite lookup_delete_ne].
    + intros id Hid. apply Hc. rewrite Hc1. destruct (decide (id = x)) as [-> |]; [| done].
      by destruct (orphanTables c !! x).
    + intros id Hid.
      destruct (decide (id ∈ l)) as [Hl | Hl].
      * destruct (Hin id Hl) as [H1 H2]. split; [exact H1 |].
        intros Hnone. apply H2. rewrite Ho1.
        destruct (decide (id = x)) as [-> |];
          [apply lookup_delete_eq | by rewrite lookup_delete_ne].
      * apply elem_of_cons in Hid as [-> | Hid]; [| done].
        destruct (Hout x Hl) as [H1 H2]. split.
        -- rewrite H1, Ho1. apply lookup_delete_eq.
        -- intros Hnone. rewrite H2, Hc1. destruct (decide (x = x)); [| done].
           by rewrite Hnone.
    + intros id Hid. apply not_elem_of_cons in Hid as [Hne Hid].
      destruct (Hout id Hid) as [H1 H2]. split.
      * rewrite H1, Ho1. by rewrite lookup_delete_ne.
      * rewrite H2, Hc1. by destruct (decide (id = x)).
Qed.

(** X5.  [removeTable] takes the table out of [tables] and [partitions];
    each of its physical tables (the partitions, or the table itself) is no
    longer an orphan, and one that was not an orphan, so may have been
    dispatched, is queued in [toCleanTables] with the given targetTs;
    every other id keeps its place in the two queues. *)
Theorem removeTable_effect (sid : SchemaID) (tid : TableID) (targetTs : Ts) c :
  let c' := removeTable sid tid targetTs c in
  tables c' = delete tid (tables c)
  ∧ partitions c' !! tid = None
  ∧ (∀ id, id ∈ physicalTables c tid →
       orphanTables c' !! id = None
       ∧ (orphanTables c !! id = None → toCleanTables c' !! id = Some targetTs))
  ∧ (∀ id, id ∉ physicalTables c tid →
       orphanTables c' !! id = orphanTables c !! id
       ∧ toCleanTables c' !! id = toCleanTables c !! id).
Proof.
  unfold removeTable, physicalTables. cbv zeta.
  set (c1 := match schemas c !! sid with Some _ => _ | None => _ end).
  assert (tables c1 = tables c ∧ partitions c1 = partitions c
          ∧ orphanTables c1 = orphanTables c ∧ toCleanTables c1 = toCleanTables c)
    as (Ht & Hp & Ho & Hc) by (subst c1; destruct (schemas c !! sid); simpl; auto).
  set (c2 := set_tables _ c1).
  change (partitions c2) with (partitions c1). rewrite Hp.
  destruct (partitions c !! tid) as [pids|] eqn:Hpart; simpl.
  - destruct (foldl_removeFunc targetTs pids c2) as (Ht2 & Hp2 & _ & _ & _ & Hin & Hout).
    cbv zeta in *. rewrite Ht2. simpl. rewrite Ht.
    split; [done |]. split; [apply lookup_delete_eq |].
    change (orphanTables c2) with (orphanTables c1) in *.
    change (toCleanTables c2) with (toCleanTables c1) in *.
    rewrite Ho, Hc in *. by split.
  - destruct (foldl_removeFunc targetTs [tid] c2) as (Ht2 & Hp2 & _ & _ & _ & Hin & Hout).
    cbv zeta in *. simpl in *. rewrite Ht2, Hp2. simpl. rewrite Ht.
    split; [done |]. split; [by rewrite Hp |].
    change (orphanTables c2) with (orphanTables c1) in *.
    change (toCleanTables c2) with (toCleanTables c1) in *.
    rewrite Ho, Hc in *. by split.
Qed.

(** A run of [removeFunc] over distinct ids that are all orphans only
    deletes them. *)
Lemma foldl_removeFunc_orphans ts (l : list Z) c :
  NoDup l → (∀ id, id ∈ l → is_Some (orphanTables c !! id)) →
  let c' := foldl (removeFunc ts) c l in
  toCleanTables c' = toCleanTables c
  ∧ ∀ id, orphanTables c' !! id = if decide (id ∈ l) then None else orphanTables c !! id.
Proof.
  intros Hnd. revert c. induction Hnd as [|x l Hx Hnd IH]; intros c Hor; simpl.
  - split; [done |]. intros id. destruct (decide (id ∈ [])) as [H|]; [| done].
    by apply elem_of_nil in H.
  - destruct (Hor x) as [v Hv]; [left |].
    assert (removeFunc ts c x = set_orphanTables (delete x (orphanTables c)) c) as Hstep
      by (unfold removeFunc; by rewrite Hv).
    rewrite Hstep.
    destruct (IH (set_orphanTables (delete x (orphanTables c)) c)) as [Hc Ho].
    { intros id Hid. simpl. rewrite lookup_delete_ne by (intros ->; done).
      apply Hor. by right. }
    split; [by rewrite Hc |].
    intros id. rewrite Ho. simpl.
    destruct (decide (id ∈ l)) as [Hl | Hl].
    + rewrite decide_True by (by right). done.
    + destruct (decide (id = x)) as [-> | Hne].
      * rewrite decide_True by left. apply lookup_delete_eq.
      * rewrite decide_False by (intros [? | ?]%elem_of_cons; done).
        by rewrite lookup_delete_ne.
Qed.

(** The partition loop of [addTable]. *)
Lemma foldl_addPartitions (tid : TableID) (startTs : Ts) (defs : list Z) c :
  let c' :=
    foldl (fun c pid =>
             set_orphanTables (<[pid := startTs]> (orphanTables c))
               (set_partitions
                  (<[tid := default [] (partitions c !! tid) ++ [pid]]> (partitions c)) c))
          c defs in
  tables c' = tables c ∧ toCleanTables c' = toCleanTables c
  ∧ (defs ≠ [] → partitions c' !! tid = Some (default [] (partitions c !! tid) ++ defs))
  ∧ (defs = [] → partitions c' = partitions c)
  ∧ ∀ id, orphanTables c' !! id
          = if decide (id ∈ defs) then Some startTs else orphanTables c !! id.
Proof.
  revert c. induction defs as [|x l IH]; intros c; simpl.
  - split_and!; done.
  - match goal with |- context [foldl ?f ?c1 l] =>
      destruct (IH c1) as (Ht & Hc & Hp & Hp0 & Ho); set (c1' := c1) in *
    end.
    cbv zeta in *. rewrite Ht, Hc. split_and!; try done.
    + intros _. destruct l as [|y l'].
      * rewrite Hp0 by done. subst c1'. simpl. apply lookup_insert_eq.
      * rewrite Hp by done. subst c1'. simpl. rewrite lookup_insert_eq. simpl.
        by rewrite <- app_assoc.
    + intros id. rewrite Ho. subst c1'. simpl.
      destruct (decide (id ∈ l)) as [Hl | Hl].
      * by rewrite decide_True by (by right).
      * destruct (decide (id = x)) as [-> | Hne].
        -- rewrite decide_True by left. apply lookup_insert_eq.
        -- rewrite decide_False by (intros [? | ?]%elem_of_cons; done).
           by rewrite lookup_insert_ne.
Qed.

(** X6.  A table that is added and removed again before it was
    dispatched leaves no trace in the queues: its table entry and its
    partition entry are gone, its physical tables are no orphans any more,
    and nothing is queued for cleaning.  The table must be new, accepted by
    the filter, and its partition ids (if it has partition info, at least
    one) distinct. *)
Theorem addTable_removeTable (sid : SchemaID) (tid : TableID) (startTs targetTs : Ts)
  (table : entry.TableName) (tblInfo : timodel.TableInfo) c
  (Hkeep : ShouldIgnoreTable (cfFilter c) (entry.Schema table) (entry.Table table) = false)
  (Hnew : tables c !! tid = None)
  (Hpart : partitions c !! tid = None)
  (Hdefs : timodel.PartitionDefinitions tblInfo ≠ Some [])
  (Hnodup : NoDup (default [tid] (timodel.PartitionDefinitions tblInfo))) :
  let ids := default [tid] (timodel.PartitionDefinitions tblInfo) in
  let c' := removeTable sid tid targetTs (addTable sid tid startTs table tblInfo c) in
  tables c' = tables c
  ∧ toCleanTables c' = toCleanTables c
  ∧ partitions c' !! tid = None
  ∧ ∀ id, orphanTables c' !! id = if decide (id ∈ ids) then None else orphanTables c !! id.
Proof.
  cbv zeta. unfold addTable. rewrite Hkeep, Hnew.
  set (c1 := set_tables _ (set_schemas _ c)).
  destruct (timodel.PartitionDefinitions tblInfo) as [defs|] eqn:Hpd; simpl in Hnodup |- *.
  - assert (defs ≠ []) as Hne by congruence.
    set (c2 := set_partitions _ c1).
    destruct (foldl_addPartitions tid startTs defs c2) as (Ht & Hc & Hp & _ & Ho).
    cbv zeta in *. specialize (Hp Hne).
    match type of Ht with tables ?X = _ => set (c3 := X) in * end.
    assert (partitions c2 !! tid = None) as Hp2 by (subst c2; simpl; apply lookup_delete_eq).
    rewrite Hp2 in Hp. simpl in Hp.
    unfold removeTable. cbv zeta.
    set (c4 := match schemas c3 !! sid with Some _ => _ | None => _ end).
    assert (tables c4 = tables c3 ∧ partitions c4 = partitions c3
            ∧ orphanTables c4 = orphanTables c3 ∧ toCleanTables c4 = toCleanTables c3)
      as (Ht4 & Hp4 & Ho4 & Hc4) by (subst c4; destruct (schemas c3 !! sid); simpl; auto).
    set (c5 := set_tables _ c4).
    change (partitions c5) with (partitions c4). rewrite Hp4, Hp.
    destruct (foldl_removeFunc_orphans targetTs defs c5 Hnodup) as [Hc6 Ho6].
    { intros id Hid. change (orphanTables c5) with (orphanTables c4).
      rewrite Ho4, Ho. by rewrite decide_True. }
    destruct (foldl_removeFunc targetTs defs c5) as (Ht6 & Hp6 & _).
    cbv zeta in *. simpl. split_and!.
    + rewrite Ht6. change (tables c5) with (delete tid (tables c4)).
      rewrite Ht4, Ht. subst c2 c1. simpl. by rewrite delete_insert_eq, delete_id.
    + rewrite Hc6. change (toCleanTables c5) with (toCleanTables c4).
      by rewrite Hc4, Hc.
    + apply lookup_delete_eq.
    + intros id. rewrite Ho6. destruct (decide (id ∈ defs)) as [Hin | Hin]; [done |].
      change (orphanTables c5) with (orphanTables c4).
      rewrite Ho4, Ho. by rewrite decide_False.
  - unfold removeTable. cbv zeta.
    set (c3 := set_orphanTables _ c1).
    set (c4 := match schemas c3 !! sid with Some _ => _ | None => _ end).
    assert (tables c4 = tables c3 ∧ partitions c4 = partitions c3
            ∧ orphanTables c4 = orphanTables c3 ∧ toCleanTables c4 = toCleanTables c3)
      as (Ht4 & Hp4 & Ho4 & Hc4) by (subst c4; destruct (schemas c3 !! sid); simpl; auto).
    set (c5 := set_tables _ c4).
    change (partitions c5) with (partitions c4). rewrite Hp4.
    change (partitions c3) with (partitions c). rewrite Hpart.
    unfold removeFunc. change (orphanTables c5) with (orphanTables c4). rewrite Ho4.
    subst c3. simpl. rewrite lookup_insert_eq. simpl.
    rewrite Ht4, Hp4, Hc4. simpl.
    split; [by rewrite delete_insert_eq, delete_id |].
    split; [done |]. split; [done |].
    intros id. destruct (decide (id = tid)) as [-> | Hne].
    + rewrite decide_True by left. apply lookup_delete_eq.
    + rewrite decide_False by (intros [? | H]%elem_of_cons; [done | by apply elem_of_nil in H]).
      rewrite lookup_delete_ne by done. by rewrite lookup_insert_ne.
Qed.

Lemma removeTable_tables sid tid ts c :
  tables (removeTable sid tid ts c) = delete tid (tables c)
  ∧ ∀ sid', sid' ≠ sid → schemas (removeTable sid tid ts c) !! sid' = schemas c !! sid'.
Proof.
  unfold removeTable. cbv zeta.
  set (c1 := match schemas c !! sid with Some _ => _ | None => _ end).
  assert (tables c1 = tables c
          ∧ ∀ sid', sid' ≠ sid → schemas c1 !! sid' = schemas c !! sid') as [Ht Hs].
  { subst c1. destruct (schemas c !! sid); simpl; split; auto.
    intros sid' Hne. by rewrite lookup_insert_ne. }
  set (c2 := set_tables _ c1).
  destruct (partitions c2 !! tid) as [pids|].
  - destruct (foldl_removeFunc ts pids c2) as (Ht2 & _ & Hs2 & _).
    simpl. rewrite Ht2, Hs2. subst c2. simpl. by rewrite Ht.
  - destruct (foldl_removeFunc ts [tid] c2) as (Ht2 & _ & Hs2 & _).
    simpl in *. rewrite Ht2, Hs2. subst c2. simpl. by rewrite Ht.
Qed.

Lemma foldl_removeTable sid ts (l : list TableID) c :
  let c' := foldl (fun c tid => removeTable sid tid ts c) c l in
  (∀ tid, tables c' !! tid = if decide (tid ∈ l) then None else tables c !! tid)
  ∧ ∀ sid', sid' ≠ sid → schemas c' !! sid' = schemas c !! sid'.
Proof.
  revert c. induction l as [|x l IH]; intros c; simpl.
  - split; [| done]. intros tid. destruct (decide (tid ∈ [])) as [H|]; [| done].
    by apply elem_of_nil in H.
  - destruct (IH (removeTable sid x ts c)) as [Ht Hs].
    destruct (removeTable_tables sid x ts c) as [Ht1 Hs1]. cbv zeta in *.
    split.
    + intros tid. rewrite Ht, Ht1.
      destruct (decide (tid ∈ l)) as [Hl | Hl].
      * by rewrite decide_True by (by right).
      * destruct (decide (tid = x)) as [-> | Hne].
        -- rewrite decide_True by left. apply lookup_delete_eq.
        -- rewrite decide_False by (intros [? | ?]%elem_of_cons; done).
           by rewrite lookup_delete_ne.
    + intros sid' Hne. rewrite Hs by done. by apply Hs1.
Qed.

(** X7.  [dropSchema] removes the schema entry and every table the
    schema lists from [tables]; the other schemas and tables are
    untouched.  Dropping a schema that is not known changes neither. *)
Theorem dropSchema_effect (schemaID : SchemaID) (targetTs : Ts) c :
  let c' := dropSchema schemaID targetTs c in
  schemas c' !! schemaID = None
  ∧ (∀ sid', sid' ≠ schemaID → schemas c' !! sid' = schemas c !! sid')
  ∧ ∀ tid, tables c' !! tid
           = if decide (tid ∈ default ∅ (schemas c !! schemaID)) then None
             else tables c !! tid.
Proof.
  unfold dropSchema. cbv zeta. simpl.
  split; [apply lookup_delete_eq |].
  destruct (schemas c !! schemaID) as [s|] eqn:Hs; simpl.
  - destruct (foldl_removeTable schemaID targetTs (elements s) c) as [Ht Hsch].
    cbv zeta in *. split.
    + intros sid' Hne. rewrite lookup_delete_ne by done. by apply Hsch.
    + intros tid. rewrite Ht.
      destruct (decide (tid ∈ elements s)) as [Hin | Hin].
      * rewrite decide_True by (by apply elem_of_elements). done.
      * rewrite decide_False by (by rewrite <- elem_of_elements). done.
  - split.
    + intros sid' Hne. by rewrite lookup_delete_ne.
    + intros tid. rewrite decide_False by set_solver. done.
Qed.

(** *** handleDDL: jobs that are skipped, and cyclic replication *)

(** X8.  A job at the barrier whose table is ineligible for replication
    is skipped: [handleDDL] returns nil, pops the job, records its
    finishedTs as executed and goes back to SyncDML; the only call it
    makes is [schema.HandleDDL], so the sink never sees the DDL and
    nothing is written to the metadata store; the table is no longer in
    [tables]. *)
Theorem handleDDL_skips_ineligible (cyclic : CyclicPkg)
  (captures : gmap CaptureID CaptureInfo) c
  (job : timodel.Job) (rest : list timodel.Job) (sch : Sch) (name : string)
  (ti : timodel.TableInfo)
  (Hst : ddlState c = model.ChangeFeedWaitToExecDDL)
  (Hhist : ddlJobHistory c = job :: rest)
  (Hcount : size (taskStatus c) ≤ size (taskPositions c))
  (Hcp : model.CheckpointTs (status c) = timodel.FinishedTS (timodel.BinlogInfo job))
  (Hddl : HandleDDL (schema c) job = (sch, None))
  (Hname : FillSchemaName sch job = inr name)
  (Hti : timodel.binlogTableInfo (timodel.BinlogInfo job) = Some ti)
  (Hinel : IsIneligibleTableID sch (timodel.tiID ti) = true) :
  let c' := (handleDDL cyclic captures c).1 in
  (handleDDL cyclic captures c).2 = Nil
  ∧ ddlJobHistory c' = rest
  ∧ ddlExecutedTs c' = timodel.FinishedTS (timodel.BinlogInfo job)
  ∧ ddlState c' = model.ChangeFeedSyncDML
  ∧ calls c' = calls c ++ [CallSchemaHandleDDL job]
  ∧ sink c' = sink c ∧ etcdCli c' = etcdCli c ∧ taskStatus c' = taskStatus c
  ∧ tables c' !! timodel.tiID ti = None.
Proof.
  cbv zeta. unfold handleDDL.
  rewrite Hst, Hhist. simpl.
  replace (size (taskPositions c) <? size (taskStatus c)) with false
    by (symmetry; apply Nat.ltb_ge; lia).
  rewrite Hcp, N.eqb_refl. simpl. rewrite Hddl. simpl. rewrite Hname.
  set (job' := timodel.setSchemaName name job).
  set (c2 := set_ddlState _ (set_ddlJobHistory _ _)).
  unfold applyJob.
  change (timodel.binlogTableInfo (timodel.BinlogInfo job'))
    with (timodel.binlogTableInfo (timodel.BinlogInfo job)).
  rewrite Hti. change (schema c2) with sch. rewrite Hinel. simpl.
  set (c3 := match tables c !! timodel.tiID ti with
             | Some _ => removeTable _ _ _ c2
             | None => c2
             end).
  assert (bookFrame c2 c3 ∧ ddlFrame c2 c3 ∧ tables c3 !! timodel.tiID ti = None)
    as (Hbook & Hframe & Htab).
  { subst c3. destruct (tables c !! timodel.tiID ti) eqn:Ht.
    - split; [apply removeTable_bookFrame |]. split; [apply removeTable_frame |].
      destruct (removeTable_tables (timodel.SchemaID job) (timodel.tiID ti)
                  (timodel.FinishedTS (timodel.BinlogInfo job)) c2) as [-> _].
      apply lookup_delete_eq.
    - split; [apply bookFrame_refl |]. split; [apply ddlFrame_refl | done]. }
  destruct Hbook as (Hcalls & Hetcd & Hts & _ & Hsink & _).
  destruct Hframe as (_ & _ & _ & Hhis & _).
  rewrite Hcalls, Hetcd, Hts, Hsink, Hhis. by split_and!.
Qed.

(** X9.  With cyclic replication on and DDL syncing off, [handleDDL]
    never calls the sink: the sink is unchanged and every call it adds to
    the log is [schema.HandleDDL] or a balancing call. *)
Theorem handleDDL_cyclic_no_sink (cyclic : CyclicPkg)
  (captures : gmap CaptureID CaptureInfo) c
  (Hcyc : cyclicEnabled c = true) (Hsync : cyclicSyncDDL c = false) :
  let c' := (handleDDL cyclic captures c).1 in
  sink c' = sink c
  ∧ ∃ more, calls c' = calls c ++ more
            ∧ Forall (fun k => (∃ job, k = CallSchemaHandleDDL job) ∨ isBalanceCall k) more.
Proof.
  cbv zeta. unfold handleDDL.
  assert (∀ c2 : CF, c2 = c → sink c2 = sink c
          ∧ ∃ more, calls c2 = calls c ++ more
                    ∧ Forall (fun k => (∃ job, k = CallSchemaHandleDDL job) ∨ isBalanceCall k)
                             more) as Hsame.
  { intros c2 ->. split; [done |]. exists []. by rewrite app_nil_r. }
  destruct (negb _); [by apply Hsame |].
  destruct (ddlJobHistory c) as [|job rest]; [by apply Hsame |].
  destruct (_ <? _); [by apply Hsame |].
  destruct (negb _); [by apply Hsame |].
  destruct (HandleDDL (schema c) job) as [sch err].
  set (c1 := logCall (CallSchemaHandleDDL job) (set_schema sch c)).
  assert (∀ c2 : CF, ddlFrame c1 c2 → sink c2 = sink c
          ∧ ∃ more, calls c2 = calls c ++ more
                    ∧ Forall (fun k => (∃ job, k = CallSchemaHandleDDL job) ∨ isBalanceCall k)
                             more) as Hext.
  { intros c2 ((more & E & Hb) & _ & _ & _ & _ & Hsink & _). split; [by rewrite Hsink |].
    exists (CallSchemaHandleDDL job :: more). split.
    - rewrite E. subst c1. simpl. by rewrite <- app_assoc.
    - constructor; [left; eauto |]. eapply Forall_impl; [exact Hb | auto]. }
  destruct err as [e|]; [exact (Hext c1 (ddlFrame_refl c1)) |].
  destruct (FillSchemaName _ job) as [e|name]; [exact (Hext c1 (ddlFrame_refl c1)) |].
  set (job' := timodel.setSchemaName name job).
  set (c2 := set_ddlState _ (set_ddlJobHistory _ c1)).
  assert (∀ c3 : CF, ddlFrame c2 c3 → sink c3 = sink c
          ∧ ∃ more, calls c3 = calls c ++ more
                    ∧ Forall (fun k => (∃ job, k = CallSchemaHandleDDL job) ∨ isBalanceCall k)
                             more) as Hext2.
  { intros c3 ((more & E & Hb) & _ & _ & _ & _ & Hsink & _). split; [by rewrite Hsink |].
    exists (CallSchemaHandleDDL job :: more). split.
    - rewrite E. subst c2 c1. simpl. by rewrite <- app_assoc.
    - constructor; [left; eauto |]. eapply Forall_impl; [exact Hb | auto]. }
  pose proof (applyJob_frame job' c2) as Happly.
  destruct (applyJob job' c2) as [c3 r]. simpl in Happly.
  destruct r as [[|]|e|]; simpl; try (by apply Hext2).
  pose proof (balanceOrphanTables_frame cyclic captures c3) as Hbal.
  destruct (balanceOrphanTables cyclic captures c3) as [c4 err]. simpl in Hbal.
  pose proof (ddlFrame_trans _ _ _ Happly Hbal) as H24.
  destruct err; simpl; try (by apply Hext2).
  assert (cyclicEnabled c4 = true ∧ cyclicSyncDDL c4 = false) as [-> ->].
  { destruct H24 as (_ & _ & _ & _ & _ & _ & He & Hs & _).
    rewrite He, Hs. by subst c2 c1. }
  simpl.
  destruct (negb _); simpl; by apply Hext2.
Qed.

(** *** rebanlanceTables: the add operations of a plan still to send *)

Lemma updateTaskStatusLoop_puts l c :
  let c' := (updateTaskStatusLoop l c).1 in
  (∃ more, calls c' = calls c ++ more ∧ Forall isPutCall more)
  ∧ todoAddOperations c' = todoAddOperations c
  ∧ scheduler c' = scheduler c
  ∧ lastRebanlanceTime c' = lastRebanlanceTime c.
Proof.
  revert c. induction l as [|[k s] l IH]; intros c; simpl.
  - split; [| done]. exists []. by rewrite app_nil_r.
  - destruct (AtomicPutTaskStatus _ _ _) as [cli [err|new]]; simpl.
    + split; [| done]. exists [CallAtomicPutTaskStatus k s]. split; [done |].
      by constructor.
    + match goal with |- context [updateTaskStatusLoop l ?c1] =>
        destruct (IH c1) as ((more & E & Hm) & Ht & Hs & Hl) end.
      cbv zeta in *. rewrite E, Ht, Hs, Hl. simpl. split; [| done].
      exists (CallAtomicPutTaskStatus k s :: more). split; [by rewrite <- app_assoc |].
      by constructor.
Qed.

(** X10.  While add operations of the last rebalance plan are still
    to be sent, [rebanlanceTables] does not ask the scheduler for a new
    plan: it makes only task-status writes, leaves the scheduler and the
    time of the last rebalance alone, keeps the outstanding operations
    when it returns an error, and has either kept or emptied them when it
    returns nil. *)
Theorem rebanlanceTables_outstanding_adds (captures : gmap CaptureID CaptureInfo)
  (rebanlanceNow : bool) (now : Z) c
  (Htodo : size (todoAddOperations c) ≠ 0) :
  let c' := (rebanlanceTables captures rebanlanceNow now c).1 in
  let err := (rebanlanceTables captures rebanlanceNow now c).2 in
  (∃ more, calls c' = calls c ++ more ∧ Forall isPutCall more)
  ∧ scheduler c' = scheduler c
  ∧ lastRebanlanceTime c' = lastRebanlanceTime c
  ∧ (err ≠ Nil → todoAddOperations c' = todoAddOperations c)
  ∧ (err = Nil →
     if bool_decide (size captures = 0) || cyclicEnabled c
        || someCaptureUnapplied (taskStatus c)
     then c' = c
     else todoAddOperations c' = ∅).
Proof.
  cbv zeta. unfold rebanlanceTables.
  assert ((∃ more, calls c = calls c ++ more ∧ Forall isPutCall more)) as Hnone
    by (exists []; by rewrite app_nil_r).
  destruct (decide (size captures = 0)) as [Hz | Hnz].
  { rewrite bool_decide_eq_true_2 by done. simpl. by split_and!. }
  rewrite bool_decide_eq_false_2 by done. simpl.
  destruct (cyclicEnabled c); simpl; [by split_and! |].
  destruct (someCaptureUnapplied (taskStatus c)); simpl; [by split_and! |].
  replace (size (todoAddOperations c) =? 0) with false
    by (symmetry; by apply Nat.eqb_neq).
  simpl. unfold updateTaskStatus.
  pose proof (updateTaskStatusLoop_puts
                (map_to_list (applyOperation c ∅ (todoAddOperations c))) c)
    as (Hcalls & Ht & Hs & Hl).
  cbv zeta in *.
  destruct (updateTaskStatusLoop _ c) as [c1 err]. simpl in *.
  destruct err; simpl; by split_and!.
Qed.

(** *** calcResolvedTs: what the sink is told *)

(** X11.  In one run of [calcResolvedTs] the sink is told a checkpoint
    exactly when the stored checkpoint has advanced and no DDL is waiting
    to be executed; it is told the new stored value, which is greater
    than the one before.  Apart from that call the run adds at most one
    DDL pull to the log. *)
Theorem calcResolvedTs_emits c :
  let c' := (calcResolvedTs c).1 in
  ∃ pull emit,
    calls c' = calls c ++ pull ++ emit
    ∧ (pull = [] ∨ pull = [CallPullDDL])
    ∧ ((emit = [] ∧ sink c' = sink c
        ∧ (model.CheckpointTs (status c') = model.CheckpointTs (status c)
           ∨ ddlState c' = model.ChangeFeedWaitToExecDDL))
       ∨ (emit = [CallSinkEmitCheckpointTs (model.CheckpointTs (status c'))]
          ∧ sink c' = (EmitCheckpointTs (sink c) (model.CheckpointTs (status c'))).1
          ∧ (model.CheckpointTs (status c) < model.CheckpointTs (status c'))%N
          ∧ ddlState c' ≠ model.ChangeFeedWaitToExecDDL)).
Proof.
  cbv zeta. unfold calcResolvedTs.
  assert (∃ pull emit, calls c = calls c ++ pull ++ emit
            ∧ (pull = [] ∨ pull = [CallPullDDL])
            ∧ ((emit = [] ∧ sink c = sink c
                ∧ (model.CheckpointTs (status c) = model.CheckpointTs (status c)
                   ∨ ddlState c = model.ChangeFeedWaitToExecDDL))
               ∨ (emit = [CallSinkEmitCheckpointTs (model.CheckpointTs (status c))]
                  ∧ sink c = (EmitCheckpointTs (sink c) (model.CheckpointTs (status c))).1
                  ∧ (model.CheckpointTs (status c) < model.CheckpointTs (status c))%N
                  ∧ ddlState c ≠ model.ChangeFeedWaitToExecDDL))) as Hsame.
  { exists [], []. rewrite !app_nil_r. split; [done |]. split; [by left |]. left. auto. }
  destruct (_ && _); [exact Hsame |].
  destruct (_ <? _); [exact Hsame |].
  destruct (scanMinima c) as [minR minC].
  set (p := if (ddlResolvedTs c <? minR)%N then pullDDLJob c else (c, Nil)).
  assert (∃ pull, calls p.1 = calls c ++ pull ∧ (pull = [] ∨ pull = [CallPullDDL])
                  ∧ sink p.1 = sink c ∧ status p.1 = status c ∧ ddlState p.1 = ddlState c)
    as (pull & Hpull & Hp & Hsink & Hstat & Hstate).
  { subst p. destruct (_ <? _)%N.
    - exists [CallPullDDL]. unfold pullDDLJob.
      destruct (PullDDL (ddlHandler c)) as [h [e|[ts jobs]]]; simpl; auto.
    - exists []. simpl. rewrite app_nil_r. auto. }
  destruct p as [c1 err]. simpl in *.
  destruct err.
  2,3: exists pull, []; rewrite app_nil_r; simpl; split; [done |]; split; [done |];
       left; split; [done |]; split; [done |]; left; by rewrite Hstat.
  set (minR1 := clamp minR (ddlResolvedTs c1)).
  set (c2 := set_ddlJobHistory _ c1).
  set (q := match dropExecuted (ddlExecutedTs c1) (ddlJobHistory c1) with
            | [] => (c2, minR1)
            | job :: _ => if (timodel.FinishedTS (timodel.BinlogInfo job) <? minR1)%N
                          then (set_ddlState model.ChangeFeedWaitToExecDDL c2,
                                timodel.FinishedTS (timodel.BinlogInfo job))
                          else (c2, minR1)
            end).
  assert (calls q.1 = calls c1 ∧ sink q.1 = sink c1 ∧ status q.1 = status c1) as (Hq1 & Hq2 & Hq3).
  { subst q. destruct (dropExecuted _ _) as [|job ?]; [done |].
    by destruct (_ <? _)%N. }
  destruct q as [c3 minR2]. simpl in *.
  set (minC1 := clamp minC minR2).
  set (c4 := if (model.cfResolvedTs (status c3) <? minR2)%N then _ else c3).
  assert (calls c4 = calls c3 ∧ sink c4 = sink c3
          ∧ model.CheckpointTs (status c4) = model.CheckpointTs (status c3)
          ∧ ddlState c4 = ddlState c3) as (H41 & H42 & H43 & H44)
    by (subst c4; by destruct (_ <? _)%N).
  destruct (model.CheckpointTs (status c4) <? minC1)%N eqn:Hlt.
  - apply N.ltb_lt in Hlt. simpl.
    destruct (negb (model.ddlState_eqb (ddlState c4) model.ChangeFeedWaitToExecDDL)) eqn:Hw.
    + apply negb_true_iff, ddlState_eqb_neq in Hw.
      exists pull, [CallSinkEmitCheckpointTs minC1].
      destruct (EmitCheckpointTs (sink c4) minC1) as [snk err] eqn:Hemit.
      assert (sink c4 = sink c) as Hs4 by congruence.
      assert (snk = (EmitCheckpointTs (sink c) minC1).1) as Hsnk
        by (rewrite <- Hs4, Hemit; done).
      assert (model.CheckpointTs (status c) < minC1)%N as Hadv
        by (rewrite <- Hstat, <- Hq3, <- H43; exact Hlt).
      destruct err as [e|]; simpl; rewrite H41, Hq1, Hpull, <- app_assoc;
        (split; [done |]; split; [done |]; right; by split_and!).
    + apply negb_false_iff, ddlState_eqb_eq in Hw. simpl.
      exists pull, []. rewrite app_nil_r, H41, Hq1, Hpull.
      split; [done |]. split; [done |]. left. split; [done |].
      split; [congruence | by right].
  - simpl. exists pull, []. rewrite app_nil_r, H41, Hq1, Hpull.
    split; [done |]. split; [done |]. left. split; [done |].
    split; [congruence |]. left. congruence.
Qed.

(** *** balanceOrphanTables: what a round that succeeds consumes *)

Lemma deleteAll_lookup (ids : gset TableID) (m : gmap TableID Ts) (k : TableID) :
  deleteAll ids m !! k = if decide (k ∈ ids) then None else m !! k.
Proof.
  unfold deleteAll, set_fold. simpl.
  assert (∀ l : list TableID,
            foldr (fun id acc => delete id acc) m l !! k
            = if decide (k ∈ l) then None else m !! k) as Hl.
  { induction l as [|x l IH]; simpl.
    - destruct (decide (k ∈ [])) as [H|]; [by apply elem_of_nil in H | done].
    - destruct (decide (k = x)) as [-> | Hne].
      + rewrite decide_True by left. apply lookup_delete_eq.
      + rewrite lookup_delete_ne by done. rewrite IH.
        destruct (decide (k ∈ l)) as [Hin | Hin].
        * by rewrite decide_True by (by right).
        * by rewrite decide_False by (intros [? | ?]%elem_of_cons; done). }
  rewrite Hl. destruct (decide (k ∈ elements ids)) as [Hin | Hin].
  - by rewrite decide_True by (by apply elem_of_elements).
  - by rewrite decide_False by (by rewrite <- elem_of_elements).
Qed.

Lemma foldl_cleanStep_queue (l : list (TableID * Ts))
  (acc : CF * gmap CaptureID model.TaskStatus * gset TableID) :
  let r := foldl cleanStep acc l in
  orphanTables r.1.1 = orphanTables acc.1.1
  ∧ scheduler r.1.1 = scheduler acc.1.1
  ∧ (∀ id, toCleanTables r.1.1 !! id = None
           ∨ toCleanTables r.1.1 !! id = toCleanTables acc.1.1 !! id)
  ∧ (∀ id, id ∈ acc.2 → id ∈ r.2)
  ∧ (∀ id, id ∈ l.*1 → id ∈ r.2 ∨ toCleanTables r.1.1 !! id = None).
Proof.
  revert acc. induction l as [|[id ts] l IH]; intros acc; simpl.
  - split_and!; auto. intros id Hid. by apply elem_of_nil in Hid.
  - destruct (IH (cleanStep acc (id, ts))) as (Ho & Hs & Hsub & Hmono & Hin).
    cbv zeta in *.
    assert (orphanTables (cleanStep acc (id, ts)).1.1 = orphanTables acc.1.1
            ∧ scheduler (cleanStep acc (id, ts)).1.1 = scheduler acc.1.1
            ∧ (∀ k, toCleanTables (cleanStep acc (id, ts)).1.1 !! k = None
                    ∨ toCleanTables (cleanStep acc (id, ts)).1.1 !! k
                      = toCleanTables acc.1.1 !! k)
            ∧ (∀ k, k ∈ acc.2 → k ∈ (cleanStep acc (id, ts)).2)
            ∧ (id ∈ (cleanStep acc (id, ts)).2
               ∨ toCleanTables (cleanStep acc (id, ts)).1.1 !! id = None))
      as (Ho1 & Hs1 & Hsub1 & Hmono1 & Hin1).
    { destruct acc as [[c nts] cleaned]. simpl.
      destruct (findTaskStatusWithTable (taskStatus c) id) as [[cid st]|]; simpl.
      - split_and!; auto.
        + intros k Hk. apply elem_of_union. by left.
        + left. apply elem_of_union. right. by apply elem_of_singleton.
      - split_and!; auto.
        + intros k. destruct (decide (k = id)) as [-> | Hne].
          * left. apply lookup_delete_eq.
          * right. by rewrite lookup_delete_ne.
        + right. apply lookup_delete_eq. }
    split; [congruence |]. split; [congruence |]. split_and!.
    + intros k. destruct (Hsub k) as [H | H]; [by left |].
      destruct (Hsub1 k) as [H1 | H1]; [left | right]; congruence.
    + auto.
    + intros k [-> | Hk]%elem_of_cons.
      * destruct Hin1 as [H1 | H1]; [left; by apply Hmono |].
        right. destruct (Hsub id) as [H | H]; congruence.
      * by apply Hin.
Qed.

Lemma foldl_setTable_added (l : list (TableID * model.TableOperation))
  (st : model.TaskStatus) (added : gset TableID) (id : TableID) :
  id ∈ (foldl (fun (a : model.TaskStatus * gset TableID) (e : TableID * model.TableOperation) =>
                 (setTable e.1 (model.BoundaryTs e.2) a.1, a.2 ∪ {[e.1]}))
              (st, added) l).2
  ↔ id ∈ added ∨ id ∈ l.*1.
Proof.
  revert st added. induction l as [|e l IH]; intros st added; simpl.
  - split; [by left |]. intros [H | H]; [done | by apply elem_of_nil in H].
  - rewrite IH. simpl. rewrite elem_of_union, elem_of_singleton, elem_of_cons. tauto.
Qed.

Lemma distributeStep_added c (acc : gmap CaptureID model.TaskStatus * gset TableID)
  (kv : CaptureID * gmap TableID model.TableOperation) (id : TableID) :
  id ∈ (distributeStep c acc kv).2 ↔ id ∈ acc.2 ∨ is_Some (kv.2 !! id).
Proof.
  destruct acc as [nts added], kv as [cid ops]. unfold distributeStep.
  pose proof (foldl_setTable_added (map_to_list ops) (statusToUpdate c nts cid) added id)
    as Hfold.
  destruct (foldl _ _ (map_to_list ops)) as [st added']. simpl in *.
  rewrite Hfold. apply or_iff_compat_l. split.
  - intros Hin. apply list_elem_of_fmap in Hin as ([k v] & -> & Hin).
    apply elem_of_map_to_list in Hin. eauto.
  - intros [v Hv]. apply list_elem_of_fmap. exists (id, v).
    split; [done | by apply elem_of_map_to_list].
Qed.

Lemma foldl_distributeStep_added c
  (l : list (CaptureID * gmap TableID model.TableOperation))
  (acc : gmap CaptureID model.TaskStatus * gset TableID) (id : TableID) :
  id ∈ (foldl (distributeStep c) acc l).2
  ↔ id ∈ acc.2 ∨ ∃ kv, kv ∈ l ∧ is_Some (kv.2 !! id).
Proof.
  revert acc. induction l as [|kv l IH]; intros acc; simpl.
  - split; [by left |]. intros [H | (kv & H & _)]; [done | by apply elem_of_nil in H].
  - rewrite IH, distributeStep_added. split.
    + intros [[H | H] | (kv' & H1 & H2)]; [by left | right | right].
      * exists kv. split; [left | done].
      * exists kv'. split; [by right | done].
    + intros [H | (kv' & [-> | H1]%elem_of_cons & H2)]; [by left; left | by left; right |].
      right. by exists kv'.
Qed.

Lemma updateTaskStatusLoop_queues l c :
  orphanTables (updateTaskStatusLoop l c).1 = orphanTables c
  ∧ toCleanTables (updateTaskStatusLoop l c).1 = toCleanTables c.
Proof.
  revert c. induction l as [|[k s] l IH]; intros c; simpl; [done |].
  destruct (AtomicPutTaskStatus _ _ _) as [cli [err|new]]; simpl; [done |].
  match goal with |- context [updateTaskStatusLoop l ?c1] => destruct (IH c1) as [-> ->] end.
  done.
Qed.

(** X12.  A balancing round that gets past its guards and returns nil
    (cyclic replication off) leaves the clean-up queue empty, takes every
    table the scheduler has distributed out of the orphans, and keeps the
    orphans the scheduler has left out. *)
Theorem balanceOrphanTables_consumes (cyclic : CyclicPkg)
  (captures : gmap CaptureID CaptureInfo) c
  (Hcap : size captures ≠ 0)
  (Hidle : someCaptureUnapplied (taskStatus c) = false)
  (Hnc : cyclicEnabled c = false)
  (Hok : (balanceOrphanTables cyclic captures c).2 = Nil) :
  let c' := (balanceOrphanTables cyclic captures c).1 in
  let plan :=
    (DistributeTables (AlignCapture (scheduler c) (dom captures)) (orphanTables c)).2 in
  toCleanTables c' = ∅
  ∧ (∀ cid ops id, plan !! cid = Some ops → is_Some (ops !! id) →
                   orphanTables c' !! id = None)
  ∧ (∀ id, (∀ cid ops, plan !! cid = Some ops → ops !! id = None) →
           orphanTables c' !! id = orphanTables c !! id).
Proof.
  cbv zeta. revert Hok. unfold balanceOrphanTables.
  destruct (decide (size captures = 0)); [done |]. rewrite Hidle.
  set (c0 := set_scheduler _ c).
  pose proof (foldl_cleanStep_frame (map_to_list (toCleanTables c0)) (c0, ∅, ∅)) as Hframe.
  pose proof (foldl_cleanStep_queue (map_to_list (toCleanTables c0)) (c0, ∅, ∅))
    as (Ho & Hs & Hsub & _ & Hin).
  cbv zeta in *.
  destruct (foldl cleanStep (c0, ∅, ∅) (map_to_list (toCleanTables c0))) as [[c1 nts] cleaned].
  simpl in *.
  assert (cyclicEnabled c1 = false) as ->
    by (destruct Hframe as (_ & _ & _ & _ & _ & _ & -> & _); done).
  rewrite Hs, Ho.
  destruct (DistributeTables (AlignCapture (scheduler c) (dom captures)) (orphanTables c))
    as [sched plan] eqn:Hplan.
  set (c2 := logCall _ (set_scheduler sched c1)).
  pose proof (foldl_distributeStep_added c2 (map_to_list plan) (nts, ∅)) as Hadded.
  destruct (foldl (distributeStep c2) (nts, ∅) (map_to_list plan)) as [nts' added].
  simpl in Hadded. unfold commitBalance, updateTaskStatus.
  destruct (updateTaskStatusLoop_queues (map_to_list nts') c2) as [Hq1 Hq2].
  destruct (updateTaskStatusLoop (map_to_list nts') c2) as [c3 err]. simpl in *.
  intros Hok. destruct err; try done. clear Hok. simpl.
  rewrite Hq1, Hq2. split_and!.
  - apply map_eq. intros k. rewrite lookup_empty, deleteAll_lookup.
    destruct (decide (k ∈ cleaned)) as [Hk | Hk]; [done |].
    destruct (toCleanTables c1 !! k) as [v|] eqn:Hv; [| done].
    destruct (Hsub k) as [H | H]; [congruence |].
    destruct (Hin k) as [H1 | H1]; [| done | congruence].
    apply list_elem_of_fmap. exists (k, v). split; [done |].
    apply elem_of_map_to_list. congruence.
  - intros cid ops id Hcid Hid. rewrite deleteAll_lookup.
    rewrite decide_True; [done |].
    apply Hadded. right. exists (cid, ops). split; [| done].
    by apply elem_of_map_to_list.
  - intros id Hnone. rewrite deleteAll_lookup.
    rewrite decide_False; [by rewrite Ho |].
    intros [H | ([cid ops] & Hkv & [v Hv])]%Hadded; [set_solver |].
    apply elem_of_map_to_list in Hkv. simpl in Hv.
    specialize (Hnone cid ops Hkv). congruence.
Qed.

(** *** applyJob and the cyclic branch of balanceOrphanTables *)

(** X26.  Whatever the job, [applyJob] edits only the owner's table
    bookkeeping (schemas, tables, partitions, the orphan and clean-up
    queues): it calls neither the sink, the metadata store nor the
    scheduler and does not change the schema snapshot (on an error it has
    the snapshot print its status, no more), and the task statuses, the
    changefeed status, the DDL state and history and the outstanding add
    operations are as before. *)
Theorem applyJob_bookkeeping_only (job : timodel.Job) c :
  let c' := (applyJob job c).1 in
  calls c' = calls c ∧ etcdCli c' = etcdCli c ∧ taskStatus c' = taskStatus c
  ∧ scheduler c' = scheduler c ∧ sink c' = sink c ∧ schema c' = schema c
  ∧ todoAddOperations c' = todoAddOperations c
  ∧ status c' = status c ∧ ddlState c' = ddlState c
  ∧ ddlJobHistory c' = ddlJobHistory c ∧ ddlExecutedTs c' = ddlExecutedTs c.
Proof.
  cbv zeta.
  destruct (applyJob_bookFrame job c) as (H1 & H2 & H3 & H4 & H5 & H6 & H7).
  destruct (applyJob_frame job c) as (_ & H8 & H9 & H10 & H11 & _).
  by split_and!.
Qed.

Lemma foldl_cleanStep_schema (l : list (TableID * Ts))
  (acc : CF * gmap CaptureID model.TaskStatus * gset TableID) :
  schema (foldl cleanStep acc l).1.1 = schema acc.1.1.
Proof.
  revert acc. induction l as [|[id ts] l IH]; intros acc; simpl; [done |].
  rewrite IH. destruct acc as [[c nts] cleaned]. simpl.
  by destruct (findTaskStatusWithTable (taskStatus c) id) as [[cid st]|].
Qed.

Lemma deleteAll_empty (m : gmap TableID Ts) : deleteAll ∅ m = m.
Proof.
  apply map_eq. intros k. rewrite deleteAll_lookup.
  destruct (decide (k ∈ (∅ : gset TableID))) as [Hin |]; [| done].
  by apply not_elem_of_empty in Hin.
Qed.

(** X27.  With cyclic replication on, a balancing round dispatches no
    orphan table whose mark table the schema snapshot does not know yet,
    and no mark table on its own: when every orphan table is of one of
    these two kinds (or unknown to the snapshot), the orphans are all
    still waiting after the round. *)
Theorem balanceOrphanTables_waits_for_mark (cyclic : CyclicPkg)
  (captures : gmap CaptureID CaptureInfo) c
  (Hcyc : cyclicEnabled c = true)
  (Hwait : ∀ id ts name,
      orphanTables c !! id = Some ts →
      GetTableNameByID (schema c) id = Some name →
      IsMarkTable cyclic (entry.Schema name) (entry.Table name) = true
      ∨ GetTableIDByName (schema c)
          (MarkTableName cyclic (entry.Schema name) (entry.Table name)).1
          (MarkTableName cyclic (entry.Schema name) (entry.Table name)).2 = None) :
  orphanTables (balanceOrphanTables cyclic captures c).1 = orphanTables c.
Proof.
  unfold balanceOrphanTables.
  destruct (decide (size captures = 0)); [done |].
  destruct (someCaptureUnapplied (taskStatus c)); [done |].
  set (c0 := set_scheduler _ c).
  pose proof (foldl_cleanStep_frame (map_to_list (toCleanTables c0)) (c0, ∅, ∅)) as Hframe.
  pose proof (foldl_cleanStep_queue (map_to_list (toCleanTables c0)) (c0, ∅, ∅))
    as (Ho & _).
  pose proof (foldl_cleanStep_schema (map_to_list (toCleanTables c0)) (c0, ∅, ∅)) as Hsch.
  cbv zeta in *.
  destruct (foldl cleanStep (c0, ∅, ∅) (map_to_list (toCleanTables c0))) as [[c1 nts] cleaned].
  simpl in *.
  assert (cyclicEnabled c1 = true) as ->
    by (destruct Hframe as (_ & _ & _ & _ & _ & _ & -> & _); done).
  assert (foldl (cyclicStep cyclic captures c1) (Some (nts, ∅)) (map_to_list (orphanTables c1))
          = Some (nts, ∅)) as ->.
  { assert (∀ kv, kv ∈ map_to_list (orphanTables c1) →
                  cyclicStep cyclic captures c1 (Some (nts, ∅)) kv = Some (nts, ∅)) as Hstep.
    { intros [id ts] Hin. apply elem_of_map_to_list in Hin. rewrite Ho in Hin.
      unfold cyclicStep. rewrite Hsch.
      destruct (GetTableNameByID (schema c) id) as [name|] eqn:Hname; [| done].
      destruct (Hwait id ts name Hin Hname) as [Hmark | Hnone]; [by rewrite Hmark |].
      destruct (IsMarkTable cyclic (entry.Schema name) (entry.Table name)); [done |].
      destruct (MarkTableName cyclic (entry.Schema name) (entry.Table name))
        as [markSchema markTable].
      simpl in Hnone. by rewrite Hnone. }
    induction (map_to_list (orphanTables c1)) as [|kv l IH]; [done |].
    cbn [foldl]. rewrite Hstep by left. apply IH. intros kv' Hin. apply Hstep. by right. }
  unfold commitBalance, updateTaskStatus.
  destruct (updateTaskStatusLoop_queues (map_to_list nts) c1) as [Hq _].
  destruct (updateTaskStatusLoop (map_to_list nts) c1) as [c2 err]. simpl in *.
  destruct err; simpl; rewrite ?deleteAll_empty; congruence.
Qed.

(** *** handleDDL: when it is fatal *)

Lemma balanceOrphanTables_never_fatal cyclic captures c :
  (balanceOrphanTables cyclic captures c).2 ≠ Fatal.
Proof.
  assert (∀ nts cleaned added (c1 : CF), (commitBalance nts cleaned added c1).2 ≠ Fatal)
    as Hcommit.
  { intros nts cleaned added c1. unfold commitBalance, updateTaskStatus.
    pose proof (updateTaskStatusLoop_never_fatal (map_to_list nts) c1) as Hnf.
    destruct (updateTaskStatusLoop (map_to_list nts) c1) as [c2 err]. simpl in *.
    by destruct err. }
  unfold balanceOrphanTables.
  destruct (decide (size captures = 0)); [done |].
  destruct (someCaptureUnapplied (taskStatus c)); [done |].
  destruct (foldl cleanStep _ _) as [[c1 nts] cleaned].
  destruct (cyclicEnabled c1).
  - destruct (foldl _ _ _) as [[nts' added]|]; [apply Hcommit | done].
  - destruct (DistributeTables (scheduler c1) (orphanTables c1)) as [sched ops].
    destruct (foldl _ _ _) as [nts' added]. apply Hcommit.
Qed.

(** X29.  On jobs that carry their [BinlogInfo], [handleDDL] ends the
    process ([log.Fatal], or the nil [TableInfo] that [applyJob]
    dereferences) in two cases only: the state is WaitToExecDDL with an
    empty job history, or the job at the barrier creates, recovers or
    truncates a table and carries no [TableInfo].  The check of the state
    after the sink call never fires. *)
Theorem handleDDL_fatal_cases (cyclic : CyclicPkg)
  (captures : gmap CaptureID CaptureInfo) c
  (Hfatal : (handleDDL cyclic captures c).2 = Fatal) :
  ddlState c = model.ChangeFeedWaitToExecDDL
  ∧ (ddlJobHistory c = []
     ∨ ∃ job rest,
         ddlJobHistory c = job :: rest
         ∧ timodel.binlogTableInfo (timodel.BinlogInfo job) = None
         ∧ (timodel.jobType job = timodel.ActionCreateTable
            ∨ timodel.jobType job = timodel.ActionRecoverTable
            ∨ timodel.jobType job = timodel.ActionTruncateTable)).
Proof.
  revert Hfatal. unfold handleDDL.
  destruct (model.ddlState_eqb (ddlState c) model.ChangeFeedWaitToExecDDL) eqn:Hst;
    simpl; [| done].
  apply ddlState_eqb_eq in Hst. split; [exact Hst |]. revert Hfatal.
  destruct (ddlJobHistory c) as [|job rest]; [by left |].
  destruct (_ <? _); [done |].
  destruct (negb _); [done |].
  destruct (HandleDDL (schema c) job) as [sch [e|]]; [done |].
  destruct (FillSchemaName _ job) as [e|name]; [done |].
  set (job' := timodel.setSchemaName name job).
  set (c2 := set_ddlState _ _).
  assert (ddlState c2 = model.ChangeFeedExecDDL) as H2 by reflexivity.
  pose proof (applyJob_frame job' c2) as Happly.
  assert ((applyJob job' c2).2 = ApplyPanic →
          timodel.binlogTableInfo (timodel.BinlogInfo job) = None
          ∧ (timodel.jobType job = timodel.ActionCreateTable
             ∨ timodel.jobType job = timodel.ActionRecoverTable
             ∨ timodel.jobType job = timodel.ActionTruncateTable)) as Hpanic.
  { unfold applyJob.
    change (timodel.binlogTableInfo (timodel.BinlogInfo job'))
      with (timodel.binlogTableInfo (timodel.BinlogInfo job)).
    change (timodel.jobType job') with (timodel.jobType job).
    destruct (timodel.binlogTableInfo (timodel.BinlogInfo job)) as [ti|].
    - destruct (IsIneligibleTableID (schema c2) (timodel.tiID ti)); [done |].
      destruct (timodel.jobType job); simpl;
        repeat match goal with
               | |- context [match GetTableNameByID ?s ?i with _ => _ end] =>
                   destruct (GetTableNameByID s i); simpl
               end; done.
    - destruct (timodel.jobType job); simpl;
        repeat match goal with
               | |- context [match GetTableNameByID ?s ?i with _ => _ end] =>
                   destruct (GetTableNameByID s i); simpl
               end; try done; auto. }
  destruct (applyJob job' c2) as [c3 r]. simpl in Happly, Hpanic.
  destruct r as [[|]|e|]; simpl; try done.
  2: { intros _. right. exists job, rest. split; [done |]. by apply Hpanic. }
  pose proof (balanceOrphanTables_frame cyclic captures c3) as Hbal.
  pose proof (balanceOrphanTables_never_fatal cyclic captures c3) as Hnf.
  destruct (balanceOrphanTables cyclic captures c3) as [c4 err]. simpl in Hbal, Hnf.
  destruct err; simpl; try done.
  assert (ddlState c4 = model.ChangeFeedExecDDL) as H4.
  { destruct Happly as (_ & _ & Ha & _). destruct Hbal as (_ & _ & Hb & _). congruence. }
  destruct (negb (cyclicEnabled c4) || cyclicSyncDDL c4).
  - destruct (EmitDDLEvent _ _) as [snk [e|]]; simpl; [done |]. by rewrite H4.
  - simpl. by rewrite H4.
Qed.

End OwnerMore.

(** ** Task-status writes of a tick that fails, in any visiting order *)

Section FailedTick.

Context {Sch Snk Sched Hdl : Type}.
Context `{!SchemaSnapshot Sch, !Sink Snk, !Scheduler Sched, !OwnerDDLHandler Hdl}.

#[local] Abbreviation CF := (@changeFeed Sch Snk Sched Hdl).

Implicit Types c : CF.

(** No capture holds the table exactly when the search finds none. *)
Lemma findTaskStatusWithTable_None (infos : gmap CaptureID model.TaskStatus) (id : TableID) :
  findTaskStatusWithTable infos id = None
  ↔ ∀ cid st, infos !! cid = Some st → model.Tables st !! id = None.
Proof.
  unfold findTaskStatusWithTable. split.
  - intros Hnone cid st Hin.
    assert (In (cid, st) (map_to_list infos)) as HIn
      by (by apply list_elem_of_In, elem_of_map_to_list).
    apply (find_none _ _ Hnone) in HIn. simpl in HIn.
    apply bool_decide_eq_false in HIn. by apply eq_None_not_Some.
  - intros Hall.
    destruct (List.find _ _) as [[cid st]|] eqn:Hfind; [| done].
    apply find_some in Hfind as [Hin Hf]. simpl in Hf.
    apply bool_decide_eq_true in Hf.
    apply list_elem_of_In, elem_of_map_to_list in Hin.
    rewrite (Hall _ _ Hin) in Hf. by destruct Hf.
Qed.

(** The loop over toCleanTables writes nothing to the store and drops
    from the queue the ids it visits that no capture holds. *)
Lemma foldl_cleanStep_toClean (l : list (TableID * Ts))
  (acc : CF * gmap CaptureID model.TaskStatus * gset TableID) :
  let r := foldl cleanStep acc l in
  etcdCli r.1.1 = etcdCli acc.1.1
  ∧ taskStatus r.1.1 = taskStatus acc.1.1
  ∧ (∀ id, id ∈ l.*1 → findTaskStatusWithTable (taskStatus acc.1.1) id = None →
           toCleanTables r.1.1 !! id = None)
  ∧ (∀ id, id ∉ l.*1 ∨ findTaskStatusWithTable (taskStatus acc.1.1) id ≠ None →
           toCleanTables r.1.1 !! id = toCleanTables acc.1.1 !! id).
Proof.
  revert acc. induction l as [|[id ts] l IH]; intros acc; cbn [foldl].
  - cbv zeta. split_and!; try done. intros id Hid. by apply elem_of_nil in Hid.
  - destruct (IH (cleanStep acc (id, ts))) as (He & Ht & Hdel & Hkeep). cbv zeta in *.
    assert (etcdCli (cleanStep acc (id, ts)).1.1 = etcdCli acc.1.1
            ∧ taskStatus (cleanStep acc (id, ts)).1.1 = taskStatus acc.1.1
            ∧ (findTaskStatusWithTable (taskStatus acc.1.1) id = None →
               toCleanTables (cleanStep acc (id, ts)).1.1 = delete id (toCleanTables acc.1.1))
            ∧ (findTaskStatusWithTable (taskStatus acc.1.1) id ≠ None →
               toCleanTables (cleanStep acc (id, ts)).1.1 = toCleanTables acc.1.1))
      as (He1 & Ht1 & Hdel1 & Hkeep1).
    { destruct acc as [[c nts] cleaned]. simpl.
      destruct (findTaskStatusWithTable (taskStatus c) id) as [[cid st]|]; simpl;
        by split_and!. }
    rewrite Ht1 in *.
    split; [congruence |]. split; [congruence |]. split.
    + intros k Hk Hnone. rewrite fmap_cons in Hk. cbn [fst] in Hk.
      destruct (decide (k ∈ l.*1)) as [Hin | Hnin]; [by apply Hdel |].
      apply elem_of_cons in Hk as [-> | Hk]; [| done].
      rewrite Hkeep by (by left). rewrite Hdel1 by done. apply lookup_delete_eq.
    + intros k Hk. rewrite fmap_cons in Hk. cbn [fst] in Hk.
      destruct (decide (k ∈ l.*1)) as [Hin | Hnin].
      * destruct Hk as [Hk | Hk]; [exfalso; apply Hk; by right |].
        rewrite Hkeep by (by right).
        destruct (decide (k = id)) as [-> | Hne]; [by rewrite Hkeep1 |].
        destruct (findTaskStatusWithTable (taskStatus acc.1.1) id) eqn:Hf.
        -- by rewrite Hkeep1.
        -- rewrite Hdel1 by done. by rewrite lookup_delete_ne.
      * rewrite Hkeep by (by left).
        destruct (findTaskStatusWithTable (taskStatus acc.1.1) id) eqn:Hf.
        -- by rewrite Hkeep1.
        -- rewrite Hdel1 by done.
           destruct (decide (k = id)) as [-> | Hne]; [| by rewrite lookup_delete_ne].
           destruct Hk as [Hk | Hk]; [exfalso; apply Hk; by left | done].
Qed.

(** A capture among those to write whose stored status has a pending
    operation makes the loop fail, wherever it stands in the order. *)
Lemma updateTaskStatusLoop_refused (l : list (CaptureID * model.TaskStatus)) c
  (cid : CaptureID) (st : model.TaskStatus) :
  NoDup l.*1 → (cid, st) ∈ l →
  model.SomeOperationsUnapplied
    (default model.newTaskStatus (taskStatusKV (etcdCli c) !! cid)) = true →
  (updateTaskStatusLoop l c).2 = Failed ErrOperationUnapplied.
Proof.
  revert c. induction l as [|[k s] l IH]; intros c Hnd Hin Hu.
  - by apply elem_of_nil in Hin.
  - simpl in Hnd. apply NoDup_cons in Hnd as [Hfresh Hnd].
    cbn [updateTaskStatusLoop]. unfold AtomicPutTaskStatus, putTablesAndOperation.
    destruct (model.SomeOperationsUnapplied
                (default model.newTaskStatus (taskStatusKV (etcdCli c) !! k))) eqn:Hk;
      [done |].
    apply elem_of_cons in Hin as [Heq | Hin]; [injection Heq as <- <-; congruence |].
    apply IH; [done | done |]. simpl.
    rewrite lookup_insert_ne; [done |].
    intros ->. apply Hfresh. apply list_elem_of_fmap. by exists (cid, st).
Qed.

(** A failing [balanceOrphanTables] has reached its last part with the
    store untouched. *)
Lemma balanceOrphanTables_failed_plan (cyclic : CyclicPkg)
  (captures : gmap CaptureID CaptureInfo) c (e : error) :
  (balanceOrphanTables cyclic captures c).2 = Failed e →
  ∃ planned cleaned added c2,
    balanceOrphanTables cyclic captures c = commitBalance planned cleaned added c2
    ∧ etcdCli c2 = etcdCli c
    ∧ orphanTables c2 = orphanTables c
    ∧ (∀ id, (∃ cid st, taskStatus c !! cid = Some st ∧ is_Some (model.Tables st !! id)) →
             toCleanTables c2 !! id = toCleanTables c !! id)
    ∧ (∀ id, (∀ cid st, taskStatus c !! cid = Some st → model.Tables st !! id = None) →
             toCleanTables c2 !! id = None).
Proof.
  unfold balanceOrphanTables.
  destruct (decide (size captures = 0)); [done |].
  destruct (someCaptureUnapplied (taskStatus c)); [done |].
  set (c0 := set_scheduler _ c).
  pose proof (foldl_cleanStep_toClean (map_to_list (toCleanTables c0)) (c0, ∅, ∅))
    as (He & Ht & Hdel & Hkeep).
  pose proof (foldl_cleanStep_queue (map_to_list (toCleanTables c0)) (c0, ∅, ∅))
    as (Ho & _).
  cbv zeta in *.
  destruct (foldl cleanStep (c0, ∅, ∅) (map_to_list (toCleanTables c0))) as [[c1 nts] cleaned].
  simpl in He, Ht, Hdel, Hkeep, Ho.
  assert ((∀ id, (∃ cid st, taskStatus c !! cid = Some st ∧ is_Some (model.Tables st !! id)) →
                 toCleanTables c1 !! id = toCleanTables c !! id)
          ∧ (∀ id, (∀ cid st, taskStatus c !! cid = Some st → model.Tables st !! id = None) →
                   toCleanTables c1 !! id = None)) as [Hheld Hfree].
  { split.
    - intros id (cid & st & Hcid & Hsome). apply Hkeep. right.
      intros Hnone. rewrite findTaskStatusWithTable_None in Hnone.
      rewrite (Hnone _ _ Hcid) in Hsome. by destruct Hsome.
    - intros id Hnone. apply findTaskStatusWithTable_None in Hnone.
      destruct (toCleanTables c !! id) as [ts|] eqn:Hq.
      + apply Hdel; [| exact Hnone].
        apply list_elem_of_fmap. exists (id, ts). split; [done |].
        by apply elem_of_map_to_list.
      + rewrite Hkeep; [exact Hq |]. left.
        intros ([k ts] & -> & Hin)%list_elem_of_fmap.
        apply elem_of_map_to_list in Hin. simpl in *. congruence. }
  destruct (cyclicEnabled c1).
  - destruct (foldl (cyclicStep cyclic captures c1) _ _) as [[nts' added]|]; [| done].
    intros _. by exists nts', cleaned, added, c1.
  - destruct (DistributeTables (scheduler c1) (orphanTables c1)) as [sched plan].
    set (c2 := logCall _ (set_scheduler sched c1)).
    destruct (foldl (distributeStep c2) (nts, ∅) (map_to_list plan)) as [nts' added].
    intros _. by exists nts', cleaned, added, c2.
Qed.

(** C7 (amended).  When a write inside [updateTaskStatus] fails, in
    whatever order the loop visits the statuses to write: the error is
    the update function refusing a capture whose stored status still has a
    pending operation; the statuses of the captures visited before that one
    have been written and stay in the metadata store; the entry of the
    refused capture and of every capture not yet visited is as it was;
    orphanTables and toCleanTables are not touched by the loop; and every
    other visiting order fails as well.  When [balanceOrphanTables]
    returns an error, it is such a failed [updateTaskStatus] on the store
    as it was at entry; orphanTables is as at entry, and toCleanTables has
    lost exactly the ids that no task status lists (the loop over
    toCleanTables drops them before anything is written) and keeps every
    other one. *)
Theorem updateTaskStatus_partial_writes
  (newTaskStatus : gmap CaptureID model.TaskStatus)
  (visit : list (CaptureID * model.TaskStatus)) c (e : error)
  (Hvisit : visit ≡ₚ map_to_list newTaskStatus)
  (Hfail : (updateTaskStatusLoop visit c).2 = Failed e) :
  let c' := (updateTaskStatusLoop visit c).1 in
  (∃ done cid st rest,
     visit = done ++ (cid, st) :: rest
     ∧ e = ErrOperationUnapplied
     ∧ model.SomeOperationsUnapplied
         (default model.newTaskStatus (taskStatusKV (etcdCli c) !! cid)) = true
     ∧ (∀ k s, (k, s) ∈ done → taskStatusKV (etcdCli c') !! k = Some s)
     ∧ (∀ k, k ∉ done.*1 → taskStatusKV (etcdCli c') !! k = taskStatusKV (etcdCli c) !! k)
     ∧ orphanTables c' = orphanTables c
     ∧ toCleanTables c' = toCleanTables c)
  ∧ (∀ visit', visit' ≡ₚ map_to_list newTaskStatus →
               (updateTaskStatusLoop visit' c).2 = Failed e)
  ∧ (∀ (cyclic : CyclicPkg) (captures : gmap CaptureID CaptureInfo) c0 (e0 : error),
       (balanceOrphanTables cyclic captures c0).2 = Failed e0 →
       let c1 := (balanceOrphanTables cyclic captures c0).1 in
       e0 = ErrOperationUnapplied
       ∧ orphanTables c1 = orphanTables c0
       ∧ (∀ id, (∃ cid st, taskStatus c0 !! cid = Some st
                           ∧ is_Some (model.Tables st !! id)) →
                toCleanTables c1 !! id = toCleanTables c0 !! id)
       ∧ (∀ id, (∀ cid st, taskStatus c0 !! cid = Some st → model.Tables st !! id = None) →
                toCleanTables c1 !! id = None)
       ∧ ∃ planned c2,
           taskStatusKV (etcdCli c2) = taskStatusKV (etcdCli c0)
           ∧ balanceOrphanTables cyclic captures c0 = updateTaskStatus planned c2).
Proof.
  cbv zeta.
  assert (NoDup visit.*1) as Hnd.
  { rewrite Hvisit. apply NoDup_fst_map_to_list. }
  destruct (updateTaskStatusLoop_failed _ _ _ Hnd Hfail)
    as (done & cid & st & rest & Hl & He & Hu & Hkv & Ho & Ht).
  split_and!.
  - exists done, cid, st, rest. rewrite Hkv. split_and!; try done.
    + intros k s Hin. apply putAll_lookup; [| exact Hin].
      rewrite Hl, fmap_app in Hnd. by apply NoDup_app in Hnd as [? _].
    + intros k Hk. by apply putAll_lookup_other.
  - intros visit' Hvisit'. rewrite He.
    apply (updateTaskStatusLoop_refused visit' c cid st).
    + rewrite Hvisit'. apply NoDup_fst_map_to_list.
    + rewrite Hvisit', <- Hvisit, Hl. apply elem_of_app. right. by left.
    + exact Hu.
  - intros cyclic captures c0 e0 Hbal.
    destruct (balanceOrphanTables_failed_plan cyclic captures c0 e0 Hbal)
      as (planned & cleaned & added & c2 & Heq & Hcli & Horph & Hheld & Hfree).
    rewrite Heq in Hbal |- *.
    assert ((updateTaskStatus planned c2).2 = Failed e0
            ∧ commitBalance planned cleaned added c2 = updateTaskStatus planned c2)
      as [Hup Hsame].
    { revert Hbal. unfold commitBalance.
      destruct (updateTaskStatus planned c2) as [c3 [|e1|]]; simpl; try done. }
    rewrite Hsame.
    destruct (updateTaskStatusLoop_failed _ _ _ (NoDup_fst_map_to_list planned) Hup)
      as (_ & _ & _ & _ & _ & He0 & _ & _ & Ho2 & Ht2).
    fold (updateTaskStatus planned c2) in Ho2, Ht2.
    split; [exact He0 |]. split; [congruence |].
    split; [intros id Hid; rewrite Ht2; by apply Hheld |].
    split; [intros id Hid; rewrite Ht2; by apply Hfree |].
    exists planned, c2. split; [by rewrite Hcli | done].
Qed.

End FailedTick.

(** ** Further properties of the DDL handler and of the txn channel *)

Section DDLHandlerMore.

Variable UnmarshalDDL : RawKVEntry → error + option timodel.Job.
Variable SkipJob : timodel.Job → bool.

(** X13.  Receiving two batches of events one after the other is
    receiving them as one batch, and once an event has failed to decode
    the handler takes in nothing more: the events behind it leave the
    buffer and the resolved ts as they were at the failure. *)
Theorem receiveLoop_app (events1 events2 : list RawKVEntry) (h : ddl.ddlHandler) :
  ddl.receiveLoop UnmarshalDDL SkipJob (events1 ++ events2) h
  = match ddl.receiveLoop UnmarshalDDL SkipJob events1 h with
    | (h1, None) => ddl.receiveLoop UnmarshalDDL SkipJob events2 h1
    | (h1, Some err) => (h1, Some err)
    end.
Proof.
  revert h. induction events1 as [|e events1 IH]; intros h; simpl; [done |].
  destruct (ddl.receiveDDL UnmarshalDDL SkipJob e h) as [h' [err|]]; [done | apply IH].
Qed.

End DDLHandlerMore.

Lemma forwardLoop_then ts1 ts2 closed q table :
  (ts1 <= ts2)%N →
  (forwardLoop ts1 closed None q).2 = Returned →
  forwardLoop ts2 closed None q
  = ((forwardLoop ts1 closed None q).1.1
       ++ (Forward table ts2 (forwardLoop ts1 closed None q).1.2).1.1,
     (Forward table ts2 (forwardLoop ts1 closed None q).1.2).1.2,
     (Forward table ts2 (forwardLoop ts1 closed None q).1.2).2).
Proof.
  intros Hle. induction q as [|t q IH]; simpl.
  - destruct closed; [| done]. intros _. reflexivity.
  - destruct (N.ltb_spec ts1 (TS t)) as [Hlt | Hge]; simpl.
    + intros _. unfold Forward. simpl.
      destruct (N.ltb_spec ts2 (TS t)); simpl; [done |].
      by destruct (forwardLoop ts2 closed None q) as [[out p'] st].
    + destruct (N.ltb_spec ts2 (TS t)); [lia |].
      destruct (forwardLoop ts1 closed None q) as [[out1 p1] st1] eqn:H1. simpl in *.
      intros Hret. rewrite (IH Hret).
      by destruct (Forward table ts2 p1) as [[out2 p2] st2].
Qed.

(** X14.  Forwarding up to [ts1] and then, once that has returned, up
    to a later [ts2] sends the same entries in the same order, leaves the
    channel in the same state and ends in the same way as forwarding up to
    [ts2] at once. *)
Theorem Forward_then (table : N) (ts1 ts2 : Ts) (p : txnChannel)
  (Hle : (ts1 <= ts2)%N)
  (Hret : (Forward table ts1 p).2 = Returned) :
  Forward table ts2 p
  = ((Forward table ts1 p).1.1 ++ (Forward table ts2 (Forward table ts1 p).1.2).1.1,
     (Forward table ts2 (Forward table ts1 p).1.2).1.2,
     (Forward table ts2 (Forward table ts1 p).1.2).2).
Proof.
  destruct (putBackTxn p) as [t|] eqn:Hpb.
  - assert (∀ ts, Forward table ts p
                  = if (ts <? TS t)%N then ([], p, Returned)
                    else (dmlEntry t :: (forwardLoop ts (outputClosed p) None (outputTxn p)).1.1,
                          (forwardLoop ts (outputClosed p) None (outputTxn p)).1.2,
                          (forwardLoop ts (outputClosed p) None (outputTxn p)).2)) as HF.
    { intros ts. unfold Forward. rewrite Hpb. destruct (ts <? TS t)%N; [done |].
      by destruct (forwardLoop ts (outputClosed p) None (outputTxn p)) as [[out p'] st]. }
    rewrite (HF ts1) in *.
    destruct (N.ltb_spec ts1 (TS t)) as [Hlt | Hge]; simpl in *.
    + by destruct (Forward table ts2 p) as [[out p'] st].
    + rewrite (HF ts2). destruct (N.ltb_spec ts2 (TS t)); [lia |].
      by rewrite (forwardLoop_then ts1 ts2 (outputClosed p) (outputTxn p) table Hle Hret).
  - assert (∀ ts, Forward table ts p = forwardLoop ts (outputClosed p) None (outputTxn p))
      as HF by (intros ts; unfold Forward; by rewrite Hpb).
    rewrite (HF ts1) in *. rewrite (HF ts2). by apply forwardLoop_then.
Qed.

Lemma forwardLoop_never_fatal ts closed q : (forwardLoop ts closed None q).2 ≠ ForwardFatal.
Proof.
  induction q as [|t q IH]; simpl.
  - by destruct closed.
  - destruct (ts <? TS t)%N; simpl; [done |].
    by destruct (forwardLoop ts closed None q) as [[out p'] st].
Qed.

(** X15.  [Forward] loses and invents nothing and never puts back a
    second transaction: what it sends, followed by what the channel holds
    afterwards, is what the channel held before, in the same order, and
    the fatal error of [PutBack] is never reached. *)
Theorem Forward_conserves (table : N) (ts : Ts) (p : txnChannel) :
  (Forward table ts p).1.1 ++ map dmlEntry (pendingTxns (Forward table ts p).1.2)
  = map dmlEntry (pendingTxns p)
  ∧ (Forward table ts p).2 ≠ ForwardFatal
  ∧ outputClosed (Forward table ts p).1.2 = outputClosed p.
Proof.
  assert (∀ closed q,
            (forwardLoop ts closed None q).1.1
              ++ map dmlEntry (pendingTxns (forwardLoop ts closed None q).1.2)
            = map dmlEntry q
            ∧ outputClosed (forwardLoop ts closed None q).1.2 = closed) as Hloop.
  { intros closed q. induction q as [|t q [IH1 IH2]]; simpl; [done |].
    destruct (ts <? TS t)%N; simpl; [done |].
    destruct (forwardLoop ts closed None q) as [[out p'] st]. simpl in *.
    split; [by rewrite IH1 | done]. }
  unfold Forward, pendingTxns at 2.
  destruct (putBackTxn p) as [t|] eqn:Hpb.
  - destruct (ts <? TS t)%N; simpl.
    + unfold pendingTxns. by rewrite Hpb.
    + pose proof (Hloop (outputClosed p) (outputTxn p)) as [H1 H2].
      pose proof (forwardLoop_never_fatal ts (outputClosed p) (outputTxn p)) as H3.
      destruct (forwardLoop ts (outputClosed p) None (outputTxn p)) as [[out p'] st].
      simpl in *. split; [by rewrite H1 | done].
  - pose proof (Hloop (outputClosed p) (outputTxn p)) as [H1 H2].
    split; [done |]. split; [apply forwardLoop_never_fatal | done].
Qed.

(** ** The processor's other workers *)

Lemma foldl_min_spec (l : list (N * Ts)) (start : Ts) :
  let m := foldl (fun (acc : Ts) (kv : N * Ts) => if (kv.2 <? acc)%N then kv.2 else acc)
                 start l in
  (m <= start)%N
  ∧ Forall (fun kv => (m <= kv.2)%N) l
  ∧ (m = start ∨ ∃ kv, kv ∈ l ∧ kv.2 = m).
Proof.
  revert start. induction l as [|x l IH]; intros start; simpl.
  - split; [lia |]. split; [constructor | by left].
  - destruct (IH (if (x.2 <? start)%N then x.2 else start)) as (Hle & Hall & Hmem).
    cbv zeta in *. set (m := foldl _ _ l) in *.
    destruct (N.ltb_spec x.2 start) as [Hlt | Hge].
    + split; [lia |]. split; [constructor; [lia | done] |].
      right. destruct Hmem as [-> | (kv & Hin & Hkv)].
      * exists x. split; [left | done].
      * exists kv. split; [by right | done].
    + split; [done |]. split; [constructor; [lia | done] |].
      destruct Hmem as [-> | (kv & Hin & Hkv)]; [by left |].
      right. exists kv. split; [by right | done].
Qed.

(** X16.  A tick of [localResolvedWorker] writes the smallest resolved
    ts of the tables, which is the resolved ts of one of them; it writes
    nothing exactly when no table has a resolved ts below MaxUint64, so a
    processor whose tables all stand at MaxUint64 looks like one without
    tables. *)
Theorem localResolvedTick_min (tableResolvedTS : gmap N Ts)
  (Hrange : ∀ table ts, tableResolvedTS !! table = Some ts → (ts <= MaxUint64)%N) :
  match localResolvedTick tableResolvedTS with
  | Some written =>
      (written < MaxUint64)%N
      ∧ (∃ table, tableResolvedTS !! table = Some written)
      ∧ ∀ table ts, tableResolvedTS !! table = Some ts → (written <= ts)%N
  | None => ∀ table ts, tableResolvedTS !! table = Some ts → ts = MaxUint64
  end.
Proof.
  unfold localResolvedTick.
  destruct (foldl_min_spec (map_to_list tableResolvedTS) MaxUint64) as (Hle & Hall & Hmem).
  cbv zeta in *. set (m := foldl _ _ _) in *.
  rewrite Forall_forall in Hall.
  destruct (N.eqb_spec m MaxUint64) as [Heq | Hne].
  - intros table ts Hin. specialize (Hrange table ts Hin).
    apply elem_of_map_to_list in Hin. specialize (Hall _ Hin). simpl in Hall. lia.
  - split; [lia |]. split.
    + destruct Hmem as [? | ([table ts] & Hin & Hkv)]; [done |].
      exists table. apply elem_of_map_to_list in Hin. simpl in Hkv. by subst.
    + intros table ts Hin. apply elem_of_map_to_list in Hin. exact (Hall _ Hin).
Qed.

Lemma snoc_split_prefix {A} (executed rest l : list A) (x : A) :
  l ++ [x] = executed ++ rest → rest ≠ [] → ∃ more, l = executed ++ more.
Proof.
  revert l. induction executed as [|e executed IH]; intros l Heq Hrest; simpl in *.
  - by exists l.
  - destruct l as [|y l]; simpl in *.
    + injection Heq as -> Heq. destruct executed; simpl in *; [| done].
      by subst.
    + injection Heq as -> Heq. destruct (IH l Heq Hrest) as [more ->]. by exists more.
Qed.

Lemma checkpointWorkerLoop_dmls (entries : list ProcessorEntry)
  (events : list checkpointEvent) (cp : Ts) :
  Forall (fun e => Typ e = ProcessorEntryDMLS) entries →
  checkpointWorkerLoop (map EntryExecuted entries ++ events) cp
  = checkpointWorkerLoop events cp.
Proof.
  induction 1 as [|e l He _ IH]; simpl; [done |]. by rewrite He.
Qed.

Lemma Forward_sends_dmls table ts p :
  Forall (fun e => Typ e = ProcessorEntryDMLS) (Forward table ts p).1.1.
Proof.
  destruct (Forward_prefix table ts p) as (taken & rest & _ & -> & _).
  apply Forall_forall. intros e He. apply list_elem_of_fmap in He as (t & -> & _). done.
Qed.

(** X17.  When the entries of a round of the global-resolved worker
    are executed in order and handed to the checkpoint worker, the
    checkpoint it writes moves to the round's resolved ts only once the
    whole round has been executed: after any part of the round short of
    its end it still writes the checkpoint it had, after the whole round
    it writes the round's ts. *)
Theorem checkpoint_after_round (globalResolvedTS : Ts) (w w' : processorImpl)
  (checkpointTS : Ts)
  (Hround : workerRound globalResolvedTS w w') :
  ∃ round,
    resolvedEntries w' = resolvedEntries w ++ round
    ∧ checkpointWorkerLoop (map EntryExecuted round ++ [TimerFired]) checkpointTS
      = [globalResolvedTS]
    ∧ ∀ executed rest,
        round = executed ++ rest → rest ≠ [] →
        checkpointWorkerLoop (map EntryExecuted executed ++ [TimerFired]) checkpointTS
        = [checkpointTS].
Proof.
  destruct Hround as [merged _ _ Hmerge].
  assert (Forall (fun e => Typ e = ProcessorEntryDMLS) merged) as Hdml.
  { eapply interleave_Forall; [exact Hmerge |].
    apply Forall_forall. intros l Hl.
    apply list_elem_of_In, in_map_iff in Hl as ([k p] & <- & _).
    apply Forward_sends_dmls. }
  exists (merged ++ [NewProcessorResolvedEntry globalResolvedTS]). simpl.
  split; [done |]. split.
  - rewrite map_app, <- app_assoc. by rewrite checkpointWorkerLoop_dmls.
  - intros executed rest Heq Hrest.
    assert (∃ more, merged = executed ++ more) as [more ->].
    { destruct (snoc_split_prefix executed rest merged
                  (NewProcessorResolvedEntry globalResolvedTS) Heq Hrest) as [more ->].
      by exists more. }
    apply Forall_app in Hdml as [Hex _].
    by rewrite checkpointWorkerLoop_dmls.
Qed.

(** X28.  An iteration of the global-resolved worker sends the
    [Resolved] marker only when it has read a new global resolved ts and
    every [Forward] has returned, and then as the last entry, behind the
    transactions of the round; an iteration that exits, waits for an
    unchanged ts, blocks in a [Forward] or dies sends transactions at
    most, never a marker. *)
Theorem globalResolvedWorkerStep_marker (closed : bool) (read : readResult)
  (w : processorImpl) :
  let w' := (globalResolvedWorkerStep closed read w).1 in
  let st := (globalResolvedWorkerStep closed read w).2 in
  ∃ dmls marker,
    resolvedEntries w' = resolvedEntries w ++ dmls ++ marker
    ∧ Forall (fun e => Typ e = ProcessorEntryDMLS) dmls
    ∧ (marker = []
       ∨ ∃ ts, read = ReadOk ts ∧ marker = [NewProcessorResolvedEntry ts]
               ∧ closed = false ∧ st = WorkerRunning
               ∧ lastGlobalResolvedTS w ≠ ts ∧ lastGlobalResolvedTS w' = ts
               ∧ ∀ table input, tableInputChans w !! table = Some input →
                                (Forward table ts input).2 = Returned).
Proof.
  cbv zeta. unfold globalResolvedWorkerStep.
  assert (∃ dmls marker : list ProcessorEntry,
            resolvedEntries w = resolvedEntries w ++ dmls ++ marker
            ∧ Forall (fun e => Typ e = ProcessorEntryDMLS) dmls
            ∧ (marker = [] ∨ False)) as (d0 & m0 & Hsame & Hd0 & Hm0).
  { exists [], []. rewrite app_nil_r. split; [done |]. split; [constructor | by left]. }
  destruct Hm0 as [-> |]; [| done].
  destruct closed; simpl; [exists d0, []; split_and!; auto |].
  destruct read as [ts|]; simpl; [| exists d0, []; split_and!; auto].
  destruct (N.eqb_spec (lastGlobalResolvedTS w) ts) as [Heq | Hne]; simpl;
    [exists d0, []; split_and!; auto |].
  set (results := map (fun kv : N * txnChannel => Forward kv.1 ts kv.2)
                      (map_to_list (tableInputChans w))).
  set (sent := concat (map (fun r : list ProcessorEntry * txnChannel * forwardStatus => r.1.1)
                           results)).
  assert (Forall (fun e => Typ e = ProcessorEntryDMLS) sent) as Hsent.
  { subst sent results. apply Forall_concat, Forall_forall. intros l Hl.
    apply list_elem_of_fmap in Hl as (r & -> & Hr).
    apply list_elem_of_fmap in Hr as ([table input] & -> & _).
    apply Forward_sends_dmls. }
  destruct (existsb (fun r : list ProcessorEntry * txnChannel * forwardStatus =>
                       forwardStatus_eqb r.2 ForwardFatal) results) eqn:Hfatal; simpl.
  { exists sent, []. rewrite app_nil_r. split_and!; auto. }
  destruct (existsb (fun r : list ProcessorEntry * txnChannel * forwardStatus =>
                       forwardStatus_eqb r.2 Blocked) results) eqn:Hblocked; simpl.
  { exists sent, []. rewrite app_nil_r. split_and!; auto. }
  exists sent, [NewProcessorResolvedEntry ts]. split; [done |]. split; [done |].
  right. exists ts. split_and!; try done.
  intros table input Hin.
  assert (Forward table ts input ∈ results) as Hmem.
  { subst results. apply list_elem_of_fmap. exists (table, input).
    split; [done | by apply elem_of_map_to_list]. }
  destruct ((Forward table ts input).2) eqn:Hst; [done | |].
  - exfalso. apply not_true_iff_false in Hblocked. apply Hblocked.
    apply existsb_exists. eexists. split; [apply list_elem_of_In, Hmem |]. by rewrite Hst.
  - exfalso. apply not_true_iff_false in Hfatal. apply Hfatal.
    apply existsb_exists. eexists. split; [apply list_elem_of_In, Hmem |]. by rewrite Hst.
Qed.

(** ** SubChangeFeed and ChangeFeedDetail *)

(** X18.  [GetResolvedTs] returns the smallest resolved ts of the
    pullers it is given, which is the resolved ts of one of them; it
    panics exactly when it is given none. *)
Theorem GetResolvedTs_min (pullers : list Ts) :
  match GetResolvedTs pullers with
  | Some ts => ts ∈ pullers ∧ Forall (fun p => (ts <= p)%N) pullers
  | None => pullers = []
  end.
Proof.
  destruct pullers as [|p0 rest]; simpl; [done |].
  assert (∀ l start,
            let m := foldl (fun (acc ts : Ts) => if (ts <? acc)%N then ts else acc) start l in
            (m <= start)%N ∧ Forall (fun p => (m <= p)%N) l ∧ (m = start ∨ m ∈ l)) as Hfold.
  { induction l as [|x l IH]; intros start; simpl.
    - split; [lia |]. split; [constructor | by left].
    - destruct (IH (if (x <? start)%N then x else start)) as (Hle & Hall & Hmem).
      cbv zeta in *. set (m := foldl _ _ l) in *.
      destruct (N.ltb_spec x start).
      + split; [lia |]. split; [constructor; [lia | done] |].
        right. destruct Hmem as [-> | Hin]; [left | by right].
      + split; [done |]. split; [constructor; [lia | done] |].
        destruct Hmem as [-> | Hin]; [by left | right; by right]. }
  destruct (Hfold rest p0) as (Hle & Hall & Hmem). cbv zeta in *.
  split.
  - destruct Hmem as [-> | Hin]; [left | by right].
  - by constructor.
Qed.

Section ChangeFeedDetailFacts.

Context {Datum : Type}.
Variable ToUpper : string → string.
Variable ApplyOn : list (string * string) → list (string * string).

(** X19.  After [FilterTxn], a transaction that is a DDL or carries
    row changes (not both) holds nothing the changefeed ignores: its DDL,
    if still there, and each of its row changes is on a table that is not
    ignored, so in particular not on a system schema whatever the filter
    rules say; and filtering it again changes nothing. *)
Theorem FilterTxn_clean (t : @mq.Txn Datum)
  (Hshape : is_Some (mq.txnDDL t) → mq.DMLs t = []) :
  let ignored := detail.ShouldIgnoreTable ToUpper ApplyOn in
  let t' := detail.FilterTxn ToUpper ApplyOn t in
  (∀ ddl, mq.txnDDL t' = Some ddl →
          ignored (mq.ddlDatabase ddl) (mq.ddlTable ddl) = false
          ∧ detail.IsSysSchema ToUpper (mq.ddlDatabase ddl) = false)
  ∧ Forall (fun dml => ignored (mq.Database dml) (mq.Table dml) = false
                       ∧ detail.IsSysSchema ToUpper (mq.Database dml) = false)
           (mq.DMLs t')
  ∧ mq.txnTs t' = mq.txnTs t
  ∧ detail.FilterTxn ToUpper ApplyOn t' = t'.
Proof.
  cbv zeta.
  assert (∀ db tbl, detail.ShouldIgnoreTable ToUpper ApplyOn db tbl = false →
                    detail.IsSysSchema ToUpper db = false) as Hsys.
  { intros db tbl. unfold detail.ShouldIgnoreTable.
    by destruct (detail.IsSysSchema ToUpper db). }
  destruct (mq.txnDDL t) as [ddl|] eqn:Hddl.
  - pose proof (Hshape (mk_is_Some _ _ eq_refl)) as Hd.
    destruct (detail.ShouldIgnoreTable ToUpper ApplyOn (mq.ddlDatabase ddl) (mq.ddlTable ddl))
      eqn:Hig.
    + assert (detail.FilterTxn ToUpper ApplyOn t
              = {| mq.txnTs := mq.txnTs t; mq.DMLs := []; mq.txnDDL := None |}) as ->
        by (unfold detail.FilterTxn; by rewrite Hddl, Hig, Hd).
      simpl. by split_and!.
    + assert (detail.FilterTxn ToUpper ApplyOn t = t) as Ht
        by (unfold detail.FilterTxn; by rewrite Hddl, Hig).
      rewrite !Ht, Hddl, Hd. split_and!; try done.
      intros ddl' [= <-]. eauto.
  - assert (detail.FilterTxn ToUpper ApplyOn t
            = {| mq.txnTs := mq.txnTs t;
                 mq.DMLs :=
                   List.filter
                     (fun dml => negb (detail.ShouldIgnoreTable ToUpper ApplyOn
                                         (mq.Database dml) (mq.Table dml)))
                     (mq.DMLs t);
                 mq.txnDDL := None |}) as ->
      by (unfold detail.FilterTxn; by rewrite Hddl).
    simpl. split_and!; try done.
    + apply Forall_forall. intros dml Hin.
      apply list_elem_of_In, filter_In in Hin as [_ Hk].
      apply negb_true_iff in Hk. eauto.
    + unfold detail.FilterTxn. simpl. f_equal. clear Hshape.
      induction (mq.DMLs t) as [|dml l IH]; simpl; [done |].
      destruct (detail.ShouldIgnoreTable ToUpper ApplyOn (mq.Database dml) (mq.Table dml))
        eqn:Hig; simpl; [exact IH |].
      rewrite Hig. simpl. by f_equal.
Qed.

End ChangeFeedDetailFacts.

(** ** BatchMsg *)

Section BatchMsgFacts.

Variable EncodeInt : Z → list byte.
Variable DecodeInt : list byte → error + (list byte * Z).

(** What the batch needs of [tidb/util/codec]: an int64 takes eight
    bytes, and decoding the eight bytes of a length yields it with
    nothing left. *)
Hypothesis EncodeInt_length : ∀ v, length (EncodeInt v) = 8.
Hypothesis DecodeInt_EncodeInt :
  ∀ v, (0 <= v < 2 ^ 63)%Z → DecodeInt (EncodeInt v) = inr ([], v).

Lemma appendAll_bufs (l : list (list byte * list byte)) (b : batch.BatchMsg) :
  batch.keyBuf (appendAll EncodeInt l b)
  = batch.keyBuf b
      ++ concat (map (fun kv : list byte * list byte =>
                        EncodeInt (Z.of_nat (length kv.1)) ++ kv.1) l)
  ∧ batch.valueBuf (appendAll EncodeInt l b)
    = batch.valueBuf b
        ++ concat (map (fun kv : list byte * list byte =>
                          EncodeInt (Z.of_nat (length kv.2)) ++ kv.2) l).
Proof.
  revert b. induction l as [|[k v] l IH]; intros b; simpl.
  - by rewrite !app_nil_r.
  - destruct (IH (batch.Append EncodeInt k v b)) as [-> ->]. simpl.
    by rewrite <- !app_assoc.
Qed.

Lemma bufferNext_frame (item rest : list byte) :
  batch.bufferNext (Z.of_nat (length item)) (item ++ rest) = Some (item, rest).
Proof.
  unfold batch.bufferNext.
  destruct (Z.ltb_spec (Z.of_nat (length item)) 0); [lia |].
  rewrite Nat2Z.id. by rewrite take_app_length, drop_app_length.
Qed.

(** X20.  A batch is a queue: after pairs have been appended to a new
    batch, [Next] returns the first pair appended and leaves the batch
    that holds the pairs appended after it; [HasNext] is true exactly
    while pairs are left; and any batch that is given the raw bytes of
    the batch with [SetRaw] is that same queue.  The lengths of the pair
    must fit an int64. *)
Theorem BatchMsg_fifo (key value : list byte) (l : list (list byte * list byte))
  (Hkey : (Z.of_nat (length key) < 2 ^ 63)%Z)
  (Hvalue : (Z.of_nat (length value) < 2 ^ 63)%Z) :
  let sent := appendAll EncodeInt ((key, value) :: l) batch.NewBatchMsg in
  batch.Next DecodeInt sent
  = (batch.NextOk key value, appendAll EncodeInt l batch.NewBatchMsg)
  ∧ batch.HasNext sent = true
  ∧ batch.HasNext (appendAll EncodeInt [] batch.NewBatchMsg) = false
  ∧ ∀ received, batch.SetRaw (batch.GetRaw sent).1 (batch.GetRaw sent).2 received = sent.
Proof.
  cbv zeta.
  set (B := appendAll EncodeInt ((key, value) :: l) batch.NewBatchMsg).
  set (B' := appendAll EncodeInt l batch.NewBatchMsg).
  assert (batch.keyBuf B = EncodeInt (Z.of_nat (length key)) ++ key ++ batch.keyBuf B'
          ∧ batch.valueBuf B
            = EncodeInt (Z.of_nat (length value)) ++ value ++ batch.valueBuf B') as [Hk Hv].
  { subst B B'.
    destruct (appendAll_bufs ((key, value) :: l) batch.NewBatchMsg) as [-> ->].
    destruct (appendAll_bufs l batch.NewBatchMsg) as [-> ->].
    simpl. by rewrite <- !app_assoc. }
  split; [| split; [| split; [done | intros received; by destruct B]]].
  - unfold batch.Next. cbv zeta. rewrite Hk, Hv.
    rewrite !(take_app_length' _ _ 8), !(drop_app_length' _ _ 8) by (symmetry; apply EncodeInt_length).
    rewrite !DecodeInt_EncodeInt, !bufferNext_frame by lia.
    f_equal. by destruct B'.
  - unfold batch.HasNext. rewrite Hk, Hv, !length_app, !EncodeInt_length.
    done.
Qed.

End BatchMsgFacts.

(** ** The message envelope: round trips and refusals *)

Import encoding.

Lemma byteOfN_to_N (n : N) : Byte.to_N (byteOfN n) = (n mod 256)%N.
Proof.
  unfold byteOfN.
  destruct (Byte.of_N (n mod 256)) as [b|] eqn:Hb; simpl.
  - by apply Byte.to_of_N.
  - apply Byte.of_N_None_iff in Hb.
    pose proof (N.mod_upper_bound n 256). lia.
Qed.

Lemma be_length (k : nat) (v : N) : length (be k v) = k.
Proof. induction k as [|k IH]; simpl; [done | by rewrite IH]. Qed.

Lemma fromBE_acc (l : list byte) (acc : N) :
  foldl (fun acc b => (acc * 256 + Byte.to_N b)%N) acc l
  = (acc * 256 ^ N.of_nat (length l) + fromBE l)%N.
Proof.
  unfold fromBE. revert acc. induction l as [|b l IH]; intros acc.
  - simpl. lia.
  - cbn [foldl length]. rewrite IH. rewrite (IH (0 * 256 + Byte.to_N b)%N).
    rewrite Nat2N.inj_succ, N.pow_succ_r'. lia.
Qed.

Lemma fromBE_be (k : nat) (v : N) : fromBE (be k v) = (v mod 256 ^ N.of_nat k)%N.
Proof.
  induction k as [|k IH].
  - simpl. by rewrite N.mod_1_r.
  - cbn [be]. unfold fromBE. cbn [foldl]. rewrite fromBE_acc, be_length, IH.
    rewrite byteOfN_to_N. rewrite Nat2N.inj_succ, N.pow_succ_r'.
    rewrite (N.mul_comm 256), N.Div0.mod_mul_r. lia.
Qed.

Lemma readFixed_be (k : nat) (v : N) (rest : list byte) :
  readFixed k {| B := be k v ++ rest; E := None |}
  = ((v mod 256 ^ N.of_nat k)%N, {| B := rest; E := None |}).
Proof.
  unfold readFixed. simpl. rewrite length_app, be_length.
  destruct (Nat.ltb_spec (k + length rest) k); [lia |].
  rewrite (take_app_length' _ _ k), (drop_app_length' _ _ k) by (symmetry; apply be_length).
  by rewrite fromBE_be.
Qed.

Lemma readFixed_short (k : nat) (bs : list byte) :
  length bs < k →
  readFixed k {| B := bs; E := None |} = (0%N, {| B := bs; E := Some ErrInvalidSize |}).
Proof.
  intros Hlt. unfold readFixed. simpl.
  by destruct (Nat.ltb_spec (length bs) k); [| lia].
Qed.

Lemma lor_shiftl_add (acc b s : N) :
  (acc < 2 ^ s)%N → N.lor acc (N.shiftl b s) = (acc + b * 2 ^ s)%N.
Proof.
  intros Hlt. rewrite <- N.lxor_lor, <- N.add_nocarry_lxor, N.shiftl_mul_pow2; try done.
  all: apply N.bits_inj; intros n; rewrite N.land_spec, N.bits_0.
  all: destruct (N.lt_ge_cases n s) as [Hn | Hn];
    [ by rewrite N.shiftl_spec_low, andb_false_r
    | rewrite <- (N.mod_small acc (2 ^ s)) by done;
      by rewrite N.mod_pow2_bits_high ].
Qed.

Lemma uvarint_putUvarint (fuel i : nat) (acc x : N) (rest : list byte) :
  (i + fuel = 9)%nat →
  (acc < 2 ^ (7 * N.of_nat i))%N →
  (x < 2 ^ (64 - 7 * N.of_nat i))%N →
  uvarint i acc (7 * N.of_nat i) (putUvarint fuel x ++ rest)
  = Some ((acc + x * 2 ^ (7 * N.of_nat i))%N, (i + length (putUvarint fuel x))%nat).
Proof.
  revert i acc x. induction fuel as [|fuel IH]; intros i acc x Hi Hacc Hx.
  - assert (i = 9)%nat as -> by lia.
    assert (x < 2)%N as Hx2 by exact Hx.
    cbn [putUvarint app uvarint Nat.eqb].
    rewrite byteOfN_to_N, N.mod_small by lia.
    destruct (N.ltb_spec x 128); [| lia].
    destruct (N.ltb_spec 1 x); [lia |]. simpl andb. cbv iota.
    rewrite lor_shiftl_add by done. f_equal; f_equal; simpl; lia.
  - assert (i <= 8)%nat as Hi8 by lia.
    cbn [putUvarint].
    destruct (N.ltb_spec x 128) as [Hsmall | Hbig].
    + cbn [app uvarint].
      destruct (Nat.eqb_spec i 10); [lia |].
      rewrite byteOfN_to_N, N.mod_small by lia.
      destruct (N.ltb_spec x 128); [| lia].
      destruct (Nat.eqb_spec i 9); [lia |]. simpl andb. cbv iota.
      rewrite lor_shiftl_add by done. f_equal; f_equal; simpl; lia.
    + cbn [app uvarint].
      destruct (Nat.eqb_spec i 10); [lia |].
      pose proof (N.mod_upper_bound x 128 ltac:(lia)) as Hm.
      pose proof (N.div_mod x 128 ltac:(lia)) as Hdm.
      assert ((x mod 128 + 128) mod 256 = x mod 128 + 128)%N as Hb256.
      { apply N.mod_small. generalize dependent (x mod 128)%N. intros; lia. }
      assert ((x mod 128 + 128) mod 128 = x mod 128)%N as Hb128.
      { rewrite <- (N.Div0.add_mod_idemp_r _ 128), N.Div0.mod_same, N.add_0_r.
        by rewrite N.Div0.mod_mod. }
      rewrite byteOfN_to_N, Hb256.
      change 127%N with (N.ones 7). rewrite N.land_ones.
      change (2 ^ 7)%N with 128%N. rewrite Hb128.
      set (r := (x mod 128)%N) in *. set (q := (x / 128)%N) in *.
      clearbody r q.
      destruct (N.ltb_spec (r + 128) 128) as [Habs |_]; [clear - Habs; lia |].
      rewrite lor_shiftl_add by done.
      replace (7 * N.of_nat i + 7)%N with (7 * N.of_nat (S i))%N by lia.
      assert (7 * N.of_nat (S i) = 7 * N.of_nat i + 7)%N as Hs by lia.
      assert (2 ^ (7 * N.of_nat (S i)) = 128 * 2 ^ (7 * N.of_nat i))%N as Hp.
      { rewrite Hs, N.pow_add_r. change (2 ^ 7)%N with 128%N. apply N.mul_comm. }
      assert (2 ^ (64 - 7 * N.of_nat i) = 128 * 2 ^ (64 - 7 * N.of_nat (S i)))%N as Hp'.
      { change 128%N with (2 ^ 7)%N. rewrite <- N.pow_add_r. f_equal. lia. }
      set (P := (2 ^ (7 * N.of_nat i))%N) in *.
      set (P' := (2 ^ (64 - 7 * N.of_nat (S i)))%N) in *.
      rewrite Hp' in Hx.
      rewrite IH.
      * f_equal. f_equal; [| simpl; lia]. rewrite Hp. subst x. clear. lia.
      * lia.
      * rewrite Hp. clear - Hacc Hm. nia.
      * clear - Hx Hdm Hm. subst x. nia.
Qed.

Lemma list_byte_of_string_length (s : string) :
  length (list_byte_of_string s) = String.length s.
Proof.
  unfold list_byte_of_string. rewrite length_map.
  induction s as [|a s IH]; simpl; [done | by rewrite IH].
Qed.

Lemma PutUvarintStr_app (s : string) (e : Encbuf) :
  PutUvarintStr s e = e ++ PutUvarintStr s [].
Proof. reflexivity. Qed.

Lemma PutBE32int_app (x : Z) (e : Encbuf) : PutBE32int x e = e ++ PutBE32int x [].
Proof. reflexivity. Qed.

Lemma Uvarint64_put (x : N) (rest : list byte) :
  (x < 2 ^ 64)%N →
  Uvarint64 {| B := putUvarint 9 x ++ rest; E := None |} = (x, {| B := rest; E := None |}).
Proof.
  intros Hx. unfold Uvarint64. cbn [E B].
  pose proof (uvarint_putUvarint 9 0 0 x rest eq_refl eq_refl Hx) as Hu.
  change (7 * N.of_nat 0)%N with 0%N in Hu. rewrite Hu.
  rewrite N.mul_1_r, N.add_0_l. cbn [Nat.add].
  by rewrite drop_app_length.
Qed.

Lemma UvarintStr_put (s : string) (rest : list byte) :
  fitsVarstr s →
  UvarintStr {| B := PutUvarintStr s [] ++ rest; E := None |}
  = (s, {| B := rest; E := None |}).
Proof.
  intros Hs. unfold UvarintStr, PutUvarintStr. cbv zeta. cbn [app].
  rewrite <- app_assoc, Uvarint64_put
    by (rewrite list_byte_of_string_length; exact Hs).
  cbn [E B].
  rewrite length_app.
  destruct (N.ltb_spec (N.of_nat (length (list_byte_of_string s) + length rest))
                       (N.of_nat (length (list_byte_of_string s)))); [lia |].
  rewrite Nat2N.id, take_app_length, drop_app_length.
  by rewrite string_of_list_byte_of_string.
Qed.

Lemma Byte_put (b : byte) (rest : list byte) :
  Byte {| B := b :: rest; E := None |} = (Byte.to_N b, {| B := rest; E := None |}).
Proof. unfold Byte, readFixed. simpl. by rewrite drop_0. Qed.

Lemma Be32_put (x : N) (rest : list byte) :
  Be32 {| B := PutBE32 x [] ++ rest; E := None |}
  = ((x mod 2 ^ 32)%N, {| B := rest; E := None |}).
Proof.
  unfold Be32, PutBE32. cbn [app]. rewrite readFixed_be.
  change (256 ^ N.of_nat 4)%N with (2 ^ 32)%N. by rewrite N.Div0.mod_mod.
Qed.

Lemma Be64_put (x : N) (rest : list byte) :
  Be64 {| B := PutBE64 x [] ++ rest; E := None |}
  = ((x mod 2 ^ 64)%N, {| B := rest; E := None |}).
Proof.
  unfold Be64, PutBE64. cbn [app]. rewrite readFixed_be.
  change (256 ^ N.of_nat 8)%N with (2 ^ 64)%N. by rewrite N.Div0.mod_mod.
Qed.

Lemma Be32int_put (x : Z) (rest : list byte) :
  Be32int {| B := PutBE32int x [] ++ rest; E := None |}
  = ((x mod 2 ^ 32)%Z, {| B := rest; E := None |}).
Proof.
  unfold Be32int, PutBE32int, mbind, Dec_bind, mret, Dec_ret. rewrite Be32_put.
  f_equal. pose proof (Z.mod_pos_bound x (2 ^ 32) ltac:(lia)) as Hb.
  rewrite N.mod_small.
  - apply Z2N.id. lia.
  - change (2 ^ 32)%N with (Z.to_N (2 ^ 32)). apply Z2N.inj_lt; lia.
Qed.

Lemma Be64int64_put (x : Z) (rest : list byte) :
  (- 2 ^ 63 <= x < 2 ^ 63)%Z →
  Be64int64 {| B := PutBE64int64 x [] ++ rest; E := None |}
  = (x, {| B := rest; E := None |}).
Proof.
  intros Hx. unfold Be64int64, PutBE64int64, mbind, Dec_bind, mret, Dec_ret.
  rewrite Be64_put. f_equal.
  pose proof (Z.mod_pos_bound x (2 ^ 64) ltac:(lia)) as Hb.
  assert (Z.to_N (x mod 2 ^ 64) mod 2 ^ 64 = Z.to_N (x mod 2 ^ 64))%N as ->.
  { apply N.mod_small. change (2 ^ 64)%N with (Z.to_N (2 ^ 64)). apply Z2N.inj_lt; lia. }
  rewrite Z2N.id by lia.
  destruct (N.ltb_spec (Z.to_N (x mod 2 ^ 64)) (2 ^ 63)) as [Hlt | Hge].
  - assert (x mod 2 ^ 64 < 2 ^ 63)%Z as Hlt'.
    { change (2 ^ 63)%N with (Z.to_N (2 ^ 63)) in Hlt. apply Z2N.inj_lt in Hlt; lia. }
    destruct (Z.lt_ge_cases x 0) as [Hneg | Hpos].
    + rewrite <- (Z.mod_add x 1 (2 ^ 64)) in Hlt' by lia.
      rewrite Z.mod_small in Hlt' by lia. lia.
    + apply Z.mod_small. lia.
  - assert (2 ^ 63 <= x mod 2 ^ 64)%Z as Hge'.
    { change (2 ^ 63)%N with (Z.to_N (2 ^ 63)) in Hge. apply Z2N.inj_le in Hge; lia. }
    destruct (Z.lt_ge_cases x 0) as [Hneg | Hpos].
    + rewrite <- (Z.mod_add x 1 (2 ^ 64)) by lia.
      rewrite Z.mod_small by lia. lia.
    + rewrite Z.mod_small in Hge' by lia. lia.
Qed.

Lemma readFixed_exact (k : nat) (bs rest : list byte) :
  length bs = k →
  readFixed k {| B := bs ++ rest; E := None |} = (fromBE bs, {| B := rest; E := None |}).
Proof.
  intros Hk. unfold readFixed. simpl. rewrite length_app.
  destruct (Nat.ltb_spec (length bs + length rest) k); [lia |].
  by rewrite (take_app_length' _ _ k), (drop_app_length' _ _ k).
Qed.

(** The length field: the length as a uint32. *)
Lemma lenField_uint32 (n : nat) :
  PutBE32int (Z.of_nat n) [] = be 4 (N.of_nat n mod 2 ^ 32).
Proof.
  unfold PutBE32int, PutBE32. cbn [app]. f_equal.
  assert (Z.to_N (Z.of_nat n mod 2 ^ 32) = (N.of_nat n mod 2 ^ 32)%N) as ->.
  { rewrite <- nat_N_Z. rewrite <- (N2Z.id (N.of_nat n mod 2 ^ 32)).
    f_equal. rewrite N2Z.inj_mod. reflexivity. }
  apply N.Div0.mod_mod.
Qed.

Section CodecFacts.

Context {Datum : Type}.
Variable marshalJob : timodel.Job → error + string.
Variable unmarshalJob : string → error + timodel.Job.
Variable marshalDatum : Datum → error + string.
Variable unmarshalDatum : string → error + Datum.
Variable marshalColumn : mq.ColumnInfo → error + string.
Variable unmarshalColumn : string → error + mq.ColumnInfo.
Variable ResolveTsType TxnType : byte.

#[local] Abbreviation Decode :=
  (mq.Decode unmarshalJob unmarshalDatum unmarshalColumn ResolveTsType TxnType).
#[local] Abbreviation valueOk := (valueEncodable marshalDatum unmarshalDatum).
#[local] Abbreviation columnOk := (columnEncodable marshalColumn unmarshalColumn).
#[local] Abbreviation dmlOk :=
  (dmlEncodable marshalDatum unmarshalDatum marshalColumn unmarshalColumn).

(** The reader on what [writeMeta] has written: the message kind picks
    the decoder, which starts at the capture id. *)
Lemma Decode_meta (t : byte) (cdcId : string) (rest : list byte) :
  Decode (mq.writeMeta mq.Version t cdcId [] ++ rest)
  = fst ((if (Byte.to_N t =? Byte.to_N ResolveTsType)%N
          then m ← mq.decodeResloveTsMsg ResolveTsType; mret (inr m)
          else if (Byte.to_N t =? Byte.to_N TxnType)%N
               then mq.decodeTxnMsg unmarshalJob unmarshalDatum unmarshalColumn TxnType
               else mret (inl (ErrUnsupportedType (Byte.to_N t))))
         {| B := PutUvarintStr cdcId [] ++ rest; E := None |}).
Proof.
  unfold mq.Decode, mq.writeMeta.
  rewrite PutUvarintStr_app. unfold PutByte. cbn [app].
  rewrite <- !app_assoc. cbn [app].
  unfold mbind at 1, Dec_bind at 1. rewrite Be32_put.
  change ((mq.MagicIndex mod 2 ^ 32 =? mq.MagicIndex)%N) with true. cbn [negb].
  unfold mbind at 1, Dec_bind at 1. rewrite Byte_put.
  unfold mbind at 1, Dec_bind at 1. rewrite Byte_put.
  reflexivity.
Qed.

(** X21.  A resolved-ts message that the writer has written is read
    back as it was, whatever bytes follow it: capture id, kind and
    resolved ts.  The id must fit its length prefix and the ts an int64. *)
Theorem Decode_resolveTs_roundtrip (cdcId : string) (ts : Z) (extra : list byte)
  (Hid : fitsVarstr cdcId) (Hts : (- 2 ^ 63 <= ts < 2 ^ 63)%Z) :
  ∃ data,
    mq.resolveTsWriter_Write ResolveTsType cdcId ts = inr data
    ∧ Decode (data ++ extra)
      = inr {| mq.CdcID := cdcId; mq.MsgType := ResolveTsType; mq.ResloveTs := ts;
               mq.msgTxn := None; mq.msgColumns := ∅ |}.
Proof.
  exists (mq.writeMeta mq.Version ResolveTsType cdcId [] ++ PutBE64int64 ts []).
  split; [reflexivity |].
  rewrite <- app_assoc, Decode_meta, N.eqb_refl.
  unfold mq.decodeResloveTsMsg, mbind, Dec_bind, mret, Dec_ret.
  rewrite UvarintStr_put by done. rewrite Be64int64_put by done.
  reflexivity.
Qed.


Lemma to_N_kinds : TxnType ≠ ResolveTsType →
  (Byte.to_N TxnType =? Byte.to_N ResolveTsType)%N = false.
Proof.
  intros Hne. apply N.eqb_neq. intros Heq. apply Hne.
  pose proof (Byte.of_to_N TxnType) as H1. pose proof (Byte.of_to_N ResolveTsType) as H2.
  rewrite Heq in H1. congruence.
Qed.

(** The envelope, byte by byte, is what [writeMeta] writes. *)
Lemma envelope_writeMeta (t : byte) (cdcId : string) :
  mq.writeMeta mq.Version t cdcId [] = envelope t cdcId.
Proof.
  unfold mq.writeMeta, envelope, varstr, PutUvarintStr, PutByte, PutBE32. cbv zeta.
  cbn [app]. rewrite <- !app_assoc. reflexivity.
Qed.

(** What the writer writes for a DDL transaction: the head with the
    length of the body, the body, and the CRC-32C of the body. *)
Lemma txnWriter_DDL_layout (cdcId : string) (txn : mq.Txn) (ddl : mq.DDL)
  (infoGetter : mq.TableInfoGetter) (text : string) :
  mq.txnDDL txn = Some ddl → marshalJob (mq.Job ddl) = inr text →
  (mq.txnTs txn < 2 ^ 64)%N →
  mq.txnWriter_Write marshalJob marshalDatum marshalColumn TxnType cdcId txn infoGetter
  = inr (ddlHead TxnType cdcId (mq.txnTs txn)
           (be 4 (N.of_nat (length (ddlBody ddl text)) mod 2 ^ 32))
         ++ ddlBody ddl text ++ be 4 (crc32c (ddlBody ddl text))).
Proof.
  intros Hddl Hjob Hts. unfold mq.txnWriter_Write. rewrite Hddl, Hjob. cbv zeta.
  rewrite envelope_writeMeta.
  assert (PutUvarintStr text (PutUvarintStr (mq.ddlTable ddl)
            (PutUvarintStr (mq.ddlDatabase ddl) [])) = ddlBody ddl text) as ->.
  { unfold ddlBody, varstr, PutUvarintStr. cbv zeta. cbn [app].
    rewrite <- !app_assoc. reflexivity. }
  unfold PutHash, PutByte. rewrite PutBE32int_app, lenField_uint32.
  unfold PutBE64. rewrite (N.mod_small _ _ Hts).
  unfold ddlHead. cbn [app]. rewrite <- !app_assoc. reflexivity.
Qed.

(** The reader on the parts of a DDL transaction: it takes the message
    from the head and the body, whatever four bytes stand in the length
    field and whatever follows the body. *)
Lemma Decode_DDL_parts (cdcId : string) (ts : Ts) (ddl : mq.DDL) (text : string)
  (bodyLen tail : list byte) :
  TxnType ≠ ResolveTsType → unmarshalJob text = inr (mq.Job ddl) →
  (ts < 2 ^ 64)%N → length bodyLen = 4 →
  fitsVarstr cdcId → fitsVarstr (mq.ddlDatabase ddl) → fitsVarstr (mq.ddlTable ddl) →
  fitsVarstr text →
  Decode (ddlHead TxnType cdcId ts bodyLen ++ ddlBody ddl text ++ tail)
  = inr (ddlMessageOf TxnType cdcId ts ddl).
Proof.
  intros Hkinds Hback Hts Hlen Hid Hdb Htbl Htext.
  unfold ddlHead. rewrite <- envelope_writeMeta, <- !app_assoc.
  rewrite Decode_meta, (to_N_kinds Hkinds), N.eqb_refl.
  unfold mq.decodeTxnMsg.
  unfold mbind at 1, Dec_bind at 1. rewrite UvarintStr_put by done.
  unfold mbind at 1, Dec_bind at 1.
  replace (be 8 ts) with (PutBE64 ts []) by (unfold PutBE64; by rewrite N.mod_small).
  rewrite Be64_put, (N.mod_small _ _ Hts).
  cbn [app].
  unfold mbind at 1, Dec_bind at 1. rewrite Byte_put.
  change (Byte.to_N (byteOfN mq.DdlOp) =? mq.DmlOp)%N with false.
  change (Byte.to_N (byteOfN mq.DdlOp) =? mq.DdlOp)%N with true. cbv iota.
  unfold mq.decodeDDL, mbind, Dec_bind, mret, Dec_ret.
  unfold Be32int, Be32, mbind, Dec_bind, mret, Dec_ret.
  rewrite readFixed_exact by done.
  unfold ddlBody. rewrite <- !app_assoc.
  change (varstr ?s) with (PutUvarintStr s []).
  rewrite !UvarintStr_put by done.
  rewrite Hback. destruct ddl. reflexivity.
Qed.

(** X22.  A DDL transaction that the writer has written is read back
    with its commit ts, database, table and job and with no row changes,
    whatever stands behind the body: the checksum the writer has put
    there, any other bytes in its place, or none.  JSON must give the job
    back and the strings must fit their length prefix. *)
Theorem Decode_DDL_roundtrip (cdcId : string) (txn : mq.Txn) (ddl : mq.DDL)
  (infoGetter : mq.TableInfoGetter) (text : string)
  (Hkinds : TxnType ≠ ResolveTsType)
  (Hddl : mq.txnDDL txn = Some ddl)
  (Hjob : marshalJob (mq.Job ddl) = inr text)
  (Hback : unmarshalJob text = inr (mq.Job ddl))
  (Hts : (mq.txnTs txn < 2 ^ 64)%N)
  (Hid : fitsVarstr cdcId) (Hdb : fitsVarstr (mq.ddlDatabase ddl))
  (Htbl : fitsVarstr (mq.ddlTable ddl)) (Htext : fitsVarstr text) :
  ∃ sent,
    mq.txnWriter_Write marshalJob marshalDatum marshalColumn TxnType cdcId txn infoGetter
    = inr (sent ++ be 4 (crc32c (ddlBody ddl text)))
    ∧ ∀ tail,
        Decode (sent ++ tail)
        = inr {| mq.CdcID := cdcId; mq.MsgType := TxnType; mq.ResloveTs := 0;
                 mq.msgTxn := Some {| mq.txnTs := mq.txnTs txn; mq.DMLs := [];
                                      mq.txnDDL := Some ddl |};
                 mq.msgColumns := ∅ |}.
Proof.
  exists (ddlHead TxnType cdcId (mq.txnTs txn)
            (be 4 (N.of_nat (length (ddlBody ddl text)) mod 2 ^ 32))
          ++ ddlBody ddl text).
  split.
  - rewrite <- app_assoc. by apply txnWriter_DDL_layout.
  - intros tail. rewrite <- app_assoc.
    by apply Decode_DDL_parts.
Qed.

(** C6 (the code at the failing input).  For a DDL transaction the writer
    writes the envelope, the commit ts, the kind, the length of the body,
    the body and the CRC-32C of the body.  The reader never looks at that
    checksum, nor at the length: it returns the message whatever bytes
    stand in their places, and there are four bytes other than the
    checksum; and when the body has been replaced by the body of another
    DDL, with the checksum of the original body left behind it, the
    reader returns the other DDL without an error.  The JSON codec is a
    parameter: it is enough that it reads the text of the job as a job. *)
Theorem Decode_accepts_bad_checksum (cdcId : string) (txn : mq.Txn) (ddl : mq.DDL)
  (infoGetter : mq.TableInfoGetter) (text : string) (read : timodel.Job)
  (Hkinds : TxnType ≠ ResolveTsType)
  (Hddl : mq.txnDDL txn = Some ddl)
  (Hjob : marshalJob (mq.Job ddl) = inr text)
  (Hback : unmarshalJob text = inr read)
  (Hts : (mq.txnTs txn < 2 ^ 64)%N)
  (Hid : fitsVarstr cdcId) (Hdb : fitsVarstr (mq.ddlDatabase ddl))
  (Htbl : fitsVarstr (mq.ddlTable ddl)) (Htext : fitsVarstr text) :
  let body := ddlBody ddl text in
  let written := be 4 (N.of_nat (length body) mod 2 ^ 32) in
  let head := ddlHead TxnType cdcId (mq.txnTs txn) in
  mq.txnWriter_Write marshalJob marshalDatum marshalColumn TxnType cdcId txn infoGetter
  = inr (head written ++ body ++ be 4 (crc32c body))
  ∧ (∀ bodyLen stored : list byte,
       length bodyLen = 4 →
       Decode (head bodyLen ++ body ++ stored)
       = inr (ddlMessageOf TxnType cdcId (mq.txnTs txn)
                {| mq.ddlDatabase := mq.ddlDatabase ddl; mq.ddlTable := mq.ddlTable ddl;
                   mq.Job := read |}))
  ∧ (∃ stored : list byte, length stored = 4 ∧ stored ≠ be 4 (crc32c body))
  ∧ (∀ (ddl' : mq.DDL) (text' : string),
       unmarshalJob text' = inr (mq.Job ddl') →
       fitsVarstr (mq.ddlDatabase ddl') → fitsVarstr (mq.ddlTable ddl') →
       fitsVarstr text' →
       Decode (head written ++ ddlBody ddl' text' ++ be 4 (crc32c body))
       = inr (ddlMessageOf TxnType cdcId (mq.txnTs txn) ddl')).
Proof.
  cbv zeta. split_and!.
  - by apply txnWriter_DDL_layout.
  - intros bodyLen stored Hlen.
    exact (Decode_DDL_parts cdcId (mq.txnTs txn)
             {| mq.ddlDatabase := mq.ddlDatabase ddl; mq.ddlTable := mq.ddlTable ddl;
                mq.Job := read |}
             text bodyLen stored Hkinds Hback Hts Hlen Hid Hdb Htbl Htext).
  - destruct (List.list_eq_dec Byte.byte_eq_dec (be 4 (crc32c (ddlBody ddl text)))
                [x00; x00; x00; x00]) as [Heq | Hne].
    + exists [x01; x00; x00; x00]. split; [done |]. rewrite Heq. discriminate.
    + exists [x00; x00; x00; x00]. split; [done |]. intros Heq. by apply Hne.
  - intros ddl' text' Hback' Hdb' Htbl' Htext'.
    by apply Decode_DDL_parts.
Qed.


Lemma writeValues_decode (l : list (string * Datum)) (buf : Encbuf) :
  Forall valueOk l →
  ∃ enc,
    mq.writeValues marshalDatum l buf = inr (buf ++ enc)
    ∧ ∀ m rest,
        mq.decodeValuesLoop unmarshalDatum (length l) m {| B := enc ++ rest; E := None |}
        = (inr (foldl (fun m (kv : string * Datum) => <[kv.1 := kv.2]> m) m l),
           {| B := rest; E := None |}).
Proof.
  intros Hall. revert buf. induction Hall as [|[key v] l (Hkey & text & Hm & Htext & Hu) _ IH];
    intros buf.
  - exists []. split; [by rewrite app_nil_r | done].
  - cbn [mq.writeValues]. simpl in Hkey, Hm, Hu. rewrite Hm.
    destruct (IH (PutUvarintStr text (PutUvarintStr key buf))) as (enc & -> & Hdec).
    exists (PutUvarintStr key [] ++ PutUvarintStr text [] ++ enc). split.
    + rewrite (PutUvarintStr_app text), (PutUvarintStr_app key buf).
      by rewrite <- !app_assoc.
    + intros m rest. cbn [length mq.decodeValuesLoop].
      unfold mbind at 1, Dec_bind at 1. rewrite <- !app_assoc, UvarintStr_put by done.
      unfold mbind at 1, Dec_bind at 1. rewrite UvarintStr_put by done.
      rewrite Hu. apply Hdec.
Qed.

Lemma writeColumns_decode (l : list mq.ColumnInfo) (buf : Encbuf) :
  Forall columnOk l →
  ∃ enc,
    mq.writeColumns marshalColumn l buf = inr (buf ++ enc)
    ∧ ∀ columns rest,
        mq.decodeColumnsLoop unmarshalColumn (length l) columns
          {| B := enc ++ rest; E := None |}
        = (inr (columns ++ l), {| B := rest; E := None |}).
Proof.
  intros Hall. revert buf. induction Hall as [|c l (text & Hm & Htext & Hu) _ IH]; intros buf.
  - exists []. split; [by rewrite app_nil_r |]. intros columns rest. simpl.
    by rewrite app_nil_r.
  - cbn [mq.writeColumns]. rewrite Hm.
    destruct (IH (PutUvarintStr text buf)) as (enc & -> & Hdec).
    exists (PutUvarintStr text [] ++ enc). split.
    + rewrite (PutUvarintStr_app text). by rewrite <- !app_assoc.
    + intros columns rest. cbn [length mq.decodeColumnsLoop].
      unfold mbind at 1, Dec_bind at 1. rewrite <- !app_assoc, UvarintStr_put by done.
      rewrite Hu, Hdec. by rewrite <- app_assoc.
Qed.

Lemma foldl_insert_map_to_list {V} (m : gmap string V) :
  foldl (fun acc (kv : string * V) => <[kv.1 := kv.2]> acc) ∅ (map_to_list m) = m.
Proof.
  assert (∀ (l : list (string * V)) (acc : gmap string V) k,
            NoDup l.*1 →
            foldl (fun acc (kv : string * V) => <[kv.1 := kv.2]> acc) acc l !! k
            = match list_to_map (M := gmap string V) l !! k with
              | Some v => Some v
              | None => acc !! k
              end) as Hfold.
  { induction l as [|[k0 v0] l IH]; intros acc k Hnd; simpl.
    - by rewrite lookup_empty.
    - apply NoDup_cons in Hnd as [Hk0 Hnd]. rewrite IH by done.
      destruct (decide (k = k0)) as [-> | Hne].
      + rewrite lookup_insert_eq.
        rewrite (not_elem_of_list_to_map_1 _ k0) by done.
        by rewrite lookup_insert_eq.
      + rewrite !lookup_insert_ne by done. done. }
  apply map_eq. intros k. rewrite Hfold by apply NoDup_fst_map_to_list.
  rewrite list_to_map_to_list, lookup_empty. by destruct (m !! k).
Qed.

Lemma writeDMLs_decode (infoGetter : mq.TableInfoGetter) (dmls : list (@mq.DML Datum))
  (buf : Encbuf) :
  Forall (dmlOk infoGetter) dmls →
  ∃ enc,
    mq.writeDMLs marshalDatum marshalColumn infoGetter dmls buf = inr (buf ++ enc)
    ∧ ∀ acc columnsMap rest,
        mq.decodeDMLLoop unmarshalDatum unmarshalColumn (length dmls) acc columnsMap
          {| B := enc ++ rest; E := None |}
        = (inr (acc ++ dmls, columnsOf infoGetter dmls columnsMap),
           {| B := rest; E := None |}).
Proof.
  intros Hall. revert buf.
  induction Hall as [|dml l (Hdb & Htbl & Htp & Hsize & Hvals & cols & Hcols & Hlen & Hcenc) _ IH];
    intros buf.
  - exists []. split; [by rewrite app_nil_r |]. intros acc cm rest. simpl.
    by rewrite app_nil_r.
  - cbn [mq.writeDMLs]. cbv zeta.
    destruct (writeValues_decode (map_to_list (mq.Values dml))
                (PutBE32int (Z.of_nat (size (mq.Values dml)))
                   (PutBE32int (mq.Tp dml)
                      (PutUvarintStr (mq.Table dml) (PutUvarintStr (mq.Database dml) buf))))
                Hvals) as (encV & -> & HdecV).
    pose proof Hcols as Htc. unfold tableColumns in Hcols.
    destruct (mq.GetTableIDByName infoGetter (mq.Database dml) (mq.Table dml)) as [tblID|];
      [| done].
    destruct (mq.TableByID infoGetter tblID) as [tableInfo|]; [| done].
    injection Hcols as Hcols. rewrite Hcols.
    match goal with |- context [mq.writeColumns marshalColumn cols ?b] =>
      destruct (writeColumns_decode cols b Hcenc) as (encC & -> & HdecC) end.
    match goal with |- context [mq.writeDMLs _ _ infoGetter l ?b] =>
      destruct (IH b) as (enc & -> & Hdec) end.
    exists (PutUvarintStr (mq.Database dml) [] ++ PutUvarintStr (mq.Table dml) []
            ++ PutBE32int (mq.Tp dml) [] ++ PutBE32int (Z.of_nat (size (mq.Values dml))) []
            ++ encV ++ PutBE32int (Z.of_nat (length cols)) [] ++ encC ++ enc).
    split.
    + rewrite (PutBE32int_app (Z.of_nat (length cols))).
      rewrite (PutBE32int_app (Z.of_nat (size (mq.Values dml)))).
      rewrite (PutBE32int_app (mq.Tp dml)).
      rewrite (PutUvarintStr_app (mq.Table dml)), (PutUvarintStr_app (mq.Database dml) buf).
      by rewrite <- !app_assoc.
    + intros acc cm rest. cbn [length mq.decodeDMLLoop].
      rewrite <- !app_assoc.
      unfold mbind at 1, Dec_bind at 1. rewrite UvarintStr_put by done.
      unfold mbind at 1, Dec_bind at 1. rewrite UvarintStr_put by done.
      unfold mbind at 1, Dec_bind at 1. rewrite Be32int_put, Z.mod_small by done.
      unfold mbind at 1, Dec_bind at 1. unfold mq.decodeDMLValues.
      unfold mbind at 1, Dec_bind at 1.
      rewrite Be32int_put, Z.mod_small by lia.
      rewrite Nat2Z.id, <- length_map_to_list, HdecV, foldl_insert_map_to_list.
      unfold mbind at 1, Dec_bind at 1. rewrite Be32int_put, Z.mod_small by lia.
      unfold mbind at 1, Dec_bind at 1. rewrite Nat2Z.id, HdecC. cbn [app].
      rewrite Hdec, <- app_assoc. cbn [app]. unfold columnsOf at 2. cbn [foldl].
      rewrite Htc. cbn [default]. fold (columnsOf infoGetter l).
      by destruct dml.
Qed.


(** X23.  A transaction of row changes that the writer has written is
    read back as it was, with the writable columns of each table in the
    column map, whatever bytes follow the body, provided JSON gives the
    values and columns back and every part fits its field. *)
Theorem Decode_DML_roundtrip (cdcId : string) (txn : mq.Txn)
  (infoGetter : mq.TableInfoGetter) (extra : list byte)
  (Hkinds : TxnType ≠ ResolveTsType)
  (Hddl : mq.txnDDL txn = None)
  (Hts : (mq.txnTs txn < 2 ^ 64)%N)
  (Hid : fitsVarstr cdcId)
  (Hcount : (Z.of_nat (length (mq.DMLs txn)) < 2 ^ 32)%Z)
  (Hall : Forall (dmlOk infoGetter) (mq.DMLs txn)) :
  ∃ data,
    mq.txnWriter_Write marshalJob marshalDatum marshalColumn TxnType cdcId txn infoGetter
    = inr data
    ∧ Decode (data ++ extra)
      = inr {| mq.CdcID := cdcId; mq.MsgType := TxnType; mq.ResloveTs := 0;
               mq.msgTxn := Some txn;
               mq.msgColumns := columnsOf infoGetter (mq.DMLs txn) ∅ |}.
Proof.
  unfold mq.txnWriter_Write, mq.writeDML. rewrite Hddl. cbv zeta.
  destruct (writeDMLs_decode infoGetter (mq.DMLs txn) [] Hall) as (enc & -> & Hdec).
  eexists. split; [reflexivity |].
  rewrite <- app_assoc, Decode_meta, (to_N_kinds Hkinds), N.eqb_refl.
  unfold mq.decodeTxnMsg.
  unfold mbind at 1, Dec_bind at 1. rewrite UvarintStr_put by done.
  unfold PutByte, PutHash. cbn [app].
  set (len := Z.of_nat (length enc)). set (crc := crc32c enc).
  rewrite (PutBE32int_app len), (PutBE32int_app (Z.of_nat (length (mq.DMLs txn)))).
  rewrite <- !app_assoc.
  unfold mbind at 1, Dec_bind at 1. rewrite Be64_put, (N.mod_small _ _ Hts).
  cbn [app].
  unfold mbind at 1, Dec_bind at 1. rewrite Byte_put.
  change (Byte.to_N (byteOfN mq.DmlOp) =? mq.DmlOp)%N with true. cbv iota.
  unfold mq.decodeDML.
  unfold mbind at 1, Dec_bind at 1.
  unfold mbind at 1, Dec_bind at 1. rewrite Be32int_put, Z.mod_small by lia.
  unfold mbind at 1, Dec_bind at 1. rewrite Be32int_put.
  unfold mbind at 1, Dec_bind at 1. rewrite Nat2Z.id, Hdec.
  unfold mret, Dec_ret. cbn [fst app]. destruct txn. simpl in *. by subst.
Qed.

(** X24.  The reader refuses what is not a message: fewer than four
    bytes, or four bytes that are not the magic number, give "invalid
    message format"; a kind that is neither resolved-ts nor transaction
    gives "unsupport type" with the kind byte. *)
Theorem Decode_rejects (data : list byte) :
  (length data < 4 ∨ fromBE (take 4 data) ≠ mq.MagicIndex →
   Decode data = inl ErrInvalidMessage)
  ∧ (∀ version t rest,
       data = PutBE32 mq.MagicIndex [] ++ version :: t :: rest →
       t ≠ ResolveTsType → t ≠ TxnType →
       Decode data = inl (ErrUnsupportedType (Byte.to_N t))).
Proof.
  split.
  - intros Hbad. unfold mq.Decode. unfold mbind at 1, Dec_bind at 1.
    unfold Be32, readFixed. cbn [E B].
    destruct (Nat.ltb_spec (length data) 4) as [Hshort | Hlong]; [reflexivity |].
    destruct Hbad as [? | Hmagic]; [lia |].
    apply N.eqb_neq in Hmagic. by rewrite Hmagic.
  - intros version t rest -> Hr Ht.
    unfold mq.Decode. unfold mbind at 1, Dec_bind at 1. rewrite Be32_put.
    change ((mq.MagicIndex mod 2 ^ 32 =? mq.MagicIndex)%N) with true. cbn [negb].
    unfold mbind at 1, Dec_bind at 1. rewrite Byte_put.
    unfold mbind at 1, Dec_bind at 1. rewrite Byte_put.
    assert (∀ a b : byte, a ≠ b → (Byte.to_N a =? Byte.to_N b)%N = false) as Hinj.
    { intros a b Hne. apply N.eqb_neq. intros Heq. apply Hne.
      pose proof (Byte.of_to_N a) as H1. pose proof (Byte.of_to_N b) as H2.
      rewrite Heq in H1. congruence. }
    by rewrite (Hinj _ _ Hr), (Hinj _ _ Ht).
Qed.


Lemma uvarint_count (buf : list byte) (i : nat) (x s v : N) (n : nat) :
  uvarint i x s buf = Some (v, n) → i < n ≤ i + length buf.
Proof.
  revert i x s. induction buf as [|b buf IH]; intros i x s; simpl; [done |].
  destruct (i =? 10)%nat; [done |].
  destruct (Byte.to_N b <? 128)%N.
  - destruct ((i =? 9)%nat && (1 <? Byte.to_N b)%N); [done |].
    intros [= _ <-]. lia.
  - intros H%IH. lia.
Qed.

Lemma UvarintStr_shrinks (bs : list byte) :
  let d := (UvarintStr {| B := bs; E := None |}).2 in
  is_Some (E d) ∨ length (B d) < length bs.
Proof.
  unfold UvarintStr, Uvarint64. cbn [E B].
  destruct (uvarint 0 0 0 bs) as [[l n]|] eqn:Hu; cbn [E B].
  - apply uvarint_count in Hu.
    destruct (N.of_nat (length (drop n bs)) <? l)%N; cbn [E B snd]; [left; eauto |].
    right. rewrite !length_drop. lia.
  - left. eauto.
Qed.

(** X25.  A message of the resolved-ts kind is never refused: the
    reader returns a message whatever follows the kind byte, and for a
    message cut short (fewer than nine bytes behind the kind) the resolved
    ts it reports is 0. *)
Theorem Decode_resolveTs_truncated (version : byte) (rest : list byte) :
  ∃ m,
    Decode (PutBE32 mq.MagicIndex [] ++ version :: ResolveTsType :: rest) = inr m
    ∧ mq.MsgType m = ResolveTsType
    ∧ (length rest < 9 → mq.ResloveTs m = 0%Z).
Proof.
  unfold mq.Decode. unfold mbind at 1, Dec_bind at 1. rewrite Be32_put.
  change ((mq.MagicIndex mod 2 ^ 32 =? mq.MagicIndex)%N) with true. cbn [negb].
  unfold mbind at 1, Dec_bind at 1. rewrite Byte_put.
  unfold mbind at 1, Dec_bind at 1. rewrite Byte_put, N.eqb_refl.
  unfold mq.decodeResloveTsMsg, mbind, Dec_bind, mret, Dec_ret.
  pose proof (UvarintStr_shrinks rest) as Hshrink. cbv zeta in Hshrink.
  destruct (UvarintStr {| B := rest; E := None |}) as [cdcID d]. cbn [snd] in Hshrink.
  unfold Be64int64, mbind, Dec_bind, mret, Dec_ret, Be64, readFixed.
  destruct (E d) as [err|] eqn:He.
  - eexists. split; [reflexivity |]. split; [reflexivity | done].
  - destruct Hshrink as [[? ?] | Hlen]; [done |].
    destruct (Nat.ltb_spec (length (B d)) 8) as [Hshort | Hlong].
    + eexists. split; [reflexivity |]. split; [reflexivity | done].
    + eexists. split; [reflexivity |]. split; [reflexivity |]. intros. lia.
Qed.

End CodecFacts.

(** ** The properties above at concrete inputs *)

Import cases.

Lemma minimumTablesCapture_minimal_witness :
  let c := feedWithJob model.ChangeFeedSyncDML okSink 45 in
  (∀ id, is_Some (captureA !! id) → (tableCountOf c ∅ id < MaxInt64)%Z)
  ∧ is_Some (captureA !! minimumTablesCapture captureA ∅ c)
  ∧ ∀ id, is_Some (captureA !! id) →
          (tableCountOf c ∅ (minimumTablesCapture captureA ∅ c) <= tableCountOf c ∅ id)%Z.
Proof.
  intros c.
  assert (∀ id, is_Some (captureA !! id) → (tableCountOf c ∅ id < MaxInt64)%Z) as H1.
  { intros id [ci Hci]. unfold captureA in Hci.
    apply lookup_singleton_Some in Hci as [<- _].
    vm_compute. reflexivity. }
  assert (size captureA ≠ 0) as H2 by (vm_compute; discriminate).
  destruct (minimumTablesCapture_minimal c captureA ∅ H1) as [_ H3].
  exact (conj H1 (H3 H2)).
Defined.

Lemma updateTaskStatus_writes_all_witness :
  let c := feedWithJob model.ChangeFeedSyncDML okSink 45 in
  let c' := (updateTaskStatus twoWrites c).1 in
  (updateTaskStatus twoWrites c).2 = Nil
  ∧ taskStatusKV (etcdCli c') !! "B"%string = Some (tablesOnly 2 10)
  ∧ taskStatus c' !! "B"%string = Some (tablesOnly 2 10).
Proof.
  intros c c'.
  assert ((updateTaskStatus twoWrites c).2 = Nil) as H1 by (vm_compute; reflexivity).
  assert (twoWrites !! "B"%string = Some (tablesOnly 2 10)) as H2
    by (vm_compute; reflexivity).
  destruct (updateTaskStatus_writes_all twoWrites c H1) as [Hw _].
  exact (conj H1 (Hw "B"%string (tablesOnly 2 10) H2)).
Defined.

Lemma addTable_removeTable_witness :
  let c := feedWithJob model.ChangeFeedSyncDML okSink 45 in
  let c' := removeTable 1 7 60 (addTable 1 7 50 testTable partitioned c) in
  tables c' = tables c
  ∧ toCleanTables c' = toCleanTables c
  ∧ partitions c' !! 7%Z = None
  ∧ ∀ id, orphanTables c' !! id
          = if decide (id ∈ [71%Z; 72%Z]) then None else orphanTables c !! id.
Proof.
  intros c.
  apply (addTable_removeTable 1 7 50 60 testTable partitioned c).
  - reflexivity.
  - reflexivity.
  - reflexivity.
  - discriminate.
  - simpl. apply NoDup_cons. split; [| apply NoDup_singleton].
    intros H. apply list_elem_of_singleton in H. discriminate.
Defined.

Lemma handleDDL_skips_ineligible_witness :
  let c := pickyFeed in
  let c' := (handleDDL noCyclic captureA c).1 in
  (handleDDL noCyclic captureA c).2 = Nil
  ∧ ddlJobHistory c' = []
  ∧ ddlExecutedTs c' = 50%N
  ∧ ddlState c' = model.ChangeFeedSyncDML
  ∧ calls c' = calls c ++ [CallSchemaHandleDDL (job 1 timodel.ActionCreateTable 7 50)]
  ∧ sink c' = sink c ∧ etcdCli c' = etcdCli c ∧ taskStatus c' = taskStatus c
  ∧ tables c' !! 7%Z = None.
Proof.
  intros c.
  apply (handleDDL_skips_ineligible noCyclic captureA c
           (job 1 timodel.ActionCreateTable 7 50) [] {| ineligible := {[ 7%Z ]} |} "test"
           {| timodel.tiID := 7; timodel.tiName := "t";
              timodel.PartitionDefinitions := None |}).
  - reflexivity.
  - reflexivity.
  - vm_compute. lia.
  - reflexivity.
  - reflexivity.
  - reflexivity.
  - reflexivity.
  - vm_compute. reflexivity.
Defined.

Lemma handleDDL_cyclic_no_sink_witness :
  let c' := (handleDDL noCyclic captureA cyclicFeed).1 in
  sink c' = sink cyclicFeed
  ∧ ∃ more, calls c' = calls cyclicFeed ++ more
            ∧ Forall (fun k => (∃ job, k = CallSchemaHandleDDL job) ∨ isBalanceCall k) more.
Proof.
  apply (handleDDL_cyclic_no_sink noCyclic captureA cyclicFeed); reflexivity.
Defined.

Lemma rebanlanceTables_outstanding_adds_witness :
  let c' := (rebanlanceTables captureA true 0 movingFeed).1 in
  scheduler c' = scheduler movingFeed
  ∧ lastRebanlanceTime c' = lastRebanlanceTime movingFeed.
Proof.
  assert (size (todoAddOperations movingFeed) ≠ 0) as H1 by (vm_compute; discriminate).
  destruct (rebanlanceTables_outstanding_adds captureA true 0 movingFeed H1)
    as (_ & Hs & Hl & _).
  exact (conj Hs Hl).
Defined.

Lemma balanceOrphanTables_consumes_witness :
  let c' := (balanceOrphanTables noCyclic captureA queuedFeed).1 in
  (balanceOrphanTables noCyclic captureA queuedFeed).2 = Nil
  ∧ toCleanTables c' = ∅.
Proof.
  assert ((balanceOrphanTables noCyclic captureA queuedFeed).2 = Nil) as H1
    by (vm_compute; reflexivity).
  assert (size captureA ≠ 0) as H2 by (vm_compute; discriminate).
  destruct (balanceOrphanTables_consumes noCyclic captureA queuedFeed H2 eq_refl eq_refl H1)
    as [Hclean _].
  exact (conj H1 Hclean).
Defined.

Lemma Forward_then_witness :
  (Forward 1 10 threeTxns).2 = Returned
  ∧ Forward 1 25 threeTxns
    = ((Forward 1 10 threeTxns).1.1 ++ (Forward 1 25 (Forward 1 10 threeTxns).1.2).1.1,
       (Forward 1 25 (Forward 1 10 threeTxns).1.2).1.2,
       (Forward 1 25 (Forward 1 10 threeTxns).1.2).2).
Proof.
  assert ((Forward 1 10 threeTxns).2 = Returned) as H1 by reflexivity.
  assert (10 <= 25)%N as H2 by lia.
  exact (conj H1 (Forward_then 1 10 25 threeTxns H2 H1)).
Defined.

Lemma localResolvedTick_min_witness :
  let m : gmap N Ts := {[ 1%N := 30%N; 2%N := 20%N ]} in
  (∀ table ts, m !! table = Some ts → (ts <= MaxUint64)%N)
  ∧ match localResolvedTick m with
    | Some written =>
        (written < MaxUint64)%N
        ∧ (∃ table, m !! table = Some written)
        ∧ ∀ table ts, m !! table = Some ts → (written <= ts)%N
    | None => ∀ table ts, m !! table = Some ts → ts = MaxUint64
    end.
Proof.
  intros m.
  assert (∀ table ts, m !! table = Some ts → (ts <= MaxUint64)%N) as H1.
  { intros table ts Hin. unfold m in Hin.
    apply lookup_insert_Some in Hin as [[_ <-] | [_ Hin]]; [vm_compute; discriminate |].
    apply lookup_singleton_Some in Hin as [_ <-]. vm_compute. discriminate. }
  exact (conj H1 (localResolvedTick_min m H1)).
Defined.

Lemma checkpoint_after_round_witness :
  let w' := (globalResolvedWorkerStep false (ReadOk 10) twoTables).1 in
  workerRound 10 twoTables w'
  ∧ ∃ round,
      resolvedEntries w' = resolvedEntries twoTables ++ round
      ∧ checkpointWorkerLoop (map EntryExecuted round ++ [TimerFired]) 0 = [10%N].
Proof.
  intros w'.
  assert (workerRound 10 twoTables w') as H1.
  { apply globalResolvedWorkerStep_round; [vm_compute; reflexivity | vm_compute; discriminate]. }
  destruct (checkpoint_after_round 10 twoTables w' 0 H1) as (round & Hr & Hcp & _).
  exact (conj H1 (ex_intro _ round (conj Hr Hcp))).
Defined.

Lemma FilterTxn_clean_witness :
  let t' := detail.FilterTxn upper onlyTest mixedTxn in
  mq.DMLs t' = [rowOn "test" "t"]
  ∧ Forall (fun dml => detail.IsSysSchema upper (mq.Database dml) = false) (mq.DMLs t')
  ∧ detail.FilterTxn upper onlyTest t' = t'.
Proof.
  intros t'.
  assert (is_Some (mq.txnDDL mixedTxn) → mq.DMLs mixedTxn = []) as H1
    by (intros [ddl Hddl]; discriminate).
  destruct (FilterTxn_clean upper onlyTest mixedTxn H1) as (_ & Hall & _ & Hidem).
  refine (conj eq_refl (conj _ Hidem)).
  eapply Forall_impl; [exact Hall |]. intros dml [_ Hsys]. exact Hsys.
Defined.

Lemma encodeInt_length (v : Z) : length (encodeInt v) = 8.
Proof. apply be_length. Qed.

Lemma decodeInt_encodeInt (v : Z) :
  (0 <= v < 2 ^ 63)%Z → decodeInt (encodeInt v) = inr ([], v).
Proof.
  intros Hv. unfold decodeInt. rewrite encodeInt_length. simpl Nat.ltb. cbv iota.
  rewrite drop_ge, take_ge by (rewrite encodeInt_length; lia).
  unfold encodeInt. rewrite fromBE_be.
  change (256 ^ N.of_nat 8)%N with (2 ^ 64)%N.
  rewrite Z.mod_small by lia.
  rewrite N.mod_small.
  - rewrite Z2N.id by lia. f_equal. f_equal. lia.
  - change (2 ^ 64)%N with (Z.to_N (2 ^ 64)). apply Z2N.inj_lt; lia.
Qed.

Lemma BatchMsg_fifo_witness :
  let key := list_byte_of_string "k1" in
  let value := list_byte_of_string "row" in
  let l := [(list_byte_of_string "k2", list_byte_of_string "ddl")] in
  let sent := appendAll encodeInt ((key, value) :: l) batch.NewBatchMsg in
  batch.Next decodeInt sent
  = (batch.NextOk key value, appendAll encodeInt l batch.NewBatchMsg)
  ∧ batch.HasNext sent = true
  ∧ batch.HasNext (appendAll encodeInt [] batch.NewBatchMsg) = false
  ∧ ∀ received, batch.SetRaw (batch.GetRaw sent).1 (batch.GetRaw sent).2 received = sent.
Proof.
  intros key value l.
  apply (BatchMsg_fifo encodeInt decodeInt encodeInt_length decodeInt_encodeInt key value l).
  - simpl. lia.
  - simpl. lia.
Defined.

Lemma Decode_resolveTs_roundtrip_witness :
  ∃ data,
    mq.resolveTsWriter_Write ResolveTsType "cdc" 5000 = inr data
    ∧ decode (data ++ [])
      = inr {| mq.CdcID := "cdc"; mq.MsgType := ResolveTsType; mq.ResloveTs := 5000;
               mq.msgTxn := None; mq.msgColumns := ∅ |}.
Proof.
  apply (Decode_resolveTs_roundtrip unmarshalJob marshalText unmarshalText unmarshalColumn
           ResolveTsType TxnType "cdc" 5000 []).
  - unfold fitsVarstr. simpl. lia.
  - lia.
Defined.

Lemma Decode_DDL_roundtrip_witness :
  ∃ sent,
    encodeTxn ddlTxn = inr (sent ++ be 4 (crc32c (ddlBody createTable createTableText)))
    ∧ ∀ tail,
        decode (sent ++ tail)
        = inr {| mq.CdcID := "cdc"; mq.MsgType := TxnType; mq.ResloveTs := 0;
                 mq.msgTxn := Some ddlTxn; mq.msgColumns := ∅ |}.
Proof.
  apply (Decode_DDL_roundtrip marshalJob unmarshalJob marshalText unmarshalText
           marshalColumn unmarshalColumn ResolveTsType TxnType "cdc" ddlTxn
           createTable noTables createTableText).
  - discriminate.
  - reflexivity.
  - reflexivity.
  - vm_compute. reflexivity.
  - simpl. lia.
  - unfold fitsVarstr. simpl. lia.
  - unfold fitsVarstr. simpl. lia.
  - unfold fitsVarstr. simpl. lia.
  - vm_compute. reflexivity.
Defined.

Lemma Decode_accepts_bad_checksum_witness :
  let body := ddlBody createTable createTableText in
  let head := ddlHead TxnType "cdc" 5000 (be 4 (N.of_nat (length body) mod 2 ^ 32)) in
  encodeTxn ddlTxn = inr (head ++ body ++ be 4 (crc32c body))
  ∧ [x00; x00; x00; x00] ≠ be 4 (crc32c body)
  ∧ decode (head ++ body ++ [x00; x00; x00; x00]) = inr ddlMessage
  ∧ crc32c (ddlBody createTableInBest createTableText) ≠ crc32c body
  ∧ decode (head ++ ddlBody createTableInBest createTableText ++ be 4 (crc32c body))
    = inr (ddlMessageOf TxnType "cdc" 5000 createTableInBest).
Proof.
  intros body head.
  assert (fitsVarstr createTableText) as Htext by (vm_compute; reflexivity).
  assert (∀ s : string, (String.length s < 100)%nat → fitsVarstr s) as Hfit.
  { intros s Hs. unfold fitsVarstr.
    apply N.lt_trans with (m := 100%N); [lia | reflexivity]. }
  assert (unmarshalJob createTableText = inr (mq.Job createTable)) as Hback
    by (vm_compute; reflexivity).
  destruct (Decode_accepts_bad_checksum marshalJob unmarshalJob marshalText unmarshalText
              marshalColumn unmarshalColumn ResolveTsType TxnType "cdc" ddlTxn
              createTable noTables createTableText (mq.Job createTable)
              ltac:(discriminate) eq_refl eq_refl Hback ltac:(simpl; lia)
              (Hfit "cdc"%string ltac:(simpl; lia)) (Hfit "test"%string ltac:(simpl; lia))
              (Hfit "t"%string ltac:(simpl; lia)) Htext)
    as (Hwritten & Hstored & _ & Hbody).
  split; [exact Hwritten |].
  split; [vm_compute; discriminate |].
  split; [exact (Hstored _ [x00; x00; x00; x00] (be_length 4 _)) |].
  split; [vm_compute; discriminate |].
  exact (Hbody createTableInBest createTableText Hback
           (Hfit "best"%string ltac:(simpl; lia)) (Hfit "t"%string ltac:(simpl; lia)) Htext).
Defined.

Lemma Decode_DML_roundtrip_witness :
  ∃ data,
    mq.txnWriter_Write marshalJob marshalText marshalColumn TxnType "cdc" rowTxn oneTable
    = inr data
    ∧ decode (data ++ [])
      = inr {| mq.CdcID := "cdc"; mq.MsgType := TxnType; mq.ResloveTs := 0;
               mq.msgTxn := Some rowTxn;
               mq.msgColumns := columnsOf oneTable (mq.DMLs rowTxn) ∅ |}.
Proof.
  apply (Decode_DML_roundtrip marshalJob unmarshalJob marshalText unmarshalText
           marshalColumn unmarshalColumn ResolveTsType TxnType "cdc" rowTxn oneTable []).
  - discriminate.
  - reflexivity.
  - simpl. lia.
  - unfold fitsVarstr. simpl. lia.
  - simpl. lia.
  - constructor; [| constructor].
    assert (∀ s : string, (String.length s < 100)%nat → fitsVarstr s) as Hfit.
    { intros s Hs. unfold fitsVarstr.
      apply N.lt_trans with (m := 100%N); [lia | reflexivity]. }
    split; [apply Hfit; simpl; lia |].
    split; [apply Hfit; simpl; lia |].
    split; [simpl; lia |].
    split; [simpl; rewrite map_size_singleton; lia |].
    split.
    + simpl. rewrite map_to_list_singleton. constructor; [| constructor].
      split; [apply Hfit; simpl; lia |].
      exists "1"%string. split; [reflexivity |]. split; [apply Hfit; simpl; lia | reflexivity].
    + eexists. split; [reflexivity |]. split; [simpl; lia |].
      constructor; [| constructor].
      exists "id"%string. split; [reflexivity |]. split; [apply Hfit; simpl; lia | reflexivity].
Defined.

Lemma balanceOrphanTables_waits_for_mark_witness :
  orphanTables (balanceOrphanTables noCyclic captureA waitingFeed).1
  = orphanTables waitingFeed.
Proof.
  apply (balanceOrphanTables_waits_for_mark noCyclic captureA waitingFeed).
  - reflexivity.
  - intros id ts name _ _. right. reflexivity.
Defined.

Lemma handleDDL_fatal_cases_witness :
  let c := feed model.ChangeFeedWaitToExecDDL okSink 50 50 (position 50 50) 100 [] in
  (handleDDL noCyclic captureA c).2 = Fatal
  ∧ ddlState c = model.ChangeFeedWaitToExecDDL
  ∧ (ddlJobHistory c = []
     ∨ ∃ job rest,
         ddlJobHistory c = job :: rest
         ∧ timodel.binlogTableInfo (timodel.BinlogInfo job) = None
         ∧ (timodel.jobType job = timodel.ActionCreateTable
            ∨ timodel.jobType job = timodel.ActionRecoverTable
            ∨ timodel.jobType job = timodel.ActionTruncateTable)).
Proof.
  intros c.
  assert ((handleDDL noCyclic captureA c).2 = Fatal) as H1 by reflexivity.
  exact (conj H1 (handleDDL_fatal_cases noCyclic captureA c H1)).
Defined.

Lemma updateTaskStatus_partial_writes_witness :
  let visit := [("A"%string, tablesOnly 1 10); ("B"%string, tablesOnly 2 10)] in
  let c' := (updateTaskStatusLoop visit staleFeed).1 in
  let r := balanceOrphanTables noCyclic captureA refusedFeed in
  visit ≡ₚ map_to_list twoWrites
  ∧ (updateTaskStatusLoop visit staleFeed).2 = Failed ErrOperationUnapplied
  ∧ (∃ done cid st rest,
       visit = done ++ (cid, st) :: rest
       ∧ (∀ k s, (k, s) ∈ done → taskStatusKV (etcdCli c') !! k = Some s)
       ∧ (∀ k, k ∉ done.*1 →
               taskStatusKV (etcdCli c') !! k = taskStatusKV (etcdCli staleFeed) !! k))
  ∧ (updateTaskStatusLoop (reverse visit) staleFeed).2 = Failed ErrOperationUnapplied
  ∧ r.2 = Failed ErrOperationUnapplied
  ∧ orphanTables r.1 = orphanTables refusedFeed
  ∧ toCleanTables refusedFeed !! 5%Z = Some 30%N
  ∧ toCleanTables r.1 !! 5%Z = None.
Proof.
  intros visit c' r.
  assert (visit ≡ₚ map_to_list twoWrites) as H1.
  { assert (map_to_list twoWrites = visit ∨ map_to_list twoWrites = reverse visit) as [-> | ->]
      by (vm_compute; auto).
    - reflexivity.
    - by rewrite reverse_Permutation. }
  assert ((updateTaskStatusLoop visit staleFeed).2 = Failed ErrOperationUnapplied) as H2
    by (vm_compute; reflexivity).
  assert (r.2 = Failed ErrOperationUnapplied) as H3 by (vm_compute; reflexivity).
  destruct (updateTaskStatus_partial_writes twoWrites visit staleFeed _ H1 H2)
    as ((done & cid & st & rest & Hl & _ & _ & Hvis & Hrest & _) & Hany & Hbal).
  destruct (Hbal noCyclic captureA refusedFeed _ H3) as (_ & Ho & _ & Hfree & _).
  split; [exact H1 |]. split; [exact H2 |].
  split; [exact (ex_intro _ done (ex_intro _ cid (ex_intro _ st (ex_intro _ rest
                   (conj Hl (conj Hvis Hrest)))))) |].
  split; [apply Hany; by rewrite reverse_Permutation |].
  split; [exact H3 |]. split; [exact Ho |]. split; [reflexivity |].
  apply Hfree. intros k s Hk.
  change (taskStatus refusedFeed) with ({[ "A"%string := model.newTaskStatus ]}
                                        : gmap CaptureID model.TaskStatus) in Hk.
  apply lookup_singleton_Some in Hk as [_ <-]. reflexivity.
Defined.
